(** * cloudsight-go: the request signer and the job poller

    A shallow embedding of [cloudsight.go] and [oauth.go], with the
    [Params] type of [params.go].

    - Go strings are [string]; [JobStatus] and [SkipReason] are string types
      in the source and stay strings here.
    - [Params] is a Go map, a reference: the maps live in a store
      ([heap]) and a [Params] value is [None] (the nil map) or the address
      of a map, so that what a callee writes is seen by its caller.
    - [time.Time] and [time.Duration] are integers counting nanoseconds,
      without the bounds of [int64].
    - The platform (clock, sleeping, the random source, the HTTP transport,
      standard output) is a [World] threaded through every call; each call
      into the platform is recorded in [log].
    - A [*Job] is passed in and handed back; its guard [mu] is a pointer to
      a mutex and may be nil.
    - [http.NewRequest] returns nil and an error when [url.Parse] refuses
      the url.  The two submissions give it the constant [requestsURL],
      which parses, and test the error; [UpdateJob] and [RepostJob] give
      it a url made from the job's token and drop the error, so there the
      nil request is modelled. *)

From stdpp Require Import gmap strings list fin_maps pretty.
From Stdlib Require Import ZArith Floats.PrimFloat Strings.Byte Strings.Ascii.

Open Scope string_scope.
Open Scope list_scope.
Open Scope Z_scope.

(** ** Errors *)

(** Go's [error] values.  The four package variables are made with
    [errors.New]; [fmt.Errorf] makes a fresh value holding its message; an
    error handed over by the platform (transport, random source, reader,
    JSON decoder) is none of the package's own. *)
Inductive error : Type :=
| ErrMissingKey
| ErrMissingSecret
| ErrTimeout
| ErrInvalidRepostStatus
| Errorf (msg : string)
| Foreign (msg : string).

(** The [Error()] method. *)
Definition Error_string (e : error) : string :=
  match e with
  | ErrMissingKey => "key cannot be empty"
  | ErrMissingSecret => "secret cannot be empty"
  | ErrTimeout => "poll timed out"
  | ErrInvalidRepostStatus => "the job needs to have the timeout status"
  | Errorf msg => msg
  | Foreign msg => msg
  end.

#[global] Instance error_eq_dec : EqDecision error.
Proof. solve_decision. Defined.

(** ** Constants of [cloudsight.go] and [oauth.go] *)

Definition BaseURL : string := "https://api.cloudsightapi.com".
Definition DefaultLocale : string := "en-US".
Definition requestsURL : string := BaseURL +:+ "/image_requests".
Definition responsesURL : string := BaseURL +:+ "/image_responses/".

Definition Second : Z := 1000000000.
Definition pollMinWait : Z := Second * 4.

Definition userAgent : list string := ["cloudsight-go v1.0"].

Definition oauthSignatureMethod : string := "HMAC-SHA1".
Definition oauthVersion : string := "1.0".

Definition StatusOK : Z := 200.

(** ** Job status and skip reason *)

Definition JobStatus : Type := string.

Definition StatusNotCompleted : JobStatus := "not completed".
Definition StatusCompleted : JobStatus := "completed".
Definition StatusNotFound : JobStatus := "not found".
Definition StatusSkipped : JobStatus := "skipped".
Definition StatusTimeout : JobStatus := "timeout".

(** The five values the package declares. *)
Definition declared_statuses : list JobStatus :=
  [StatusNotCompleted; StatusCompleted; StatusNotFound; StatusSkipped;
   StatusTimeout].

Definition SkipReason : Type := string.

(** ** Records *)

Module apiResponse.
Record t : Type := mk {
  Categories : list string;
  Error : option string;      (* json.RawMessage: nil, or the raw bytes *)
  Name : string;
  Reason : string;
  Status : string;
  TTL : float;
  Token : string;
  URL : string
}.
End apiResponse.

Inductive Mutex : Type := Unlocked | Locked.

Module Job.
Record t : Type := mk {
  Categories : list string;
  Name : string;
  Status : JobStatus;
  TTL : float;
  Token : string;
  URL : string;
  SkipReason : SkipReason;
  createdAt : Z;
  mu : option Mutex           (* *sync.Mutex: nil, or the mutex *)
}.
End Job.

Record Client : Type := { key : string; secret : string }.

(** [Params]: the nil map, or a reference to a map in the store. *)
Definition loc : Type := positive.
Definition Params : Type := option loc.

(** An [io.Reader]: the bytes it yields, then EOF or an error. *)
Record Reader : Type := { rd_data : list byte; rd_err : option string }.

(** ** HTTP *)

Inductive Body : Type :=
| NoBody
| Multipart (filename : string) (image : list byte)
            (fields : gmap string string)
| Form (encoded : string).

Record Request : Type := {
  Method : string;
  ReqURL : string;
  Header : gmap string (list string);
  ReqBody : Body
}.

Record Response : Type := { StatusCode : Z; RespBody : string }.

(** ** The platform *)

(** Functions of Go's standard library that the package calls and whose
    results it only passes on. *)
Class Platform : Type := {
  ToUpper : string -> string;                       (* strings.ToUpper *)
  QueryEscape : string -> string;                   (* url.QueryEscape *)
  Encode : gmap string (list string) -> string;     (* url.Values.Encode *)
  Sum256 : list byte -> list byte;                  (* sha256.Sum256 *)
  EncodeToString : list byte -> string;             (* hex.EncodeToString *)
  hmac_sha1 : string -> string -> list byte;        (* hmac.New(sha1.New, k); Write; Sum *)
  base64_EncodeToString : list byte -> string;      (* base64.StdEncoding *)
  jsonDecode : string -> string + apiResponse.t;    (* json.Decoder.Decode *)
  multipartLen : string -> list byte -> gmap string string -> Z;
                                                    (* buf.Len() of the multipart body *)
  FormDataContentType : string;                     (* multi.FormDataContentType() *)
  url_parses : string -> bool                       (* url.Parse: a URL, and no error *)
}.

(** What the outside decides: how much time passes around each platform
    call, what the transport answers, what the random source yields.  The
    [nat] is the number of platform calls made so far. *)
Record Env : Type := {
  delay : nat -> N;
  transport : nat -> Request -> string + Response;
  entropy : nat -> string + list byte
}.

Inductive Event : Type :=
| EvSleep (at_ : Z) (d : Z)
| EvDo (at_ : Z) (req : Request) (res : string + Response)
| EvPrint (line : string).

Record World : Type := {
  env : Env;
  now : Z;
  calls : nat;
  heap : gmap loc (gmap string string);
  log : list Event
}.

(** ** The state monad of platform calls *)

Definition M (A : Type) : Type := World -> A * World.

Definition ret {A} (a : A) : M A := fun w => (a, w).

Definition bind {A B} (m : M A) (k : A -> M B) : M B :=
  fun w => let (a, w') := m w in k a w'.

Declare Scope m_scope.
Delimit Scope m_scope with M.
Notation "x <- c1 ;; c2" := (bind c1 (fun x => c2))
  (at level 100, c1 at next level, right associativity) : m_scope.
Notation "c1 ;;; c2" := (bind c1 (fun _ => c2))
  (at level 100, right associativity) : m_scope.

(** Time passes around every platform call. *)
Definition tick (w : World) : World :=
  {| env := env w;
     now := now w + Z.of_N (delay (env w) (calls w));
     calls := S (calls w);
     heap := heap w;
     log := log w |}.

Definition emit (e : Event) (w : World) : World :=
  {| env := env w; now := now w; calls := calls w; heap := heap w;
     log := log w ++ [e] |}.

(** [time.Now()] *)
Definition time_Now : M Z := fun w => let w1 := tick w in (now w1, w1).

(** [time.Sleep(d)]: returns at once when [d <= 0]. *)
Definition time_Sleep (d : Z) : M unit := fun w =>
  let w1 := tick w in
  (tt, {| env := env w1; now := now w1 + Z.max 0 d; calls := calls w1;
          heap := heap w1; log := log w1 ++ [EvSleep (now w1) d] |}).

(** [rand.Read(buf)] on a buffer of [n] bytes. *)
Definition rand_Read (n : nat) : M (error + list byte) := fun w =>
  let w1 := tick w in
  (match entropy (env w1) (calls w) with
   | inl msg => inl (Foreign msg)
   | inr bs => inr (take n (bs ++ replicate n x00%byte))
   end, w1).

(** [http.DefaultClient.Do(req)] *)
Definition http_Do (req : Request) : M (error + Response) := fun w =>
  let w1 := tick w in
  let res := transport (env w1) (calls w) req in
  (match res with inl msg => inl (Foreign msg) | inr r => inr r end,
   emit (EvDo (now w1) req res) w1).

(** [fmt.Println] *)
Definition fmt_Println (line : string) : M unit := fun w =>
  (tt, emit (EvPrint line) w).

(** Maps in the store. *)
Definition new_map : M loc := fun w =>
  let l := fresh (dom (heap w)) in
  (l, {| env := env w; now := now w; calls := calls w;
         heap := <[l := ∅]> (heap w); log := log w |}).

Definition map_of (w : World) (l : loc) : gmap string string :=
  default ∅ (heap w !! l).

Definition load (l : loc) : M (gmap string string) := fun w => (map_of w l, w).

Definition store (l : loc) (k v : string) : M unit := fun w =>
  (tt, {| env := env w; now := now w; calls := calls w;
          heap := <[l := <[k := v]> (map_of w l)]> (heap w); log := log w |}).

(** ** Outcomes of the job methods *)

(** A method that takes the job's guard may fail to return: locking
    through a nil pointer panics, and locking a mutex that is already held
    waits for a release that a sequential run never sees.  The wait loop is
    run with fuel; [OutOfFuel] is a run still looping. *)
Inductive outcome (A : Type) : Type :=
| Returns (a : A) (w : World)
| Panics (w : World)
| Blocks (w : World)
| OutOfFuel (w : World).

Arguments Returns {A} a w.
Arguments Panics {A} w.
Arguments Blocks {A} w.
Arguments OutOfFuel {A} w.

Definition world_of {A} (o : outcome A) : World :=
  match o with
  | Returns _ w | Panics w | Blocks w | OutOfFuel w => w
  end.

(** ** Small helpers of the standard library, written out *)

(** [strings.Join] *)
Definition Join (elems : list string) (sep : string) : string :=
  match elems with
  | [] => ""
  | x :: xs => fold_left (fun acc s => acc +:+ sep +:+ s) xs x
  end.

(** [strings.HasPrefix] *)
Definition HasPrefix (s pre : string) : bool := String.prefix pre s.

(** [Time.Unix]: whole seconds. *)
Definition Unix (t : Z) : Z := t / Second.

(** The double quote character. *)
Definition dq : string := String "034"%char "".

(** Reading a Go map: the zero value when the key is absent. *)
Definition index (m : gmap string string) (k : string) : string :=
  default "" (m !! k).

(** [Params.values] *)
Definition values (m : gmap string string) : gmap string (list string) :=
  (fun v => [v]) <$> m.

Definition set_mu (m : option Mutex) (j : Job.t) : Job.t :=
  {| Job.Categories := Job.Categories j; Job.Name := Job.Name j;
     Job.Status := Job.Status j; Job.TTL := Job.TTL j;
     Job.Token := Job.Token j; Job.URL := Job.URL j;
     Job.SkipReason := Job.SkipReason j; Job.createdAt := Job.createdAt j;
     Job.mu := m |}.

(** ** Constructors of [Client] *)

Definition NewClientOAuth (key secret : string) : error + Client :=
  if decide (key = "") then inl ErrMissingKey
  else if decide (secret = "") then inl ErrMissingSecret
  else inr {| key := key; secret := secret |}.

Definition NewClientSimple (key : string) : error + Client :=
  if decide (key = "") then inl ErrMissingKey
  else inr {| key := key; secret := "" |}.

Section Cloudsight.
Context {P : Platform}.

Local Open Scope m_scope.

(** ** [oauth.go] *)

(** [params = Params{}] when the argument is nil. *)
Definition or_new (params : Params) : M loc :=
  match params with
  | None => new_map
  | Some l => ret l
  end.

Definition oauthSign (method url key secret : string) (params : Params)
  : M (error + string) :=
  p <- or_new params ;;
  r <- rand_Read 20 ;;
  match r with
  | inl err => ret (inl err)
  | inr nonceBuf =>
    let hash := Sum256 nonceBuf in
    store p "oauth_nonce" (EncodeToString hash) ;;;
    store p "oauth_consumer_key" key ;;;
    store p "oauth_signature_method" oauthSignatureMethod ;;;
    t <- time_Now ;;
    store p "oauth_timestamp" (pretty (Unix t)) ;;;
    store p "oauth_version" oauthVersion ;;;
    m <- load p ;;
    let baseString :=
      Join [ToUpper method; QueryEscape url; QueryEscape (Encode (values m))]
           "&" in
    let secret := QueryEscape secret +:+ "&" in
    let signature := hmac_sha1 secret baseString in
    let headerValues :=
      [ "oauth_consumer_key=" +:+ dq +:+ index m "oauth_consumer_key" +:+ dq;
        "oauth_nonce=" +:+ dq +:+ index m "oauth_nonce" +:+ dq;
        "oauth_signature=" +:+ dq +:+ base64_EncodeToString signature +:+ dq;
        "oauth_signature_method=" +:+ dq +:+ oauthSignatureMethod +:+ dq;
        "oauth_timestamp=" +:+ dq +:+ index m "oauth_timestamp" +:+ dq;
        "oauth_version=" +:+ dq +:+ oauthVersion +:+ dq ] in
    ret (inr ("OAuth " +:+ Join headerValues ", "))
  end.

(** ** [cloudsight.go] *)

Definition getAuthHeader (c : Client) (method url : string) (params : Params)
  : M (error + string) :=
  if decide (secret c = "") then ret (inr ("CloudSight " +:+ key c))
  else oauthSign method url (key c) (secret c) params.

Definition normalize_url (jobURL : string) : string :=
  if HasPrefix jobURL "//" then "https:" +:+ jobURL else jobURL.

Definition doImageRequest (c : Client) (req : Request) : M (error + Job.t) :=
  r <- http_Do req ;;
  match r with
  | inl err => ret (inl err)
  | inr resp =>
    match jsonDecode (RespBody resp) with
    | inl msg => ret (inl (Foreign msg))
    | inr job =>
      match apiResponse.Error job with
      | Some raw =>
        ret (inl (Errorf ("api error: " +:+ raw +:+ ", status code: "
                          +:+ pretty (StatusCode resp))))
      | None =>
        (if decide (StatusCode resp ≠ StatusOK)
         then fmt_Println ("status code " +:+ pretty (StatusCode resp))
         else ret tt) ;;;
        let jobURL := normalize_url (apiResponse.URL job) in
        t <- time_Now ;;
        ret (inr {| Job.Categories := [];
                    Job.Name := "";
                    Job.Status := apiResponse.Status job;
                    Job.TTL := apiResponse.TTL job;
                    Job.Token := apiResponse.Token job;
                    Job.URL := jobURL;
                    Job.SkipReason := "";
                    Job.createdAt := t;
                    Job.mu := Some Unlocked |})
      end
    end
  end.

(** The default locale goes into the map when the key is absent. *)
Definition default_locale (p : loc) : M unit :=
  m <- load p ;;
  match m !! "image_request[locale]" with
  | Some _ => ret tt
  | None => store p "image_request[locale]" DefaultLocale
  end.

(** [multi.CreateFormFile] and [multi.Close] write to a buffer in memory
    and do not fail; [io.Copy] fails when the reader does;
    [http.NewRequest] is given the constant [requestsURL] and does not
    fail. *)
Definition ImageRequest (c : Client) (image : Reader) (filename : string)
    (params : Params) : M (error + Job.t) :=
  match rd_err image with
  | Some msg => ret (inl (Foreign msg))
  | None =>
    p <- or_new params ;;
    default_locale p ;;;
    fields <- load p ;;
    let buf := Multipart filename (rd_data image) fields in
    auth <- getAuthHeader c "POST" requestsURL (Some p) ;;
    match auth with
    | inl err => ret (inl err)
    | inr auth =>
      let hdr : gmap string (list string) :=
        <["Content-Type" := [FormDataContentType] ]>
        (<["Content-Length" :=
             [pretty (multipartLen filename (rd_data image) fields)] ]>
        (<["Authorization" := [auth] ]>
        (<["User-Agent" := userAgent]> ∅))) in
      doImageRequest c {| Method := "POST"; ReqURL := requestsURL;
                          Header := hdr; ReqBody := buf |}
    end
  end.

(** [http.NewRequest] is given the constant [requestsURL] and does not
    fail. *)
Definition RemoteImageRequest (c : Client) (url : string) (params : Params)
  : M (error + Job.t) :=
  p <- or_new params ;;
  default_locale p ;;;
  store p "image_request[remote_image_url]" url ;;;
  m <- load p ;;
  let body := Encode (values m) in
  auth <- getAuthHeader c "POST" requestsURL (Some p) ;;
  match auth with
  | inl err => ret (inl err)
  | inr auth =>
    fmt_Println ("auth " +:+ auth) ;;;
    let hdr : gmap string (list string) :=
      <["Content-Length" := [pretty (Z.of_nat (String.length body))] ]>
      (<["Authorization" := [auth] ]>
      (<["User-Agent" := userAgent]> ∅)) in
    doImageRequest c {| Method := "POST"; ReqURL := requestsURL;
                        Header := hdr; ReqBody := Form body |}
  end.

Definition updateJobFromRequest (job : Job.t) (req : Request)
  : M (option error * Job.t) :=
  r <- http_Do req ;;
  match r with
  | inl err => ret (Some (Errorf ("HTTP error: " +:+ Error_string err)), job)
  | inr resp =>
    match jsonDecode (RespBody resp) with
    | inl msg => ret (Some (Errorf ("JSON error: " +:+ msg)), job)
    | inr updatedJob =>
      match apiResponse.Error updatedJob with
      | Some raw =>
        ret (Some (Errorf ("api error: " +:+ raw +:+ ", status code: "
                           +:+ pretty (StatusCode resp))), job)
      | None =>
        ret (None,
             {| Job.Categories := apiResponse.Categories updatedJob;
                Job.Name := apiResponse.Name updatedJob;
                Job.Status := apiResponse.Status updatedJob;
                Job.TTL := apiResponse.TTL updatedJob;
                Job.Token := Job.Token job;
                Job.URL := Job.URL job;
                Job.SkipReason := apiResponse.Reason updatedJob;
                Job.createdAt := Job.createdAt job;
                Job.mu := Job.mu job |})
      end
    end
  end.

(** [http.NewRequest method url body], for the methods ["GET"] and
    ["POST"] the package uses: the request, with an empty header, or nil
    when [url.Parse] refuses the url. *)
Definition NewRequest (method url : string) (body : Body) : option Request :=
  if url_parses url
  then Some {| Method := method; ReqURL := url; Header := ∅; ReqBody := body |}
  else None.

(** [hdr[k] = v] on the header of a request. *)
Definition set_header (k : string) (v : list string) (req : Request)
  : Request :=
  {| Method := Method req; ReqURL := ReqURL req;
     Header := <[k := v]> (Header req); ReqBody := ReqBody req |}.

(** The GET request of a poll as it is sent, when [http.NewRequest] has
    built it. *)
Definition poll_request (job : Job.t) (auth : string) : Request :=
  {| Method := "GET"; ReqURL := responsesURL +:+ Job.Token job;
     Header := <["Authorization" := [auth] ]> (<["User-Agent" := userAgent]> ∅);
     ReqBody := NoBody |}.

(** [UpdateJob] between [job.mu.Lock()] and the deferred [Unlock].  The
    error of [http.NewRequest] is dropped, so a url that does not parse
    leaves [req] nil, and [req.Header] panics before the header is made or
    anything is sent. *)
Definition UpdateJob_locked (c : Client) (job : Job.t) (w : World)
  : outcome (option error * Job.t) :=
  if decide (Job.Status job ≠ StatusNotCompleted) then Returns (None, job) w
  else
    let url := responsesURL +:+ Job.Token job in
    match NewRequest "GET" url NoBody with
    | None => Panics w
    | Some req =>
      let req := set_header "User-Agent" userAgent req in
      let (auth, w1) := getAuthHeader c "GET" url None w in
      match auth with
      | inl err => Returns (Some err, job) w1
      | inr auth =>
        let req := set_header "Authorization" [auth] req in
        let '(err, job', w2) := updateJobFromRequest job req w1 in
        Returns (err, job') w2
      end
    end.

(** [UpdateJob]: the guard is taken, and released when the body returns
    or panics. *)
Definition UpdateJob (c : Client) (job : Job.t) (w : World)
  : outcome (option error * Job.t) :=
  match Job.mu job with
  | None => Panics w
  | Some Locked => Blocks w
  | Some Unlocked =>
    match UpdateJob_locked c (set_mu (Some Locked) job) w with
    | Returns (err, job') w' => Returns (err, set_mu (Some Unlocked) job') w'
    | Panics w' => Panics w'
    | Blocks w' => Blocks w'
    | OutOfFuel w' => OutOfFuel w'
    end
  end.

(** The POST request of a repost as it is sent, when [http.NewRequest] has
    built it. *)
Definition repost_request (job : Job.t) (auth : string) : Request :=
  {| Method := "POST";
     ReqURL := requestsURL +:+ "/" +:+ Job.Token job +:+ "/repost";
     Header := <["Authorization" := [auth] ]>
               (<["Content-Length" := ["0"] ]>
               (<["User-Agent" := userAgent]> ∅));
     ReqBody := NoBody |}.

(** [RepostJob].  Here too the error of [http.NewRequest] is dropped and
    [req.Header] panics on the nil request. *)
Definition RepostJob (c : Client) (job : Job.t) (w : World)
  : outcome (option error * Job.t) :=
  if decide (Job.Status job ≠ StatusTimeout)
  then Returns (Some ErrInvalidRepostStatus, job) w
  else
    let url := requestsURL +:+ "/" +:+ Job.Token job +:+ "/repost" in
    match NewRequest "POST" url NoBody with
    | None => Panics w
    | Some req =>
      let req := set_header "User-Agent" userAgent req in
      let req := set_header "Content-Length" ["0"] req in
      let (auth, w1) := getAuthHeader c "POST" url None w in
      match auth with
      | inl err => Returns (Some err, job) w1
      | inr auth =>
        let req := set_header "Authorization" [auth] req in
        let (r, w2) := http_Do req w1 in
        match r with
        | inl err =>
          Returns (Some (Errorf ("HTTP error: " +:+ Error_string err)), job) w2
        | inr resp =>
          if decide (StatusCode resp ≠ StatusOK)
          then Returns (Some (Errorf ("error reposting job: " +:+ RespBody resp
                                      +:+ ", status: "
                                      +:+ pretty (StatusCode resp))), job) w2
          else UpdateJob c job w2
        end
      end
    end.

(** One turn of the [for] loop of [WaitJob]: it leaves the loop with the
    value [WaitJob] returns, or goes round again. *)
Inductive turn : Type :=
| Leave (err : option error) (job : Job.t)
| Again (job : Job.t).

(** [timeout > 0 && time.Now().After(timeoutAt)]: the clock is read only
    when the timeout is positive. *)
Definition deadline_passed (timeout timeoutAt : Z) : M bool :=
  if decide (0 < timeout)
  then (t <- time_Now ;; ret (bool_decide (timeoutAt < t)))
  else ret false.

Definition WaitJob_turn (c : Client) (job : Job.t) (timeout timeoutAt : Z)
    (w : World) : outcome turn :=
  let (late, w1) := deadline_passed timeout timeoutAt w in
  if late then Returns (Leave (Some ErrTimeout) job) w1
  else
    match UpdateJob c job w1 with
    | Returns (Some err, job') w2 => Returns (Leave (Some err) job') w2
    | Returns (None, job') w2 =>
      if decide (Job.Status job' ≠ StatusNotCompleted)
      then Returns (Leave None job') w2
      else let (_, w3) := time_Sleep (1 * Second) w2 in
           Returns (Again job') w3
    | Panics w2 => Panics w2
    | Blocks w2 => Blocks w2
    | OutOfFuel w2 => OutOfFuel w2
    end.

Fixpoint WaitJob_loop (fuel : nat) (c : Client) (job : Job.t)
    (timeout timeoutAt : Z) (w : World) : outcome (option error * Job.t) :=
  match fuel with
  | O => OutOfFuel w
  | S fuel' =>
    match WaitJob_turn c job timeout timeoutAt w with
    | Returns (Leave err job') w' => Returns (err, job') w'
    | Returns (Again job') w' => WaitJob_loop fuel' c job' timeout timeoutAt w'
    | Panics w' => Panics w'
    | Blocks w' => Blocks w'
    | OutOfFuel w' => OutOfFuel w'
    end
  end.

(** The quiet period before the loop. *)
Definition WaitJob_quiet (job : Job.t) (timeout : Z) : M Z :=
  t0 <- time_Now ;;
  let timeoutAt := t0 + timeout in
  let waitUntil := Job.createdAt job + pollMinWait in
  now_ <- time_Now ;;
  (if decide (now_ < waitUntil) then time_Sleep (waitUntil - now_)
   else ret tt) ;;;
  ret timeoutAt.

Definition WaitJob (fuel : nat) (c : Client) (job : Job.t) (timeout : Z)
    (w : World) : outcome (option error * Job.t) :=
  let (timeoutAt, w1) := WaitJob_quiet job timeout w in
  WaitJob_loop fuel c job timeout timeoutAt w1.

End Cloudsight.

(** * [params.go] *)

(** How [fmt] renders a float: [fmt.Sprint(x)], and the verb [%f]. *)
Class FloatFmt : Type := {
  Sprint_float : float -> string;
  Sprintf_f : float -> string
}.

(** [p[k] = v].  An assignment to an entry of the nil map panics. *)
Definition assign (p : Params) (k v : string) (w : World) : outcome unit :=
  match p with
  | None => Panics w
  | Some l => Returns tt (snd (store l k v w))
  end.

(** One call after another, when the first returns. *)
Definition and_then {A B} (o : outcome A) (k : A -> World -> outcome B)
  : outcome B :=
  match o with
  | Returns a w => k a w
  | Panics w => Panics w
  | Blocks w => Blocks w
  | OutOfFuel w => OutOfFuel w
  end.

(** [Params.values]: ranging over the nil map yields nothing. *)
Definition Params_values (p : Params) (w : World) : gmap string (list string) :=
  match p with
  | None => ∅
  | Some l => values (map_of w l)
  end.

Definition SetLocale (p : Params) (locale : string) (w : World)
  : outcome unit :=
  assign p "image_request[locale]" locale w.

Definition SetLanguage (p : Params) (lang : string) (w : World)
  : outcome unit :=
  assign p "image_request[language]" lang w.

Definition SetDeviceID (p : Params) (id : string) (w : World) : outcome unit :=
  assign p "image_request[device_id]" id w.

(** [SetMaxTTL] *)
Definition SetMaxTTL (p : Params) (w : World) : outcome unit :=
  assign p "image_request[ttl]" "max" w.

(** [SetTTL]; [fmt.Sprint] and [%d] of an [int] are its decimal digits. *)
Definition SetTTL (p : Params) (ttl : Z) (w : World) : outcome (option error) :=
  if decide (ttl <= 0)
  then Returns (Some (Errorf ("invalid ttl: " +:+ pretty ttl
                              +:+ ", should be greater than 0"))) w
  else and_then (assign p "image_request[ttl]" (pretty ttl) w)
                (fun _ w' => Returns None w').

(** [%f] given an [int]: [fmt] writes [%!f(int=<digits>)]. *)
Definition bad_f_int (x : Z) : string := "%!f(int=" +:+ pretty x +:+ ")".

(** [SetFocusAbsolute]; both messages are formatted with [x]. *)
Definition SetFocusAbsolute (p : Params) (x y : Z) (w : World)
  : outcome (option error) :=
  if decide (x < 0)
  then Returns (Some (Errorf ("invalid focus X parameter: " +:+ bad_f_int x
                              +:+ ", should be greater or equal to 0"))) w
  else if decide (y < 0)
  then Returns (Some (Errorf ("invalid focus Y parameter: " +:+ bad_f_int x
                              +:+ ", should be greater or equal to 0"))) w
  else and_then (assign p "focus[x]" (pretty x) w) (fun _ w1 =>
       and_then (assign p "focus[y]" (pretty y) w1) (fun _ w2 =>
       Returns None w2)).

Section ParamsFloat.
Context {F : FloatFmt}.

Definition SetLatitude (p : Params) (lat : float) (w : World)
  : outcome (option error) :=
  if (90 <? lat)%float || (lat <? -90)%float
  then Returns (Some (Errorf ("invalid latitude: " +:+ Sprintf_f lat))) w
  else and_then (assign p "image_request[latitude]" (Sprint_float lat) w)
                (fun _ w' => Returns None w').

Definition SetLongitude (p : Params) (lon : float) (w : World)
  : outcome (option error) :=
  if (180 <? lon)%float || (lon <? -180)%float
  then Returns (Some (Errorf ("invalid longitude: " +:+ Sprintf_f lon))) w
  else and_then (assign p "image_request[longitude]" (Sprint_float lon) w)
                (fun _ w' => Returns None w').

Definition SetAltitude (p : Params) (alt : float) (w : World) : outcome unit :=
  assign p "image_request[altitude]" (Sprint_float alt) w.

Definition SetPosition (p : Params) (lat lon alt : float) (w : World)
  : outcome (option error) :=
  and_then (SetLatitude p lat w) (fun err w1 =>
    match err with
    | Some e => Returns (Some e) w1
    | None =>
      and_then (SetLongitude p lon w1) (fun err w2 =>
        match err with
        | Some e => Returns (Some e) w2
        | None =>
          and_then (SetAltitude p alt w2) (fun _ w3 => Returns None w3)
        end)
    end).

(** [SetFocusRelative]; both messages are formatted with [x]. *)
Definition SetFocusRelative (p : Params) (x y : float) (w : World)
  : outcome (option error) :=
  if (x <? 0)%float || (1 <? x)%float
  then Returns (Some (Errorf ("invalid focus X parameter: " +:+ Sprintf_f x
                              +:+ ", should be [0.0, 1.0]"))) w
  else if (y <? 0)%float || (1 <? y)%float
  then Returns (Some (Errorf ("invalid focus Y parameter: " +:+ Sprintf_f x
                              +:+ ", should be [0.0, 1.0]"))) w
  else and_then (assign p "focus[x]" (Sprint_float x) w) (fun _ w1 =>
       and_then (assign p "focus[y]" (Sprint_float y) w1) (fun _ w2 =>
       Returns None w2)).

End ParamsFloat.

(** The keys the setters of [params.go] write. *)
Definition setter_keys : list string :=
  ["image_request[locale]"; "image_request[language]";
   "image_request[device_id]"; "image_request[latitude]";
   "image_request[longitude]"; "image_request[altitude]";
   "image_request[ttl]"; "focus[x]"; "focus[y]"].

(** * Vocabulary of the statements *)

(** The keys [oauthSign] writes. *)
Definition oauth_keys : list string :=
  ["oauth_nonce"; "oauth_consumer_key"; "oauth_signature_method";
   "oauth_timestamp"; "oauth_version"].

(** The key of the locale parameter. *)
Definition locale_key : string := "image_request[locale]".

(** The world with another store. *)
Definition set_heap (h : gmap loc (gmap string string)) (w : World) : World :=
  {| env := env w; now := now w; calls := calls w; heap := h; log := log w |}.

(** The key under which [RemoteImageRequest] puts the url. *)
Definition remote_key : string := "image_request[remote_image_url]".

(** A map with the default locale put in when it holds none. *)
Definition with_locale (m : gmap string string) : gmap string string :=
  match m !! locale_key with
  | Some _ => m
  | None => <[locale_key := DefaultLocale]> m
  end.

(** The requests in a list of events. *)
Fixpoint requests (evs : list Event) : list Request :=
  match evs with
  | [] => []
  | EvDo _ req _ :: evs' => req :: requests evs'
  | _ :: evs' => requests evs'
  end.

(** The POST request of [RemoteImageRequest], given the header and the
    encoded body. *)
Definition remote_request (auth body : string) : Request :=
  {| Method := "POST"; ReqURL := requestsURL;
     Header := <["Content-Length" := [pretty (Z.of_nat (String.length body))] ]>
               (<["Authorization" := [auth] ]>
               (<["User-Agent" := userAgent]> ∅));
     ReqBody := Form body |}.

(** The POST request of [ImageRequest], given the header, the file and the
    fields. *)
Definition upload_request {P : Platform} (auth filename : string)
    (image : list byte) (fields : gmap string string) : Request :=
  {| Method := "POST"; ReqURL := requestsURL;
     Header := <["Content-Type" := [FormDataContentType] ]>
               (<["Content-Length" :=
                    [pretty (multipartLen filename image fields)] ]>
               (<["Authorization" := [auth] ]>
               (<["User-Agent" := userAgent]> ∅)));
     ReqBody := Multipart filename image fields |}.

(** The clock reading an event carries. *)
Definition ev_at (e : Event) : option Z :=
  match e with
  | EvSleep t _ | EvDo t _ _ => Some t
  | EvPrint _ => None
  end.

Definition in_span (w w' : World) (e : Event) : Prop :=
  match ev_at e with
  | Some t => now w <= t <= now w'
  | None => True
  end.

(** [steps_to w w' evs]: the world [w'] is reached from [w] by platform
    calls that logged [evs]; the outside is the same, the clock has not
    gone back, and the events carry readings between the two clocks. *)
Definition steps_to (w w' : World) (evs : list Event) : Prop :=
  env w' = env w /\ now w <= now w' /\ log w' = log w ++ evs
  /\ Forall (in_span w w') evs.

(** What [updateJobFromRequest] makes of the transport's answer. *)
Definition poll_result {P : Platform} (job : Job.t) (res : string + Response)
  : option error * Job.t :=
  match res with
  | inl msg => (Some (Errorf ("HTTP error: " +:+ msg)), job)
  | inr resp =>
    match jsonDecode (RespBody resp) with
    | inl msg => (Some (Errorf ("JSON error: " +:+ msg)), job)
    | inr r =>
      match apiResponse.Error r with
      | Some raw =>
        (Some (Errorf ("api error: " +:+ raw +:+ ", status code: "
                       +:+ pretty (StatusCode resp))), job)
      | None =>
        (None,
         {| Job.Categories := apiResponse.Categories r;
            Job.Name := apiResponse.Name r;
            Job.Status := apiResponse.Status r;
            Job.TTL := apiResponse.TTL r;
            Job.Token := Job.Token job;
            Job.URL := Job.URL job;
            Job.SkipReason := apiResponse.Reason r;
            Job.createdAt := Job.createdAt job;
            Job.mu := Job.mu job |})
      end
    end
  end.

(** An answer that decodes, carries no error and says "not completed". *)
Definition saw_not_completed {P : Platform} (res : string + Response) : Prop :=
  match res with
  | inl _ => False
  | inr resp =>
    match jsonDecode (RespBody resp) with
    | inl _ => False
    | inr r => apiResponse.Error r = None
               /\ apiResponse.Status r = StatusNotCompleted
    end
  end.

Definition poll_saw_not_completed {P : Platform} (e : Event) : Prop :=
  match e with
  | EvDo _ _ res => saw_not_completed res
  | _ => True
  end.

(** A service that tells every poll "not completed", and a random source
    that never fails. *)
Definition always_not_completed {P : Platform} (E : Env) : Prop :=
  forall k req, saw_not_completed (transport E k req).

Definition entropy_works (E : Env) : Prop :=
  forall k, exists bs, entropy E k = inr bs.

(** The clock readings of the requests in a log. *)
Fixpoint poll_times (evs : list Event) : list Z :=
  match evs with
  | [] => []
  | EvDo t _ _ :: evs' => t :: poll_times evs'
  | _ :: evs' => poll_times evs'
  end.

(** The schedule of the wait loop: no request before [lo], a second
    or more from one request to the next, and every sleep asks for exactly
    one second. *)
Fixpoint loop_schedule (lo : Z) (evs : list Event) : Prop :=
  match evs with
  | [] => True
  | EvDo t _ _ :: evs' => lo <= t /\ loop_schedule (t + Second) evs'
  | EvSleep _ d :: evs' => d = Second /\ loop_schedule lo evs'
  | EvPrint _ :: evs' => loop_schedule lo evs'
  end.

(** * Closed inputs for the examples *)

(** A platform for closed examples.  The string and hash functions are
    stand-ins, which no statement below depends on; the decoder knows a
    handful of bodies and decodes each as [encoding/json] does. *)
Module Demo.

Definition q (s : string) : string := dq +:+ s +:+ dq.

(** [{"token":"abc","status":"not completed","ttl":0}] *)
Definition body_not_completed : string :=
  "{" +:+ q "token" +:+ ":" +:+ q "abc" +:+ "," +:+ q "status" +:+ ":"
  +:+ q "not completed" +:+ "," +:+ q "ttl" +:+ ":0}".

(** [{"status":"completed","name":"a cat","categories":["cat","animal"]}] *)
Definition body_completed : string :=
  "{" +:+ q "status" +:+ ":" +:+ q "completed" +:+ "," +:+ q "name" +:+ ":"
  +:+ q "a cat" +:+ "," +:+ q "categories" +:+ ":[" +:+ q "cat" +:+ ","
  +:+ q "animal" +:+ "]}".

(** [{"error":"bad token"}] *)
Definition body_error : string :=
  "{" +:+ q "error" +:+ ":" +:+ q "bad token" +:+ "}".

(** [{"status":"queued","token":"abc"}] *)
Definition body_queued : string :=
  "{" +:+ q "status" +:+ ":" +:+ q "queued" +:+ "," +:+ q "token" +:+ ":"
  +:+ q "abc" +:+ "}".

(** [{"token":"abc","status":"not completed","url":"//img.example/abc.jpg"}] *)
Definition body_relative : string :=
  "{" +:+ q "token" +:+ ":" +:+ q "abc" +:+ "," +:+ q "status" +:+ ":"
  +:+ q "not completed" +:+ "," +:+ q "url" +:+ ":"
  +:+ q "//img.example/abc.jpg" +:+ "}".

(** [{"token":"%","status":"not completed"}] *)
Definition body_bad_token : string :=
  "{" +:+ q "token" +:+ ":" +:+ q "%" +:+ "," +:+ q "status" +:+ ":"
  +:+ q "not completed" +:+ "}".

Definition decoded_not_completed : apiResponse.t :=
  {| apiResponse.Categories := []; apiResponse.Error := None;
     apiResponse.Name := ""; apiResponse.Reason := "";
     apiResponse.Status := "not completed"; apiResponse.TTL := 0%float;
     apiResponse.Token := "abc"; apiResponse.URL := "" |}.

Definition decoded_completed : apiResponse.t :=
  {| apiResponse.Categories := ["cat"; "animal"]; apiResponse.Error := None;
     apiResponse.Name := "a cat"; apiResponse.Reason := "";
     apiResponse.Status := "completed"; apiResponse.TTL := 0%float;
     apiResponse.Token := ""; apiResponse.URL := "" |}.

Definition decoded_error : apiResponse.t :=
  {| apiResponse.Categories := []; apiResponse.Error := Some (q "bad token");
     apiResponse.Name := ""; apiResponse.Reason := "";
     apiResponse.Status := ""; apiResponse.TTL := 0%float;
     apiResponse.Token := ""; apiResponse.URL := "" |}.

Definition decoded_queued : apiResponse.t :=
  {| apiResponse.Categories := []; apiResponse.Error := None;
     apiResponse.Name := ""; apiResponse.Reason := "";
     apiResponse.Status := "queued"; apiResponse.TTL := 0%float;
     apiResponse.Token := "abc"; apiResponse.URL := "" |}.

Definition decoded_relative : apiResponse.t :=
  {| apiResponse.Categories := []; apiResponse.Error := None;
     apiResponse.Name := ""; apiResponse.Reason := "";
     apiResponse.Status := "not completed"; apiResponse.TTL := 0%float;
     apiResponse.Token := "abc";
     apiResponse.URL := "//img.example/abc.jpg" |}.

(** A stand-in for the verdict of [url.Parse] on the urls the package
    makes, an [https] url with a fixed host: it refuses a control byte
    anywhere, and a [%] that is not followed by two hexadecimal digits in
    the path or in the fragment. *)
Definition is_ctl (a : ascii) : bool :=
  (nat_of_ascii a <? 32)%nat || (nat_of_ascii a =? 127)%nat.

Definition is_hex (a : ascii) : bool :=
  let n := nat_of_ascii a in
  ((48 <=? n) && (n <=? 57) || (65 <=? n) && (n <=? 70)
   || (97 <=? n) && (n <=? 102))%nat.

Fixpoint has_ctl (s : string) : bool :=
  match s with
  | EmptyString => false
  | String a rest => is_ctl a || has_ctl rest
  end.

Fixpoint escapes_ok (s : string) : bool :=
  match s with
  | EmptyString => true
  | String a rest =>
    if Ascii.eqb a "%"%char
    then match rest with
         | String h1 (String h2 rest') =>
           is_hex h1 && is_hex h2 && escapes_ok rest'
         | _ => false
         end
    else escapes_ok rest
  end.

(** [strings.Cut s sep] for a separator of one byte. *)
Fixpoint cut (sep : ascii) (s : string) : string * string :=
  match s with
  | EmptyString => (EmptyString, EmptyString)
  | String a rest =>
    if Ascii.eqb a sep then (EmptyString, rest)
    else let (before, after) := cut sep rest in (String a before, after)
  end.

Definition parses (url : string) : bool :=
  let (u, frag) := cut "#"%char url in
  let (path, _) := cut "?"%char u in
  negb (has_ctl url) && escapes_ok path && escapes_ok frag.

Definition decoded_bad_token : apiResponse.t :=
  {| apiResponse.Categories := []; apiResponse.Error := None;
     apiResponse.Name := ""; apiResponse.Reason := "";
     apiResponse.Status := "not completed"; apiResponse.TTL := 0%float;
     apiResponse.Token := "%"; apiResponse.URL := "" |}.

Definition decode (body : string) : string + apiResponse.t :=
  if decide (body = body_not_completed) then inr decoded_not_completed
  else if decide (body = body_completed) then inr decoded_completed
  else if decide (body = body_error) then inr decoded_error
  else if decide (body = body_queued) then inr decoded_queued
  else if decide (body = body_relative) then inr decoded_relative
  else if decide (body = body_bad_token) then inr decoded_bad_token
  else inl "unexpected end of JSON input".

#[export] Instance platform : Platform :=
  {| ToUpper := fun s => s;
     QueryEscape := fun s => s;
     Encode := fun _ => "";
     Sum256 := fun bs => bs;
     EncodeToString := fun _ => "00";
     hmac_sha1 := fun _ _ => [];
     base64_EncodeToString := fun _ => "";
     jsonDecode := decode;
     multipartLen := fun _ image _ => Z.of_nat (length image);
     FormDataContentType := "multipart/form-data";
     url_parses := parses |}.

(** A service that answers every request with one status code and body,
    a millisecond between platform calls, a random source that works. *)
Definition answering (code : Z) (body : string) : Env :=
  {| delay := fun _ => 1000000%N;
     transport := fun _ _ => inr {| StatusCode := code; RespBody := body |};
     entropy := fun _ => inr [] |}.

(** The service of the repost example: the repost is accepted, and a
    poll would be told "not completed". *)
Definition reposting : Env :=
  {| delay := fun _ => 1000000%N;
     transport := fun _ req =>
       if decide (Method req = "POST")
       then inr {| StatusCode := 200; RespBody := "" |}
       else inr {| StatusCode := 200; RespBody := body_not_completed |};
     entropy := fun _ => inr [] |}.

(** A world at clock reading [t] with the maps [h] in the store. *)
Definition world (E : Env) (t : Z) (h : gmap loc (gmap string string))
  : World :=
  {| env := E; now := t; calls := 0; heap := h; log := [] |}.

(** The same at clock reading 0 with an empty store, and with one map
    of the caller at address 1. *)
Definition start (E : Env) : World := world E 0 ∅.

Definition holding (E : Env) (m : gmap string string) : World :=
  world E 0 {[ 1%positive := m ]}.

Definition simple : Client := {| key := "api-key"; secret := "" |}.
Definition signed : Client := {| key := "api-key"; secret := "api-secret" |}.

(** A job made at clock reading 0 with token ["abc"]. *)
Definition job (status : JobStatus) : Job.t :=
  {| Job.Categories := []; Job.Name := ""; Job.Status := status;
     Job.TTL := 0%float; Job.Token := "abc"; Job.URL := "";
     Job.SkipReason := ""; Job.createdAt := 0; Job.mu := Some Unlocked |}.

(** The same with the token ["%"], which no url takes. *)
Definition stray (status : JobStatus) : Job.t :=
  {| Job.Categories := []; Job.Name := ""; Job.Status := status;
     Job.TTL := 0%float; Job.Token := "%"; Job.URL := "";
     Job.SkipReason := ""; Job.createdAt := 0; Job.mu := Some Unlocked |}.

Definition get : Request :=
  {| Method := "GET"; ReqURL := responsesURL +:+ "abc"; Header := ∅;
     ReqBody := NoBody |}.

Definition post : Request :=
  {| Method := "POST"; ReqURL := requestsURL; Header := ∅;
     ReqBody := NoBody |}.

(** A reader that fails. *)
Definition closed_file : Reader :=
  {| rd_data := []; rd_err := Some "invalid argument" |}.

Definition jpeg : Reader :=
  {| rd_data := ["255"; "216"; "255"]%byte; rd_err := None |}.

(** A network that is down. *)
Definition offline : Env :=
  {| delay := fun _ => 1000000%N;
     transport := fun _ _ => inl "dial tcp: connection refused";
     entropy := fun _ => inr [] |}.

(** A random source that fails. *)
Definition no_entropy : Env :=
  {| delay := fun _ => 1000000%N;
     transport := fun _ _ =>
       inr {| StatusCode := 200; RespBody := body_not_completed |};
     entropy := fun _ => inl "unexpected EOF" |}.

(** A map of the caller that holds a language. *)
Definition polish : gmap string string :=
  {[ "image_request[language]" := "pl" ]}.

End Demo.

(** Stand-ins for the float renderings, for closed examples. *)
Module DemoFmt.

#[export] Instance fmt : FloatFmt :=
  {| Sprint_float := fun x => if PrimFloat.eqb x 50 then "50"
                              else if PrimFloat.eqb x 19 then "19"
                              else if PrimFloat.eqb x 0.5 then "0.5"
                              else "?";
     Sprintf_f := fun x => if PrimFloat.eqb x 200 then "200.000000"
                           else if PrimFloat.eqb x 2 then "2.000000"
                           else if PrimFloat.eqb x 0.5 then "0.500000"
                           else "?" |}.

End DemoFmt.

(** * Properties *)

Lemma set_mu_unlock (j : Job.t) :
  Job.mu j = Some Unlocked ->
  set_mu (Some Unlocked) (set_mu (Some Locked) j) = j.
Proof. destruct j; simpl; intros ->; reflexivity. Qed.

Lemma set_mu_Status m j : Job.Status (set_mu m j) = Job.Status j.
Proof. reflexivity. Qed.

Section Properties.
Context {P : Platform}.

(** The cases of an answer of the transport: a transport error, a body
    that does not decode, a payload with its error field set, a payload
    without. *)
Ltac case_answer res :=
  let msg := fresh "msg" in
  let resp := fresh "resp" in
  let r := fresh "r" in
  destruct res as [msg | resp];
  [| destruct (jsonDecode (RespBody resp)) as [msg | r];
     [| destruct (apiResponse.Error r)]].

(** ** How the platform calls move the world *)

Lemma steps_refl (w : World) : steps_to w w [].
Proof. unfold steps_to. rewrite app_nil_r. repeat split; [lia | constructor]. Qed.

Lemma in_span_widen (w0 w w' w1 : World) (e : Event) :
  now w0 <= now w -> now w' <= now w1 -> in_span w w' e -> in_span w0 w1 e.
Proof. unfold in_span. destruct (ev_at e); [lia | done]. Qed.

Lemma steps_trans (w w1 w2 : World) (e1 e2 : list Event) :
  steps_to w w1 e1 -> steps_to w1 w2 e2 -> steps_to w w2 (e1 ++ e2).
Proof.
  intros (He1 & Hn1 & Hl1 & Hf1) (He2 & Hn2 & Hl2 & Hf2).
  repeat split.
  - congruence.
  - lia.
  - rewrite Hl2, Hl1. by rewrite app_assoc.
  - apply Forall_app. split.
    + eapply Forall_impl; [exact Hf1 |]. intros e.
      apply in_span_widen; lia.
    + eapply Forall_impl; [exact Hf2 |]. intros e.
      apply in_span_widen; lia.
Qed.

Lemma steps_quiet (w w' : World) :
  env w' = env w -> now w <= now w' -> log w' = log w -> steps_to w w' [].
Proof.
  intros. unfold steps_to. rewrite app_nil_r. repeat split; [done .. |].
  constructor.
Qed.

Lemma tick_now (w : World) : now w <= now (tick w).
Proof. simpl. lia. Qed.

Lemma time_Now_steps (w w' : World) (t : Z) :
  time_Now w = (t, w') -> steps_to w w' [] /\ t = now w'.
Proof.
  intros [= <- <-]. split; [| done].
  apply steps_quiet; [done | apply tick_now | done].
Qed.

Lemma time_Sleep_steps (d : Z) (w w' : World) (u : unit) :
  time_Sleep d w = (u, w') ->
  exists t, steps_to w w' [EvSleep t d] /\ t + Z.max 0 d = now w'.
Proof.
  destruct u. intros [= <-]. exists (now (tick w)). split; [| done].
  repeat split; simpl; [lia |].
  constructor; [| constructor]. unfold in_span. simpl. lia.
Qed.

Lemma rand_Read_steps (n : nat) (w w' : World) (r : error + list byte) :
  rand_Read n w = (r, w') ->
  steps_to w w' [] /\ (forall err, r = inl err -> exists msg, err = Foreign msg).
Proof.
  intros [= <- <-]. split.
  - apply steps_quiet; [done | apply tick_now | done].
  - intros err. destruct (entropy _ _); [| done]. intros [= <-]. eauto.
Qed.

Lemma http_Do_steps (req : Request) (w w' : World) (r : error + Response) :
  http_Do req w = (r, w') ->
  exists res, steps_to w w' [EvDo (now w') req res]
              /\ res = transport (env w) (calls w) req
              /\ r = match res with
                     | inl msg => inl (Foreign msg)
                     | inr resp => inr resp
                     end.
Proof.
  intros [= <- <-]. eexists. split; [| split; reflexivity].
  repeat split; simpl; [lia |].
  constructor; [| constructor]. unfold in_span. simpl. lia.
Qed.

Lemma fmt_Println_steps (line : string) (w w' : World) (u : unit) :
  fmt_Println line w = (u, w') -> steps_to w w' [EvPrint line].
Proof.
  destruct u. intros [= <-]. repeat split; simpl; [lia |].
  constructor; [| constructor]. exact I.
Qed.

Lemma oauthSign_steps (method url key secret : string) (params : Params)
    (w w' : World) (r : error + string) :
  oauthSign method url key secret params w = (r, w') ->
  steps_to w w' [] /\ (forall err, r = inl err -> exists msg, err = Foreign msg).
Proof.
  unfold oauthSign, bind, or_new, rand_Read.
  destruct params as [l |]; simpl;
    (destruct (entropy (env w) (calls w)) as [msg | bs];
     intros [= <- <-];
     (split; [apply steps_quiet; simpl; (done || lia) |]);
     intros err [= <-]; eauto).
Qed.

Lemma getAuthHeader_steps (c : Client) (method url : string) (params : Params)
    (w w' : World) (r : error + string) :
  getAuthHeader c method url params w = (r, w') ->
  steps_to w w' [] /\ (forall err, r = inl err -> exists msg, err = Foreign msg).
Proof.
  unfold getAuthHeader. destruct (decide (secret c = "")).
  - intros [= <- <-]. split; [apply steps_refl | discriminate].
  - apply oauthSign_steps.
Qed.

(** [updateJobFromRequest] sends the request and returns what
    [poll_result] makes of the answer. *)
Lemma updateJobFromRequest_eq (job : Job.t) (req : Request) (w : World) :
  updateJobFromRequest job req w
  = (poll_result job (transport (env w) (calls w) req), snd (http_Do req w)).
Proof.
  unfold updateJobFromRequest, bind, http_Do, poll_result. simpl.
  destruct (transport (env w) (calls w) req) as [msg | resp]; [done |].
  destruct (jsonDecode (RespBody resp)) as [msg | r]; [done |].
  by destruct (apiResponse.Error r).
Qed.

Lemma poll_result_frame (job : Job.t) (res : string + Response) :
  let job' := snd (poll_result job res) in
  Job.Token job' = Job.Token job /\ Job.URL job' = Job.URL job
  /\ Job.createdAt job' = Job.createdAt job /\ Job.mu job' = Job.mu job.
Proof. unfold poll_result. by case_answer res. Qed.

Lemma poll_result_error (job : Job.t) (res : string + Response) (err : error) :
  fst (poll_result job res) = Some err ->
  snd (poll_result job res) = job /\ exists msg, err = Errorf msg.
Proof.
  unfold poll_result.
  case_answer res; try discriminate; intros [= <-]; eauto.
Qed.

Lemma poll_result_set_mu (m : option Mutex) (job : Job.t)
    (res : string + Response) :
  poll_result (set_mu m job) res
  = (fst (poll_result job res), set_mu m (snd (poll_result job res))).
Proof. unfold poll_result. by case_answer res. Qed.

Lemma set_mu_same (j : Job.t) : set_mu (Job.mu j) j = j.
Proof. by destruct j. Qed.

Lemma set_mu_set_mu (m1 m2 : option Mutex) (j : Job.t) :
  set_mu m1 (set_mu m2 j) = set_mu m1 j.
Proof. done. Qed.

Lemma NewRequest_built (method url : string) (body : Body) :
  url_parses url = true ->
  NewRequest method url body
  = Some {| Method := method; ReqURL := url; Header := ∅; ReqBody := body |}.
Proof. unfold NewRequest. by intros ->. Qed.

Lemma NewRequest_nil (method url : string) (body : Body) :
  url_parses url = false -> NewRequest method url body = None.
Proof. unfold NewRequest. by intros ->. Qed.

(** [UpdateJob] with the guard free, case by case: the status test, the
    request that is or is not built, the header, the poll. *)
Lemma UpdateJob_eq (c : Client) (job : Job.t) (w : World) :
  Job.mu job = Some Unlocked ->
  UpdateJob c job w
  = if decide (Job.Status job ≠ StatusNotCompleted) then Returns (None, job) w
    else if url_parses (responsesURL +:+ Job.Token job)
    then let (auth, w1) := getAuthHeader c "GET"
                             (responsesURL +:+ Job.Token job) None w in
         match auth with
         | inl err => Returns (Some err, job) w1
         | inr auth =>
           Returns (poll_result job (transport (env w1) (calls w1)
                                       (poll_request job auth)))
                   (snd (http_Do (poll_request job auth) w1))
         end
    else Panics w.
Proof.
  intros Hmu. unfold UpdateJob. rewrite Hmu. unfold UpdateJob_locked.
  rewrite set_mu_Status.
  destruct (decide (Job.Status job ≠ StatusNotCompleted)).
  { by rewrite set_mu_unlock. }
  unfold NewRequest. simpl Job.Token.
  destruct (url_parses (responsesURL +:+ Job.Token job)); [| done].
  destruct (getAuthHeader c "GET" _ None w) as [[err | auth] w1].
  { by rewrite set_mu_unlock. }
  change (set_header "Authorization" [auth] _) with (poll_request job auth).
  rewrite updateJobFromRequest_eq, poll_result_set_mu. cbn [fst snd].
  rewrite set_mu_set_mu.
  destruct (poll_result_frame job (transport (env w1) (calls w1)
                                     (poll_request job auth)))
    as (_ & _ & _ & Hm).
  rewrite <- Hmu, <- Hm, set_mu_same.
  by destruct (poll_result job _).
Qed.

(** [UpdateJob] on a job in flight whose url does not parse. *)
Lemma UpdateJob_nil_request (c : Client) (job : Job.t) (w : World) :
  Job.mu job = Some Unlocked ->
  Job.Status job = StatusNotCompleted ->
  url_parses (responsesURL +:+ Job.Token job) = false ->
  UpdateJob c job w = Panics w.
Proof.
  intros Hmu Hst Hurl. rewrite (UpdateJob_eq c job w Hmu), Hurl.
  by rewrite decide_False by (by intros []).
Qed.

(** Whatever [UpdateJob] does without returning, the world is as it was. *)
Lemma UpdateJob_no_return (c : Client) (job : Job.t) (w : World) :
  (forall r w', UpdateJob c job w ≠ Returns r w') ->
  world_of (UpdateJob c job w) = w.
Proof.
  intros Hno. destruct (Job.mu job) as [[|] |] eqn:Hmu.
  - revert Hno. rewrite (UpdateJob_eq c job w Hmu).
    destruct (decide _); [intros H; by destruct (H _ _ eq_refl) |].
    destruct (url_parses _); [| done].
    destruct (getAuthHeader c "GET" _ None w) as [[err | auth] w1];
      intros H; by destruct (H _ _ eq_refl).
  - unfold UpdateJob. by rewrite Hmu.
  - unfold UpdateJob. by rewrite Hmu.
Qed.

(** The ways [UpdateJob] returns: the job had left "not completed" and
    nothing happened; or signing failed and nothing was sent; or one
    request was sent and [poll_result] gives the error and the job. *)
Lemma UpdateJob_Returns (c : Client) (job job' : Job.t) (w w' : World)
    (e : option error) :
  UpdateJob c job w = Returns (e, job') w' ->
  Job.mu job = Some Unlocked /\
  ((Job.Status job ≠ StatusNotCompleted /\ e = None /\ job' = job /\ w' = w)
   \/ (Job.Status job = StatusNotCompleted /\ (exists msg, e = Some (Foreign msg))
       /\ job' = job /\ steps_to w w' []
       /\ exists err,
           fst (getAuthHeader c "GET" (responsesURL +:+ Job.Token job) None w)
           = inl err)
   \/ (Job.Status job = StatusNotCompleted /\
       exists auth res,
         steps_to w w' [EvDo (now w') (poll_request job auth) res]
         /\ (e, job') = poll_result job res)).
Proof.
  destruct (Job.mu job) as [[|] |] eqn:Hmu;
    [| unfold UpdateJob; by rewrite Hmu ..].
  rewrite (UpdateJob_eq c job w Hmu). intros H. split; [done |]. revert H.
  destruct (decide (Job.Status job ≠ StatusNotCompleted)) as [Hst | Hst].
  - intros [= <- <- <-]. by left.
  - apply dec_stable in Hst. right. revert H.
    destruct (url_parses _); [| done].
    destruct (getAuthHeader c "GET" _ None w) as [[err | auth] w1] eqn:Hauth;
      apply getAuthHeader_steps in Hauth as [Hsteps Herr].
    + intros [= <- <- <-]. left. destruct (Herr err eq_refl) as [msg ->].
      eauto 10.
    + destruct (http_Do _ w1) as [r w2] eqn:Hdo. simpl.
      intros H. right. split; [done |].
      apply http_Do_steps in Hdo as (res & Hdo & -> & _).
      exists auth. eexists. split.
      * injection H as _ <-. exact (steps_trans _ _ _ [] _ Hsteps Hdo).
      * by injection H as <- _.
Qed.

(** ** Polling a job that has left "not completed" *)

(** With the guard free, the job comes back as it was. *)
Lemma UpdateJob_left_flight (c : Client) (job : Job.t) (w : World) :
  Job.mu job = Some Unlocked ->
  Job.Status job ≠ StatusNotCompleted ->
  UpdateJob c job w = Returns (None, job) w.
Proof.
  intros Hmu Hst. unfold UpdateJob. rewrite Hmu.
  unfold UpdateJob_locked. rewrite set_mu_Status.
  rewrite decide_True by exact Hst. unfold ret.
  by rewrite set_mu_unlock.
Qed.

(** Whatever the guard, the world is left as it was. *)
Lemma UpdateJob_left_flight_world (c : Client) (job : Job.t) (w : World) :
  Job.Status job ≠ StatusNotCompleted ->
  world_of (UpdateJob c job w) = w.
Proof.
  intros Hst. destruct (Job.mu job) as [[|] |] eqn:Hmu.
  - by rewrite UpdateJob_left_flight.
  - unfold UpdateJob. by rewrite Hmu.
  - unfold UpdateJob. by rewrite Hmu.
Qed.

(** C1. For a job whose status is not "not completed", [UpdateJob] leaves
    the world as it was: no request is sent, no clock is read, nothing is
    logged.  When the job's guard is free, as it is for every job the
    package hands out, the call returns nil and the job as it was. *)
Theorem UpdateJob_terminal_noop (c : Client) (job : Job.t) (w : World) :
  Job.Status job ≠ StatusNotCompleted ->
  world_of (UpdateJob c job w) = w
  /\ (Job.mu job = Some Unlocked ->
      UpdateJob c job w = Returns (None, job) w).
Proof.
  intros Hst. split.
  - by apply UpdateJob_left_flight_world.
  - intros Hmu. by apply UpdateJob_left_flight.
Qed.

(** ** Repost on a job that has not timed out *)

Lemma RepostJob_wrong_status (c : Client) (job : Job.t) (w : World) :
  Job.Status job ≠ StatusTimeout ->
  RepostJob c job w = Returns (Some ErrInvalidRepostStatus, job) w.
Proof. intros H. unfold RepostJob. by rewrite decide_True. Qed.

(** C4. For each of the four statuses other than "timeout", [RepostJob]
    returns [ErrInvalidRepostStatus] with the job and the world as they
    were: nothing is sent. *)
Theorem RepostJob_rejects_non_timeout (c : Client) (job : Job.t) (w : World) :
  Job.Status job ∈ [StatusNotCompleted; StatusCompleted; StatusNotFound;
                    StatusSkipped] ->
  RepostJob c job w = Returns (Some ErrInvalidRepostStatus, job) w.
Proof.
  intros Hin. apply RepostJob_wrong_status. intros Heq.
  rewrite Heq in Hin.
  repeat (apply elem_of_cons in Hin as [Hin | Hin]; [discriminate Hin |]).
  by apply elem_of_nil in Hin.
Qed.

(** ** A poll answered with an error payload *)

(** C6. A poll whose answer decodes to a payload with its error field
    set.  [updateJobFromRequest] returns, for every request, the error
    "api error: <payload>, status code: <code>" and the job as it was; so
    does [UpdateJob], on a job "not completed" whose guard is free, when
    the request was built (the url of the poll parses) and the header was
    made: the job comes back as it was, still "not completed".  Whenever
    [UpdateJob] returns an error the job is as it was; when it returns nil
    the job keeps its Token, URL, creation time and guard, and its
    Categories, Name, Status, TTL and SkipReason are those [poll_result]
    takes from the answer. *)
Theorem UpdateJob_error_payload :
  (forall (job : Job.t) (req : Request) (w : World) (resp : Response)
          (r : apiResponse.t) (raw : string),
      transport (env w) (calls w) req = inr resp ->
      jsonDecode (RespBody resp) = inr r ->
      apiResponse.Error r = Some raw ->
      updateJobFromRequest job req w
      = (Some (Errorf ("api error: " +:+ raw +:+ ", status code: "
                       +:+ pretty (StatusCode resp))), job,
         snd (http_Do req w)))
  /\ (forall (c : Client) (job : Job.t) (w w1 : World) (auth : string)
             (resp : Response) (r : apiResponse.t) (raw : string),
        Job.mu job = Some Unlocked ->
        Job.Status job = StatusNotCompleted ->
        url_parses (responsesURL +:+ Job.Token job) = true ->
        getAuthHeader c "GET" (responsesURL +:+ Job.Token job) None w
          = (inr auth, w1) ->
        transport (env w1) (calls w1) (poll_request job auth) = inr resp ->
        jsonDecode (RespBody resp) = inr r ->
        apiResponse.Error r = Some raw ->
        UpdateJob c job w
        = Returns (Some (Errorf ("api error: " +:+ raw +:+ ", status code: "
                                 +:+ pretty (StatusCode resp))), job)
                  (snd (http_Do (poll_request job auth) w1)))
  /\ (forall (c : Client) (job job' : Job.t) (w w' : World) (err : error),
        UpdateJob c job w = Returns (Some err, job') w' -> job' = job)
  /\ (forall (c : Client) (job job' : Job.t) (w w' : World),
        UpdateJob c job w = Returns (None, job') w' ->
        Job.Token job' = Job.Token job /\ Job.URL job' = Job.URL job
        /\ Job.createdAt job' = Job.createdAt job
        /\ Job.mu job' = Job.mu job
        /\ (job' = job \/
            exists (auth : string) (resp : Response) (r : apiResponse.t),
              log w' = log w ++ [EvDo (now w') (poll_request job auth)
                                      (inr resp)]
              /\ jsonDecode (RespBody resp) = inr r
              /\ apiResponse.Error r = None
              /\ job' = {| Job.Categories := apiResponse.Categories r;
                           Job.Name := apiResponse.Name r;
                           Job.Status := apiResponse.Status r;
                           Job.TTL := apiResponse.TTL r;
                           Job.Token := Job.Token job;
                           Job.URL := Job.URL job;
                           Job.SkipReason := apiResponse.Reason r;
                           Job.createdAt := Job.createdAt job;
                           Job.mu := Job.mu job |})).
Proof.
  split; [| split; [| split]].
  - intros job req w resp r raw Htr Hdec Herr.
    rewrite updateJobFromRequest_eq, Htr. unfold poll_result.
    by rewrite Hdec, Herr.
  - intros c job w w1 auth resp r raw Hmu Hst Hurl Hauth Htr Hdec Herr.
    rewrite (UpdateJob_eq c job w Hmu), Hurl, Hauth, Htr.
    rewrite decide_False by (by intros []).
    unfold poll_result. by rewrite Hdec, Herr.
  - intros c job job' w w' err H.
    apply UpdateJob_Returns in H as [_ [(_ & _ & -> & _) | [(_ & _ & -> & _) |
      (_ & auth & res & _ & Hres)]]]; [done | done |].
    destruct (poll_result_error job res err) as [Hj _].
    + by rewrite <- Hres.
    + by rewrite <- Hres in Hj.
  - intros c job job' w w' H.
    apply UpdateJob_Returns in H as [_ [(_ & _ & -> & _) |
      [(_ & [msg Hmsg] & _) | (_ & auth & res & Hsteps & Hres)]]];
      [by repeat split; try left | discriminate Hmsg |].
    pose proof (poll_result_frame job res) as Hframe.
    rewrite <- Hres in Hframe. simpl in Hframe.
    destruct Hframe as (? & ? & ? & ?). repeat split; [done .. |].
    right. destruct Hsteps as (_ & _ & Hlog & _).
    revert Hres. unfold poll_result. destruct res as [msg | resp]; [done |].
    destruct (jsonDecode (RespBody resp)) as [msg | r] eqn:Hdec; [done |].
    destruct (apiResponse.Error r) eqn:Herr; [done |].
    intros [= ->]. by exists auth, resp, r.
Qed.

(** ** The job a submission returns *)

Lemma normalize_url_relative (rest : string) :
  normalize_url ("//" +:+ rest) = "https://" +:+ rest.
Proof. unfold normalize_url, HasPrefix. by destruct rest. Qed.

Lemma normalize_url_other (u : string) :
  HasPrefix u "//" = false -> normalize_url u = u.
Proof. unfold normalize_url. by intros ->. Qed.

(** The answer behind a job that [doImageRequest] returns. *)
Lemma doImageRequest_ok (c : Client) (req : Request) (w w' : World)
    (job : Job.t) :
  doImageRequest c req w = (inr job, w') ->
  exists (resp : Response) (r : apiResponse.t),
    transport (env w) (calls w) req = inr resp
    /\ jsonDecode (RespBody resp) = inr r
    /\ apiResponse.Error r = None
    /\ job = {| Job.Categories := []; Job.Name := "";
                Job.Status := apiResponse.Status r;
                Job.TTL := apiResponse.TTL r;
                Job.Token := apiResponse.Token r;
                Job.URL := normalize_url (apiResponse.URL r);
                Job.SkipReason := "";
                Job.createdAt := now w';
                Job.mu := Some Unlocked |}.
Proof.
  unfold doImageRequest, bind, http_Do. simpl.
  destruct (transport (env w) (calls w) req) as [msg | resp]; [done |].
  destruct (jsonDecode (RespBody resp)) as [msg | r] eqn:Hdec; [done |].
  destruct (apiResponse.Error r) eqn:Herr; [done |].
  destruct (decide (StatusCode resp ≠ StatusOK)); intros [= <- <-];
    by exists resp, r.
Qed.

(** An answer that decodes to a payload without error gives a job. *)
Lemma doImageRequest_answer (c : Client) (req : Request) (w : World)
    (resp : Response) (r : apiResponse.t) :
  transport (env w) (calls w) req = inr resp ->
  jsonDecode (RespBody resp) = inr r ->
  apiResponse.Error r = None ->
  exists (job : Job.t) (w' : World),
    doImageRequest c req w = (inr job, w')
    /\ Job.Status job = apiResponse.Status r
    /\ Job.URL job = normalize_url (apiResponse.URL r).
Proof.
  intros Htr Hdec Herr. unfold doImageRequest, bind, http_Do. simpl.
  rewrite Htr, Hdec, Herr.
  destruct (decide (StatusCode resp ≠ StatusOK)); by eexists _, _.
Qed.

Lemma ImageRequest_via (c : Client) (image : Reader) (filename : string)
    (params : Params) (w w' : World) (job : Job.t) :
  ImageRequest c image filename params w = (inr job, w') ->
  exists req w1, doImageRequest c req w1 = (inr job, w').
Proof.
  unfold ImageRequest. destruct (rd_err image); [done |].
  unfold bind.
  destruct (or_new params w) as [p w1].
  destruct (default_locale p w1) as [u w2].
  destruct (load p w2) as [fields w3].
  destruct (getAuthHeader c "POST" requestsURL (Some p) w3) as [[err | auth] w4];
    [done |].
  eauto.
Qed.

Lemma RemoteImageRequest_via (c : Client) (url : string) (params : Params)
    (w w' : World) (job : Job.t) :
  RemoteImageRequest c url params w = (inr job, w') ->
  exists req w1, doImageRequest c req w1 = (inr job, w').
Proof.
  unfold RemoteImageRequest, bind.
  destruct (or_new params w) as [p w1].
  destruct (default_locale p w1) as [u w2].
  destruct (store p _ url w2) as [u' w3].
  destruct (load p w3) as [m w4].
  destruct (getAuthHeader c "POST" requestsURL (Some p) w4) as [[err | auth] w5];
    [done |].
  destruct (fmt_Println _ w5) as [u'' w6].
  eauto.
Qed.

(** C8. When the answer to a submission decodes to a payload without
    error, [doImageRequest] returns a job; if the payload's url is
    ["//" ++ rest] the job's URL is ["https://" ++ rest], and if the url does
    not start with ["//"] the job's URL is the url itself.  Every job that
    [ImageRequest] or [RemoteImageRequest] returns is one that
    [doImageRequest] returned. *)
Theorem submission_url_normalized :
  (forall (c : Client) (req : Request) (w : World) (resp : Response)
          (r : apiResponse.t),
      transport (env w) (calls w) req = inr resp ->
      jsonDecode (RespBody resp) = inr r ->
      apiResponse.Error r = None ->
      exists (job : Job.t) (w' : World),
        doImageRequest c req w = (inr job, w')
        /\ (forall rest, apiResponse.URL r = "//" +:+ rest ->
                         Job.URL job = "https://" +:+ rest)
        /\ (HasPrefix (apiResponse.URL r) "//" = false ->
            Job.URL job = apiResponse.URL r))
  /\ (forall (c : Client) (image : Reader) (filename : string)
             (params : Params) (w w' : World) (job : Job.t),
        ImageRequest c image filename params w = (inr job, w') ->
        exists req w1, doImageRequest c req w1 = (inr job, w'))
  /\ (forall (c : Client) (url : string) (params : Params) (w w' : World)
             (job : Job.t),
        RemoteImageRequest c url params w = (inr job, w') ->
        exists req w1, doImageRequest c req w1 = (inr job, w')).
Proof.
  split; [| split].
  - intros c req w resp r Htr Hdec Herr.
    destruct (doImageRequest_answer c req w resp r Htr Hdec Herr)
      as (job & w' & Heq & _ & Hurl).
    exists job, w'. split; [exact Heq |]. rewrite Hurl. split.
    + intros rest ->. apply normalize_url_relative.
    + apply normalize_url_other.
  - apply ImageRequest_via.
  - apply RemoteImageRequest_via.
Qed.

(** ** The status a response leaves in the job *)

(** C9, as the code has it.  The status of a job that a submission
    returns, and of a job that a poll has refreshed, is the status string
    of the decoded payload, taken as it is; so it is one of the five
    declared values exactly when the payload's string is. *)
Theorem status_is_payload_status :
  (forall (c : Client) (req : Request) (w w' : World) (job : Job.t),
      doImageRequest c req w = (inr job, w') ->
      exists (resp : Response) (r : apiResponse.t),
        transport (env w) (calls w) req = inr resp
        /\ jsonDecode (RespBody resp) = inr r
        /\ Job.Status job = apiResponse.Status r
        /\ (Job.Status job ∈ declared_statuses
            <-> apiResponse.Status r ∈ declared_statuses))
  /\ (forall (job job' : Job.t) (req : Request) (w w' : World),
        updateJobFromRequest job req w = (None, job', w') ->
        exists (resp : Response) (r : apiResponse.t),
          transport (env w) (calls w) req = inr resp
          /\ jsonDecode (RespBody resp) = inr r
          /\ Job.Status job' = apiResponse.Status r
          /\ (Job.Status job' ∈ declared_statuses
              <-> apiResponse.Status r ∈ declared_statuses)).
Proof.
  split.
  - intros c req w w' job H.
    apply doImageRequest_ok in H as (resp & r & Htr & Hdec & _ & ->).
    by exists resp, r.
  - intros job job' req w w'. rewrite updateJobFromRequest_eq.
    unfold poll_result.
    destruct (transport (env w) (calls w) req) as [msg | resp]; [done |].
    destruct (jsonDecode (RespBody resp)) as [msg | r] eqn:Hdec; [done |].
    destruct (apiResponse.Error r); [done |].
    intros [= <- _]. by exists resp, r.
Qed.

(** ** Repost of a job that has timed out *)

(** [RepostJob] case by case: the status test, the request that is or is
    not built, the header, the repost. *)
Lemma RepostJob_eq (c : Client) (job : Job.t) (w : World) :
  RepostJob c job w
  = if decide (Job.Status job ≠ StatusTimeout)
    then Returns (Some ErrInvalidRepostStatus, job) w
    else if url_parses (requestsURL +:+ "/" +:+ Job.Token job +:+ "/repost")
    then let (auth, w1) :=
           getAuthHeader c "POST"
             (requestsURL +:+ "/" +:+ Job.Token job +:+ "/repost") None w in
         match auth with
         | inl err => Returns (Some err, job) w1
         | inr auth =>
           let (r, w2) := http_Do (repost_request job auth) w1 in
           match r with
           | inl err =>
             Returns (Some (Errorf ("HTTP error: " +:+ Error_string err)), job)
                     w2
           | inr resp =>
             if decide (StatusCode resp ≠ StatusOK)
             then Returns (Some (Errorf ("error reposting job: "
                                         +:+ RespBody resp +:+ ", status: "
                                         +:+ pretty (StatusCode resp))), job)
                          w2
             else UpdateJob c job w2
           end
         end
    else Panics w.
Proof.
  unfold RepostJob, NewRequest.
  destruct (decide (Job.Status job ≠ StatusTimeout)); [done |].
  by destruct (url_parses _).
Qed.

(** When the repost is accepted, [RepostJob] ends in [UpdateJob] on a job
    whose status is still "timeout": nothing more is sent and the job
    comes back as it was. *)
Lemma RepostJob_accepted (c : Client) (job : Job.t) (w w1 : World)
    (auth : string) (resp : Response) :
  Job.mu job = Some Unlocked ->
  Job.Status job = StatusTimeout ->
  url_parses (requestsURL +:+ "/" +:+ Job.Token job +:+ "/repost") = true ->
  getAuthHeader c "POST"
    (requestsURL +:+ "/" +:+ Job.Token job +:+ "/repost") None w
    = (inr auth, w1) ->
  transport (env w1) (calls w1) (repost_request job auth) = inr resp ->
  StatusCode resp = StatusOK ->
  RepostJob c job w
  = Returns (None, job) (snd (http_Do (repost_request job auth) w1)).
Proof.
  intros Hmu Hst Hurl Hauth Htr Hcode. rewrite RepostJob_eq, Hurl.
  rewrite decide_False by (by intros []). rewrite Hauth.
  unfold http_Do at 1. simpl. rewrite Htr.
  rewrite decide_False by (by intros []).
  apply UpdateJob_left_flight; [done |]. by rewrite Hst.
Qed.

(** ** What signing writes into the caller's map *)

Lemma or_new_Some (l : loc) (w : World) : or_new (Some l) w = (l, w).
Proof. reflexivity. Qed.

Lemma map_of_Some (w : World) (l : loc) (m : gmap string string) :
  heap w !! l = Some m -> map_of w l = m.
Proof. unfold map_of. by intros ->. Qed.

(** The world after a successful [oauthSign] on a map of the caller. *)
Lemma oauthSign_world (method url key secret : string) (l : loc)
    (w w' : World) (hdr : string) :
  oauthSign method url key secret (Some l) w = (inr hdr, w') ->
  exists (nonceBuf : list byte) (t : Z),
    heap w' =
      <[l := <["oauth_version" := oauthVersion]>
             (<["oauth_timestamp" := pretty (Unix t)]>
             (<["oauth_signature_method" := oauthSignatureMethod]>
             (<["oauth_consumer_key" := key]>
             (<["oauth_nonce" := EncodeToString (Sum256 nonceBuf)]>
                (map_of w l)))))]> (heap w)
    /\ now w <= t <= now w'.
Proof.
  unfold oauthSign, bind. rewrite or_new_Some.
  unfold rand_Read. simpl.
  destruct (entropy (env w) (calls w)) as [msg | bs]; [discriminate |].
  intros [= <- <-]. eexists _, _. split.
  - simpl. unfold map_of. simpl. rewrite !lookup_insert_eq. simpl.
    rewrite !insert_insert_eq. reflexivity.
  - simpl. lia.
Qed.

Lemma not_oauth_key (k : string) :
  k ∉ oauth_keys ->
  "oauth_nonce" ≠ k /\ "oauth_consumer_key" ≠ k /\
  "oauth_signature_method" ≠ k /\ "oauth_timestamp" ≠ k /\
  "oauth_version" ≠ k.
Proof.
  unfold oauth_keys. rewrite !not_elem_of_cons. intuition congruence.
Qed.

(** C7. Signing with a map of the caller writes into that very map: after
    a successful [oauthSign] the map at the caller's address holds every
    entry it held under a key other than the five oauth keys, unchanged,
    and the five oauth keys; its keys are the old keys and those five, and
    no other map of the store is touched. *)
Theorem oauthSign_mutates_params (method url key secret : string) (l : loc)
    (m : gmap string string) (w w' : World) (hdr : string) :
  heap w !! l = Some m ->
  oauthSign method url key secret (Some l) w = (inr hdr, w') ->
  exists m' : gmap string string,
    heap w' !! l = Some m'
    /\ (forall k, k ∉ oauth_keys -> m' !! k = m !! k)
    /\ dom m' = dom m ∪ list_to_set oauth_keys
    /\ (exists nonceBuf, m' !! "oauth_nonce"
                          = Some (EncodeToString (Sum256 nonceBuf)))
    /\ m' !! "oauth_consumer_key" = Some key
    /\ m' !! "oauth_signature_method" = Some oauthSignatureMethod
    /\ (exists t, now w <= t <= now w'
                  /\ m' !! "oauth_timestamp" = Some (pretty (Unix t)))
    /\ m' !! "oauth_version" = Some oauthVersion
    /\ (forall l', l' ≠ l -> heap w' !! l' = heap w !! l').
Proof.
  intros Hm Hs. apply oauthSign_world in Hs as (nonceBuf & t & Hheap & Ht).
  rewrite (map_of_Some _ _ _ Hm) in Hheap. rewrite Hheap.
  eexists. split; [apply lookup_insert_eq |].
  split; [| split; [| split; [| split; [| split; [| split; [| split]]]]]].
  - intros k Hk. apply not_oauth_key in Hk as (? & ? & ? & ? & ?).
    by rewrite !lookup_insert_ne.
  - rewrite !dom_insert_L. unfold oauth_keys. apply set_eq. intros x.
    rewrite !elem_of_union, elem_of_list_to_set, !elem_of_cons, elem_of_nil,
      !elem_of_singleton. tauto.
  - exists nonceBuf. by simplify_map_eq.
  - by simplify_map_eq.
  - by simplify_map_eq.
  - exists t. split; [exact Ht |]. by simplify_map_eq.
  - by simplify_map_eq.
  - intros l' Hne. by rewrite lookup_insert_ne.
Qed.

(** ** The default locale *)

Lemma default_locale_eq (l : loc) (w : World) :
  default_locale l w
  = (tt, match map_of w l !! locale_key with
         | Some _ => w
         | None => set_heap (<[l := <[locale_key := DefaultLocale]>
                                       (map_of w l)]> (heap w)) w
         end).
Proof.
  unfold default_locale, bind, load, locale_key.
  by destruct (map_of w l !! "image_request[locale]").
Qed.

Lemma map_of_insert (w : World) (l : loc) (m : gmap string string) :
  map_of (set_heap (<[l := m]> (heap w)) w) l = m.
Proof. unfold map_of. simpl. by rewrite lookup_insert_eq. Qed.

Lemma default_locale_locale (l : loc) (w : World) :
  map_of (snd (default_locale l w)) l !! locale_key
  = Some (default DefaultLocale (map_of w l !! locale_key)).
Proof.
  rewrite default_locale_eq. simpl.
  destruct (map_of w l !! locale_key) eqn:H; simpl; [done |].
  rewrite map_of_insert. apply lookup_insert_eq.
Qed.

Lemma store_map_of (l : loc) (k v : string) (w : World) :
  map_of (snd (store l k v w)) l = <[k := v]> (map_of w l).
Proof. unfold store, map_of. simpl. by rewrite lookup_insert_eq. Qed.

Lemma locale_not_oauth : locale_key ∉ oauth_keys.
Proof.
  unfold oauth_keys, locale_key. rewrite !not_elem_of_cons.
  repeat split; (discriminate || apply not_elem_of_nil).
Qed.

Lemma oauthSign_keeps (method url key secret : string) (l : loc)
    (w w' : World) (r : error + string) (k : string) :
  oauthSign method url key secret (Some l) w = (r, w') ->
  k ∉ oauth_keys ->
  map_of w' l !! k = map_of w l !! k.
Proof.
  intros Hs Hk. destruct r as [err | hdr].
  - revert Hs. unfold oauthSign, bind. rewrite or_new_Some.
    unfold rand_Read. simpl.
    destruct (entropy (env w) (calls w)); [| done]. by intros [= _ <-].
  - apply oauthSign_world in Hs as (nonceBuf & t & Hheap & _).
    unfold map_of at 1. rewrite Hheap, lookup_insert_eq. simpl.
    apply not_oauth_key in Hk as (? & ? & ? & ? & ?).
    by rewrite !lookup_insert_ne.
Qed.

Lemma getAuthHeader_keeps (c : Client) (method url : string) (l : loc)
    (w w' : World) (r : error + string) (k : string) :
  getAuthHeader c method url (Some l) w = (r, w') ->
  k ∉ oauth_keys ->
  map_of w' l !! k = map_of w l !! k.
Proof.
  unfold getAuthHeader. destruct (decide (secret c = "")).
  - by intros [= _ <-].
  - apply oauthSign_keeps.
Qed.

Lemma doImageRequest_heap (c : Client) (req : Request) (w : World) :
  heap (snd (doImageRequest c req w)) = heap w.
Proof.
  unfold doImageRequest, bind, http_Do. simpl.
  destruct (transport (env w) (calls w) req) as [msg | resp]; [done |].
  destruct (jsonDecode (RespBody resp)) as [msg | r]; [done |].
  destruct (apiResponse.Error r); [done |].
  by destruct (decide (StatusCode resp ≠ StatusOK)).
Qed.

Lemma map_of_heap (w w' : World) (l : loc) :
  heap w' = heap w -> map_of w' l = map_of w l.
Proof. unfold map_of. by intros ->. Qed.

Lemma map_of_lookup_Some (w : World) (l : loc) (k v : string) :
  map_of w l !! k = Some v ->
  exists m, heap w !! l = Some m /\ m !! k = Some v.
Proof.
  unfold map_of. destruct (heap w !! l) as [m |]; simpl; [eauto |].
  by rewrite lookup_empty.
Qed.

(** The locale entry after the two submissions. *)
Lemma RemoteImageRequest_locale (c : Client) (url : string) (l : loc)
    (w : World) :
  map_of (snd (RemoteImageRequest c url (Some l) w)) l !! locale_key
  = Some (default DefaultLocale (map_of w l !! locale_key)).
Proof.
  unfold RemoteImageRequest, bind. rewrite or_new_Some.
  pose proof (default_locale_locale l w) as H0.
  destruct (default_locale l w) as [u w1]. simpl in H0.
  pose proof (store_map_of l "image_request[remote_image_url]" url w1) as H1.
  destruct (store l _ url w1) as [u' w2]. simpl in H1.
  unfold load at 1.
  destruct (getAuthHeader c "POST" requestsURL (Some l) w2)
    as [r w3] eqn:Hauth.
  apply (getAuthHeader_keeps _ _ _ _ _ _ _ locale_key) in Hauth;
    [| apply locale_not_oauth].
  assert (map_of w3 l !! locale_key
          = Some (default DefaultLocale (map_of w l !! locale_key))) as H3.
  { rewrite Hauth, H1, lookup_insert_ne by done. exact H0. }
  destruct r as [err | auth]; [exact H3 |].
  unfold fmt_Println at 1.
  erewrite map_of_heap; [| apply doImageRequest_heap]. exact H3.
Qed.

Lemma ImageRequest_locale (c : Client) (image : Reader) (filename : string)
    (l : loc) (w : World) :
  rd_err image = None ->
  map_of (snd (ImageRequest c image filename (Some l) w)) l !! locale_key
  = Some (default DefaultLocale (map_of w l !! locale_key)).
Proof.
  intros Hrd. unfold ImageRequest, bind. rewrite Hrd, or_new_Some.
  pose proof (default_locale_locale l w) as H0.
  destruct (default_locale l w) as [u w1]. simpl in H0.
  unfold load at 1.
  destruct (getAuthHeader c "POST" requestsURL (Some l) w1)
    as [r w3] eqn:Hauth.
  apply (getAuthHeader_keeps _ _ _ _ _ _ _ locale_key) in Hauth;
    [| apply locale_not_oauth].
  rewrite H0 in Hauth.
  destruct r as [err | auth]; [exact Hauth |].
  erewrite map_of_heap; [| apply doImageRequest_heap]. exact Hauth.
Qed.

(** ** The schedule of [WaitJob] *)

Lemma Second_pos : 0 < Second.
Proof. done. Qed.

Lemma loop_schedule_weaken (evs : list Event) (lo hi : Z) :
  lo <= hi -> loop_schedule hi evs -> loop_schedule lo evs.
Proof.
  revert lo hi. induction evs as [| [t d | t req res | line] evs IH];
    intros lo hi Hle; simpl; [done | | | by apply IH].
  - intros [Hd H]. split; [done |]. by apply (IH lo hi).
  - intros [Ht H]. split; [lia | done].
Qed.

Lemma loop_schedule_app (evs1 evs2 : list Event) (lo hi : Z) :
  loop_schedule lo evs1 ->
  Forall (fun t => t + Second <= hi) (poll_times evs1) ->
  lo <= hi ->
  loop_schedule hi evs2 ->
  loop_schedule lo (evs1 ++ evs2).
Proof.
  revert lo. induction evs1 as [| [t d | t req res | line] evs1 IH];
    intros lo; simpl.
  - intros _ _ Hle H. by apply (loop_schedule_weaken _ lo hi).
  - intros [Hd H1] Hf Hle H2. split; [done |]. by apply IH.
  - intros [Ht H1] Hf Hle H2. apply Forall_cons in Hf as [Hthi Hf].
    split; [done |]. apply IH; [done | done | lia | done].
  - intros H1 Hf Hle H2. by apply IH.
Qed.

Lemma deadline_passed_steps (timeout timeoutAt : Z) (w w1 : World) (b : bool) :
  deadline_passed timeout timeoutAt w = (b, w1) ->
  steps_to w w1 []
  /\ (b = true -> 0 < timeout /\ timeoutAt < now w1)
  /\ (b = false -> 0 < timeout -> now w1 <= timeoutAt).
Proof.
  unfold deadline_passed. destruct (decide (0 < timeout)) as [Hpos | Hpos].
  - unfold bind, time_Now, ret. intros [= <- <-]. split; [| split].
    + apply steps_quiet; [done | apply tick_now | done].
    + intros Hb. apply bool_decide_eq_true_1 in Hb. done.
    + intros Hb _. apply bool_decide_eq_false_1 in Hb. simpl. lia.
  - intros [= <- <-]. split; [apply steps_refl |]. split; [done | lia].
Qed.

(** What one call of [UpdateJob] logs: nothing, or one request. *)
Lemma UpdateJob_steps (c : Client) (job : Job.t) (w : World) :
  let w' := world_of (UpdateJob c job w) in
  exists evs, steps_to w w' evs
              /\ (evs = [] \/ exists req res, evs = [EvDo (now w') req res]).
Proof.
  destruct (UpdateJob c job w) as [[e job'] w' | w' | w' | w'] eqn:H; simpl.
  - apply UpdateJob_Returns in H as [_ [(_ & _ & _ & ->) |
      [(_ & _ & _ & Hs & _) | (_ & auth & res & Hs & _)]]].
    + exists []. split; [apply steps_refl | by left].
    + exists []. split; [done | by left].
    + eexists. split; [exact Hs | right; eauto].
  - pose proof (UpdateJob_no_return c job w) as Hw. rewrite H in Hw.
    rewrite <- (Hw ltac:(done)). exists [].
    split; [apply steps_refl | by left].
  - pose proof (UpdateJob_no_return c job w) as Hw. rewrite H in Hw.
    rewrite <- (Hw ltac:(done)). exists [].
    split; [apply steps_refl | by left].
  - pose proof (UpdateJob_no_return c job w) as Hw. rewrite H in Hw.
    rewrite <- (Hw ltac:(done)). exists [].
    split; [apply steps_refl | by left].
Qed.

Lemma poll_times_span (w w' : World) (evs : list Event) :
  Forall (in_span w w') evs ->
  Forall (fun t => now w <= t <= now w') (poll_times evs).
Proof.
  induction 1 as [| [t d | t req res | line] evs H Hf IH]; simpl;
    [constructor | done | | done].
  constructor; [exact H | done].
Qed.

(** One turn of the loop keeps the schedule; when the loop goes round
    again, the requests of the turn lie a second or more back. *)
Lemma WaitJob_turn_schedule (c : Client) (job : Job.t) (timeout timeoutAt : Z)
    (w : World) (lo : Z) :
  lo <= now w ->
  let o := WaitJob_turn c job timeout timeoutAt w in
  exists evs,
    steps_to w (world_of o) evs
    /\ loop_schedule lo evs
    /\ (forall job' w', o = Returns (Again job') w' ->
                        Forall (fun t => t + Second <= now w') (poll_times evs)).
Proof.
  intros Hlo. unfold WaitJob_turn.
  destruct (deadline_passed timeout timeoutAt w) as [late w1] eqn:Hd.
  apply deadline_passed_steps in Hd as (Hs1 & _ & _).
  destruct late; cbn [world_of].
  { exists []. split; [exact Hs1 |]. split; [done |]. discriminate. }
  pose proof (UpdateJob_steps c job w1) as (evs & Hs2 & Hshape).
  assert (Forall (fun t => lo <= t <= now (world_of (UpdateJob c job w1)))
                 (poll_times evs)) as Hpolls.
  { destruct Hs1 as (_ & ? & _), Hs2 as (_ & ? & _ & Hf).
    apply poll_times_span in Hf. eapply Forall_impl; [exact Hf |].
    simpl. lia. }
  assert (loop_schedule lo evs) as Hsched.
  { destruct Hshape as [-> | (req & res & ->)]; simpl; [done |].
    split; [| done]. simpl in Hpolls. apply Forall_cons in Hpolls. lia. }
  destruct (UpdateJob c job w1) as [[[err |] job'] w2 | w2 | w2 | w2];
    cbn [world_of] in *;
    try (exists evs; split; [exact (steps_trans _ _ _ [] _ Hs1 Hs2) |];
         split; [done | discriminate]).
  destruct (decide (Job.Status job' ≠ StatusNotCompleted)).
  { exists evs. split; [exact (steps_trans _ _ _ [] _ Hs1 Hs2) |].
    split; [done | discriminate]. }
  destruct (time_Sleep (1 * Second) w2) as [u w3] eqn:Hsl. cbn [world_of].
  apply time_Sleep_steps in Hsl as (t & Hs3 & Ht).
  assert (now w2 + Second <= now w3) as Hlater.
  { destruct Hs3 as (_ & _ & _ & Hf). apply Forall_cons in Hf as [Hspan _].
    unfold in_span in Hspan. simpl in Hspan.
    pose proof Second_pos. lia. }
  exists (evs ++ [EvSleep t (1 * Second)]). split; [| split].
  - exact (steps_trans _ _ _ [] _ Hs1 (steps_trans _ _ _ _ _ Hs2 Hs3)).
  - destruct Hshape as [-> | (req & res & ->)]; simpl in *; [done |].
    split; [tauto | done].
  - intros j w' [= <- <-].
    destruct Hshape as [-> | (req & res & ->)]; simpl in *; [constructor |].
    apply Forall_cons in Hpolls as [? _].
    constructor; [lia | constructor].
Qed.

Lemma WaitJob_loop_schedule (fuel : nat) (c : Client) (job : Job.t)
    (timeout timeoutAt : Z) (w : World) (lo : Z) :
  lo <= now w ->
  exists evs,
    steps_to w (world_of (WaitJob_loop fuel c job timeout timeoutAt w)) evs
    /\ loop_schedule lo evs.
Proof.
  revert job w lo. induction fuel as [| fuel IH]; intros job w lo Hlo; simpl.
  { exists []. split; [apply steps_refl | done]. }
  destruct (WaitJob_turn_schedule c job timeout timeoutAt w lo Hlo)
    as (evs1 & Hs1 & Hsch1 & Hagain).
  destruct (WaitJob_turn c job timeout timeoutAt w)
    as [[e job' | job'] w1 | w1 | w1 | w1]; simpl in *; eauto.
  specialize (Hagain job' w1 eq_refl).
  destruct (IH job' w1 (now w1) (Z.le_refl _)) as (evs2 & Hs2 & Hsch2).
  exists (evs1 ++ evs2). split; [exact (steps_trans _ _ _ _ _ Hs1 Hs2) |].
  apply (loop_schedule_app _ _ _ (now w1)); [done | done | | done].
  destruct Hs1 as (_ & ? & _). lia.
Qed.

Lemma loop_schedule_lower (evs : list Event) (lo : Z) :
  loop_schedule lo evs -> Forall (fun t => lo <= t) (poll_times evs).
Proof.
  revert lo. induction evs as [| [t d | t req res | line] evs IH];
    intros lo; simpl; [constructor | | | by apply IH].
  - intros [_ H]. by apply IH.
  - intros [Ht H]. constructor; [done |].
    apply IH. apply (loop_schedule_weaken _ lo (t + Second)); [| done].
    pose proof Second_pos. lia.
Qed.

(** The quiet period: two clock readings, then a sleep up to
    [createdAt + pollMinWait] when the second reading is before it. *)
Lemma WaitJob_quiet_steps (job : Job.t) (timeout : Z) (w w1 : World)
    (timeoutAt : Z) :
  WaitJob_quiet job timeout w = (timeoutAt, w1) ->
  let waitUntil := Job.createdAt job + pollMinWait in
  let now_ := now (tick (tick w)) in
  timeoutAt = now (tick w) + timeout
  /\ waitUntil <= now w1
  /\ steps_to w w1
       (if decide (now_ < waitUntil)
        then [EvSleep (now (tick (tick (tick w)))) (waitUntil - now_)]
        else []).
Proof.
  unfold WaitJob_quiet, bind, time_Now, ret. cbv zeta.
  destruct (decide (now (tick (tick w)) < Job.createdAt job + pollMinWait))
    as [Hlt | Hge].
  - intros [= <- <-]. split; [done |].
    pose proof (tick_now w). pose proof (tick_now (tick w)).
    pose proof (tick_now (tick (tick w))).
    split; [simpl in *; lia |].
    repeat split; [simpl in *; lia |].
    constructor; [| constructor]. unfold in_span. simpl in *. lia.
  - intros [= <- <-]. split; [done |].
    pose proof (tick_now w). pose proof (tick_now (tick w)).
    split; [lia |]. apply steps_quiet; [done | lia | done].
Qed.

(** C3. The requests [WaitJob] sends, whatever the fuel and however the
    run ends: what it logs is first the quiet period, a single sleep of
    [createdAt + 4s - now] when the clock reading [now] taken on entry is
    before [createdAt + 4s] and nothing otherwise, and then the loop, in
    which no request is sent before [createdAt + 4s], each request comes a
    second or more after the one before, and every sleep asks for exactly
    one second. *)
Theorem WaitJob_schedule (fuel : nat) (c : Client) (job : Job.t)
    (timeout : Z) (w : World) :
  let waitUntil := Job.createdAt job + 4 * Second in
  let now_ := fst (time_Now (snd (time_Now w))) in
  exists (quiet evs : list Event),
    log (world_of (WaitJob fuel c job timeout w)) = log w ++ quiet ++ evs
    /\ quiet = (if decide (now_ < waitUntil)
                then [EvSleep (now (tick (tick (tick w)))) (waitUntil - now_)]
                else [])
    /\ loop_schedule waitUntil evs
    /\ Forall (fun t => waitUntil <= t) (poll_times evs).
Proof.
  intros waitUntil now_. unfold WaitJob.
  destruct (WaitJob_quiet job timeout w) as [timeoutAt w1] eqn:Hq.
  apply WaitJob_quiet_steps in Hq as (_ & Hnow & Hs1).
  destruct (WaitJob_loop_schedule fuel c job timeout timeoutAt w1
              (Job.createdAt job + pollMinWait) Hnow) as (evs & Hs2 & Hsch).
  replace (Job.createdAt job + pollMinWait) with waitUntil in *
    by (unfold waitUntil, pollMinWait; lia).
  eexists _, evs. split; [| split; [reflexivity | split]].
  - destruct Hs1 as (_ & _ & Hl1 & _), Hs2 as (_ & _ & Hl2 & _).
    rewrite Hl2, Hl1. by rewrite <- app_assoc.
  - exact Hsch.
  - by apply loop_schedule_lower.
Qed.

(** ** When [WaitJob] times out *)

Lemma UpdateJob_error_kind (c : Client) (job job' : Job.t) (w w' : World)
    (err : error) :
  UpdateJob c job w = Returns (Some err, job') w' ->
  exists msg, err = Foreign msg \/ err = Errorf msg.
Proof.
  intros H. apply UpdateJob_Returns in H as [_ [(_ & ? & _) |
    [(_ & [msg [= ->]] & _) | (_ & auth & res & _ & Hres)]]]; [done | eauto |].
  destruct (poll_result_error job res err) as [_ [msg ->]];
    [by rewrite <- Hres | eauto].
Qed.

(** The ways a turn leaves the loop. *)
Lemma WaitJob_turn_Leave (c : Client) (job job' : Job.t)
    (timeout timeoutAt : Z) (w w' : World) (e : option error) :
  WaitJob_turn c job timeout timeoutAt w = Returns (Leave e job') w' ->
  (e = Some ErrTimeout /\ job' = job /\ 0 < timeout /\ timeoutAt < now w'
   /\ steps_to w w' [])
  \/ (e = None /\ Job.Status job' ≠ StatusNotCompleted)
  \/ (exists msg, e = Some (Foreign msg) \/ e = Some (Errorf msg)).
Proof.
  unfold WaitJob_turn.
  destruct (deadline_passed timeout timeoutAt w) as [late w1] eqn:Hd.
  apply deadline_passed_steps in Hd as (Hs1 & Hlate & _).
  destruct late.
  { intros [= <- <- <-]. left. destruct (Hlate eq_refl). done. }
  destruct (UpdateJob c job w1) as [[[err |] j] w2 | w2 | w2 | w2] eqn:Hu;
    try done.
  - intros [= <- <- <-]. right. right.
    apply UpdateJob_error_kind in Hu as [msg [-> | ->]]; eauto.
  - destruct (decide (Job.Status j ≠ StatusNotCompleted)).
    + intros [= <- <- <-]. right. by left.
    + by destruct (time_Sleep (1 * Second) w2).
Qed.

(** A turn that goes round again has sent one request and was told
    "not completed". *)
Lemma WaitJob_turn_Again (c : Client) (job job' : Job.t)
    (timeout timeoutAt : Z) (w w' : World) :
  WaitJob_turn c job timeout timeoutAt w = Returns (Again job') w' ->
  Job.Status job' = StatusNotCompleted
  /\ exists evs, steps_to w w' evs /\ Forall poll_saw_not_completed evs.
Proof.
  unfold WaitJob_turn.
  destruct (deadline_passed timeout timeoutAt w) as [late w1] eqn:Hd.
  apply deadline_passed_steps in Hd as (Hs1 & _ & _).
  destruct late; [done |].
  destruct (UpdateJob c job w1) as [[[err |] j] w2 | w2 | w2 | w2] eqn:Hu;
    try done.
  destruct (decide (Job.Status j ≠ StatusNotCompleted)) as [| Hst]; [done |].
  apply dec_stable in Hst.
  destruct (time_Sleep (1 * Second) w2) as [u w3] eqn:Hsl.
  intros [= <- <-]. split; [done |].
  apply time_Sleep_steps in Hsl as (t & Hs3 & _).
  apply UpdateJob_Returns in Hu as [_ [(Hne & _ & -> & _) |
    [(_ & [msg [=]] & _) | (_ & auth & res & Hs2 & Hres)]]]; [done |].
  eexists. split.
  - exact (steps_trans _ _ _ [] _ Hs1 (steps_trans _ _ _ _ _ Hs2 Hs3)).
  - repeat constructor. simpl. revert Hres.
    unfold poll_result, saw_not_completed.
    destruct res as [msg | resp]; [done |].
    destruct (jsonDecode (RespBody resp)) as [msg | r]; [done |].
    destruct (apiResponse.Error r); [done |].
    intros [= ->]. done.
Qed.

Lemma WaitJob_loop_Returns (fuel : nat) (c : Client) (job j' : Job.t)
    (timeout timeoutAt : Z) (w w' : World) (e : option error) :
  WaitJob_loop fuel c job timeout timeoutAt w = Returns (e, j') w' ->
  (e = Some ErrTimeout /\ 0 < timeout /\ timeoutAt < now w'
   /\ (j' = job \/ Job.Status j' = StatusNotCompleted)
   /\ exists evs, steps_to w w' evs /\ Forall poll_saw_not_completed evs)
  \/ (e = None /\ Job.Status j' ≠ StatusNotCompleted)
  \/ (exists msg, e = Some (Foreign msg) \/ e = Some (Errorf msg)).
Proof.
  revert job w. induction fuel as [| fuel IH]; intros job w; simpl; [done |].
  destruct (WaitJob_turn c job timeout timeoutAt w)
    as [[e1 j1 | j1] w1 | w1 | w1 | w1] eqn:Hturn; try done.
  - intros [= <- <- <-].
    apply WaitJob_turn_Leave in Hturn
      as [(-> & -> & ? & ? & Hs) | [? | ?]]; [left | by right; left | by right; right].
    repeat split; [done .. | by left |]. exists []. split; [done | constructor].
  - intros H. apply WaitJob_turn_Again in Hturn as (Hst & evs1 & Hs1 & Hf1).
    apply IH in H as [(-> & ? & ? & Hj & evs2 & Hs2 & Hf2) | [? | ?]];
      [left | by right; left | by right; right].
    repeat split; [done .. | |].
    + right. destruct Hj as [-> | ?]; done.
    + exists (evs1 ++ evs2). split; [exact (steps_trans _ _ _ _ _ Hs1 Hs2) |].
      by apply Forall_app.
Qed.

Lemma getAuthHeader_works (c : Client) (method url : string)
    (params : Params) (w : World) :
  secret c = "" \/ entropy_works (env w) ->
  exists auth w1, getAuthHeader c method url params w = (inr auth, w1).
Proof.
  intros Hc. unfold getAuthHeader.
  destruct (decide (secret c = "")) as [| Hsec]; [by eexists _, _ |].
  destruct Hc as [| Hent]; [done |].
  unfold oauthSign, bind, or_new, rand_Read.
  destruct params as [l |]; simpl;
    (destruct (Hent (calls w)) as [bs ->]; by eexists _, _).
Qed.

(** A poll of a job in flight that is told "not completed". *)
Lemma UpdateJob_told_not_completed (c : Client) (job : Job.t) (w : World) :
  Job.mu job = Some Unlocked ->
  Job.Status job = StatusNotCompleted ->
  url_parses (responsesURL +:+ Job.Token job) = true ->
  always_not_completed (env w) ->
  secret c = "" \/ entropy_works (env w) ->
  exists job' w',
    UpdateJob c job w = Returns (None, job') w'
    /\ Job.mu job' = Some Unlocked
    /\ Job.Status job' = StatusNotCompleted
    /\ Job.Token job' = Job.Token job
    /\ env w' = env w /\ now w <= now w'.
Proof.
  intros Hmu Hst Hurl Hnc Hc.
  destruct (getAuthHeader_works c "GET" (responsesURL +:+ Job.Token job)
              None w Hc) as (auth & w1 & Hauth).
  pose proof Hauth as Hs. apply getAuthHeader_steps in Hs as [(He & Hn & _) _].
  rewrite (UpdateJob_eq c job w Hmu), Hurl, Hauth.
  rewrite decide_False by (by intros []).
  specialize (Hnc (calls w1) (poll_request job auth)). rewrite <- He in Hnc.
  unfold saw_not_completed in Hnc. unfold poll_result.
  destruct (transport (env w1) (calls w1) (poll_request job auth))
    as [msg | resp]; [done |].
  destruct (jsonDecode (RespBody resp)) as [msg | r]; [done |].
  destruct Hnc as [-> ->]. eexists _, _. split; [reflexivity |].
  simpl. repeat split; [done | done | lia].
Qed.

(** With a positive timeout, a job in flight and a service that keeps
    saying "not completed", a turn either finds the deadline passed or
    goes round again a second or more later. *)
Lemma WaitJob_turn_progress (c : Client) (job : Job.t)
    (timeout timeoutAt : Z) (w : World) :
  Job.mu job = Some Unlocked ->
  Job.Status job = StatusNotCompleted ->
  url_parses (responsesURL +:+ Job.Token job) = true ->
  always_not_completed (env w) ->
  secret c = "" \/ entropy_works (env w) ->
  (0 < timeout /\ timeoutAt < now (tick w) /\
   WaitJob_turn c job timeout timeoutAt w
   = Returns (Leave (Some ErrTimeout) job) (tick w))
  \/ ((timeout <= 0 \/ now (tick w) <= timeoutAt) /\
      exists job' w',
        WaitJob_turn c job timeout timeoutAt w = Returns (Again job') w'
        /\ Job.mu job' = Some Unlocked
        /\ Job.Status job' = StatusNotCompleted
        /\ Job.Token job' = Job.Token job
        /\ env w' = env w /\ now w + Second <= now w').
Proof.
  intros Hmu Hst Hurl Hnc Hc. unfold WaitJob_turn, deadline_passed.
  destruct (decide (0 < timeout)) as [Hpos | Hpos].
  - unfold bind, time_Now, ret.
    destruct (bool_decide (timeoutAt < now (tick w))) eqn:Hlate.
    + apply bool_decide_eq_true_1 in Hlate. by left.
    + apply bool_decide_eq_false_1 in Hlate. right. split; [lia |].
      destruct (UpdateJob_told_not_completed c job (tick w) Hmu Hst Hurl
                  Hnc Hc)
        as (job' & w' & -> & Hmu' & Hst' & Htok & He & Hn).
      rewrite decide_False by (by intros []).
      eexists job', _. split; [reflexivity |].
      simpl in *. pose proof Second_pos. repeat split; [done .. | lia].
  - right. split; [lia |].
    destruct (UpdateJob_told_not_completed c job w Hmu Hst Hurl Hnc Hc)
      as (job' & w' & Hu & Hmu' & Hst' & Htok & He & Hn).
    unfold ret. rewrite Hu.
    rewrite decide_False by (by intros []).
    eexists job', _. split; [reflexivity |].
    simpl in *. pose proof Second_pos. repeat split; [done .. | lia].
Qed.

(** Enough turns pass the deadline. *)
Lemma WaitJob_loop_times_out (n : nat) (c : Client) (job : Job.t)
    (timeout timeoutAt : Z) (w : World) :
  0 < timeout ->
  timeoutAt - now w < Z.of_nat n * Second ->
  Job.mu job = Some Unlocked ->
  Job.Status job = StatusNotCompleted ->
  url_parses (responsesURL +:+ Job.Token job) = true ->
  always_not_completed (env w) ->
  secret c = "" \/ entropy_works (env w) ->
  exists fuel j' w',
    (fuel <= S n)%nat /\
    WaitJob_loop fuel c job timeout timeoutAt w
    = Returns (Some ErrTimeout, j') w'.
Proof.
  intros Hpos. revert job w.
  induction n as [| n IH]; intros job w Hn Hmu Hst Hurl Hnc Hc.
  - exists 1%nat. simpl.
    destruct (WaitJob_turn_progress c job timeout timeoutAt w Hmu Hst Hurl
                Hnc Hc)
      as [(_ & _ & ->) | ([? | Hle] & _)].
    + by eexists _, _.
    + lia.
    + pose proof (tick_now w). lia.
  - destruct (WaitJob_turn_progress c job timeout timeoutAt w Hmu Hst Hurl
                Hnc Hc)
      as [(_ & _ & Ht) | (_ & job' & w' & Ht & Hmu' & Hst' & Htok & He & Hnow)].
    + exists 1%nat. simpl. rewrite Ht. eexists _, _. split; [lia | done].
    + destruct (IH job' w') as (fuel & j' & w'' & Hfuel & Hloop);
        [lia | done | done | by rewrite Htok | by rewrite He
        | by rewrite He |].
      exists (S fuel), j', w''. split; [lia |]. simpl. by rewrite Ht.
Qed.

(** Without a positive timeout the same run never leaves the loop. *)
Lemma WaitJob_loop_goes_on (fuel : nat) (c : Client) (job : Job.t)
    (timeout timeoutAt : Z) (w : World) :
  timeout <= 0 ->
  Job.mu job = Some Unlocked ->
  Job.Status job = StatusNotCompleted ->
  url_parses (responsesURL +:+ Job.Token job) = true ->
  always_not_completed (env w) ->
  secret c = "" \/ entropy_works (env w) ->
  exists w', WaitJob_loop fuel c job timeout timeoutAt w = OutOfFuel w'.
Proof.
  intros Hz. revert job w.
  induction fuel as [| fuel IH]; intros job w Hmu Hst Hurl Hnc Hc; simpl;
    [by eexists |].
  destruct (WaitJob_turn_progress c job timeout timeoutAt w Hmu Hst Hurl
              Hnc Hc)
    as [(? & _) | (_ & job' & w' & -> & Hmu' & Hst' & Htok & He & _)]; [lia |].
  apply IH; [done | done | by rewrite Htok | by rewrite He | by rewrite He].
Qed.

(** A turn that reads the clock after the deadline returns [ErrTimeout]
    at once, whatever the job. *)
Lemma WaitJob_loop_late (fuel : nat) (c : Client) (job : Job.t)
    (timeout timeoutAt : Z) (w : World) :
  0 < timeout ->
  timeoutAt < fst (time_Now w) ->
  WaitJob_loop (S fuel) c job timeout timeoutAt w
  = Returns (Some ErrTimeout, job) (snd (time_Now w)).
Proof.
  intros Hpos Hlate. cbn [WaitJob_loop]. unfold WaitJob_turn, deadline_passed.
  rewrite decide_True by done. unfold bind, ret, time_Now in *.
  cbn [fst snd] in *. by rewrite (bool_decide_eq_true_2 _ Hlate).
Qed.

(** The deadline of a wait is the reading taken on entry plus the
    timeout. *)
Lemma WaitJob_deadline (fuel : nat) (c : Client) (job : Job.t) (timeout : Z)
    (w : World) :
  WaitJob fuel c job timeout w
  = WaitJob_loop fuel c job timeout (fst (time_Now w) + timeout)
                 (snd (WaitJob_quiet job timeout w)).
Proof.
  unfold WaitJob.
  destruct (WaitJob_quiet job timeout w) as [timeoutAt w1] eqn:Hq. simpl.
  apply WaitJob_quiet_steps in Hq as (-> & _). done.
Qed.

Lemma poll_result_not_completed (job : Job.t) (res : string + Response) :
  saw_not_completed res ->
  fst (poll_result job res) = None
  /\ Job.Status (snd (poll_result job res)) = StatusNotCompleted.
Proof.
  unfold saw_not_completed, poll_result. destruct res as [msg | resp]; [done |].
  destruct (jsonDecode (RespBody resp)) as [msg | r]; [done |].
  by intros [-> ->].
Qed.

(** A call of [UpdateJob] on a job in flight, with signing that works,
    whose request was told "not completed", returns nil and leaves the job
    in flight. *)
Lemma UpdateJob_in_flight (c : Client) (job job' : Job.t) (w w' : World)
    (e : option error) :
  secret c = "" \/ entropy_works (env w) ->
  Job.Status job = StatusNotCompleted ->
  UpdateJob c job w = Returns (e, job') w' ->
  (forall evs, log w' = log w ++ evs -> Forall poll_saw_not_completed evs) ->
  e = None /\ Job.Status job' = StatusNotCompleted.
Proof.
  intros Hc Hst Hu Hsaw.
  apply UpdateJob_Returns in Hu as [_ [(Hne & _) |
    [(_ & _ & _ & _ & [err Herr]) | (_ & auth & res & Hs & Hres)]]].
  - done.
  - destruct (getAuthHeader_works c "GET" (responsesURL +:+ Job.Token job)
                None w Hc) as (auth & w1 & Hauth).
    rewrite Hauth in Herr. discriminate Herr.
  - destruct Hs as (_ & _ & Hlog & _).
    specialize (Hsaw _ Hlog). apply Forall_cons in Hsaw as [Hsaw _].
    destruct (poll_result_not_completed job res Hsaw) as [He Hj].
    rewrite <- Hres in He, Hj. done.
Qed.

(** A wait on a job in flight, with signing that works, that returns
    after every request it sent was told "not completed", returns
    [ErrTimeout]. *)
Lemma WaitJob_loop_told_not_completed (fuel : nat) (c : Client)
    (job j' : Job.t) (timeout timeoutAt : Z) (w w' : World)
    (e : option error) :
  secret c = "" \/ entropy_works (env w) ->
  Job.Status job = StatusNotCompleted ->
  WaitJob_loop fuel c job timeout timeoutAt w = Returns (e, j') w' ->
  (forall evs, log w' = log w ++ evs -> Forall poll_saw_not_completed evs) ->
  e = Some ErrTimeout.
Proof.
  revert job w. induction fuel as [| fuel IH]; intros job w Hc Hst; simpl;
    [done |].
  unfold WaitJob_turn.
  destruct (deadline_passed timeout timeoutAt w) as [late w0] eqn:Hd.
  apply deadline_passed_steps in Hd as ((He0 & _ & Hl0 & _) & _ & _).
  rewrite app_nil_r in Hl0.
  destruct late; [by intros [= <- _ _] |].
  destruct (UpdateJob c job w0) as [[e1 j1] w1 | w1 | w1 | w1] eqn:Hu;
    try done.
  assert (secret c = "" \/ entropy_works (env w0)) as Hc0
    by (by rewrite He0).
  pose proof (UpdateJob_steps c job w0) as (evs1 & Hs1 & _).
  rewrite Hu in Hs1. cbn [world_of] in Hs1.
  destruct Hs1 as (He1 & _ & Hl1 & _).
  destruct e1 as [err |].
  - intros [= <- <- <-] Hsaw.
    destruct (UpdateJob_in_flight c job j1 w0 w1 (Some err) Hc0 Hst Hu);
      [| done].
    intros evs Hlog. apply Hsaw. by rewrite Hlog, Hl0.
  - destruct (decide (Job.Status j1 ≠ StatusNotCompleted)) as [Hne | Hj1].
    + intros [= <- <- <-] Hsaw.
      destruct (UpdateJob_in_flight c job j1 w0 w1 None Hc0 Hst Hu);
        [| done].
      intros evs Hlog. apply Hsaw. by rewrite Hlog, Hl0.
    + apply dec_stable in Hj1.
      destruct (time_Sleep (1 * Second) w1) as [u w2] eqn:Hsl.
      apply time_Sleep_steps in Hsl as (t & (He2 & _ & Hl2 & _) & _).
      intros Hloop Hsaw. apply (IH j1 w2); [| done | done |].
      * by rewrite He2, He1, He0.
      * intros evs Hlog. rewrite Hl2, Hl1, Hl0, <- !app_assoc in Hlog.
        specialize (Hsaw _ Hlog). apply Forall_app in Hsaw as [_ Hsaw].
        by apply Forall_app in Hsaw as [_ Hsaw].
Qed.

Lemma WaitJob_loop_more_fuel (fuel fuel' : nat) (c : Client) (job : Job.t)
    (timeout timeoutAt : Z) (w w' : World) (r : option error * Job.t) :
  (fuel <= fuel')%nat ->
  WaitJob_loop fuel c job timeout timeoutAt w = Returns r w' ->
  WaitJob_loop fuel' c job timeout timeoutAt w = Returns r w'.
Proof.
  revert fuel' job w. induction fuel as [| fuel IH]; intros fuel' job w Hle;
    simpl; [done |].
  destruct fuel' as [| fuel']; [lia |]. simpl.
  destruct (WaitJob_turn c job timeout timeoutAt w)
    as [[e1 j1 | j1] w1 | w1 | w1 | w1]; try done.
  apply IH. lia.
Qed.

(** C2. [WaitJob] and [ErrTimeout].
    - With timeout 0, a call that returns returns nil with a status other
      than "not completed", or the error of a failed poll, which is never
      [ErrTimeout].
    - A call that returns [ErrTimeout] was given a positive timeout, the
      clock at the return is more than the timeout past the reading taken on
      entry, and every request logged during the call was told
      "not completed"; the job is the one passed in or is "not completed".
    - The deadline is the reading taken on entry plus the timeout, and with
      a positive timeout a turn of the loop that reads the clock after the
      deadline returns [ErrTimeout] at once, without a poll, whatever the
      job: this holds at the first turn of the call and at every later
      one.
    - Conversely, on a job in flight and with signing that works, a call
      that returns after every request it sent was told "not completed"
      returns [ErrTimeout].
    - With a positive timeout, a job in flight whose guard is free and whose
      poll url parses, and a service that tells every poll "not completed",
      the call does return, with [ErrTimeout], for every fuel from some fuel
      on.
    - In the same setting with timeout 0 the call is still looping at every
      fuel. *)
Theorem WaitJob_ErrTimeout :
  (forall (fuel : nat) (c : Client) (job j' : Job.t) (w w' : World)
          (e : option error),
      WaitJob fuel c job 0 w = Returns (e, j') w' ->
      e ≠ Some ErrTimeout
      /\ ((e = None /\ Job.Status j' ≠ StatusNotCompleted)
          \/ (exists msg, e = Some (Foreign msg) \/ e = Some (Errorf msg))))
  /\ (forall (fuel : nat) (c : Client) (job j' : Job.t) (timeout : Z)
             (w w' : World),
        WaitJob fuel c job timeout w = Returns (Some ErrTimeout, j') w' ->
        0 < timeout
        /\ timeout < now w' - fst (time_Now w)
        /\ (j' = job \/ Job.Status j' = StatusNotCompleted)
        /\ exists evs, log w' = log w ++ evs
                       /\ Forall poll_saw_not_completed evs)
  /\ (forall (fuel : nat) (c : Client) (job : Job.t) (timeout : Z)
             (w : World),
        0 < timeout ->
        let timeoutAt := fst (time_Now w) + timeout in
        let w1 := snd (WaitJob_quiet job timeout w) in
        WaitJob fuel c job timeout w
        = WaitJob_loop fuel c job timeout timeoutAt w1
        /\ (timeoutAt < fst (time_Now w1) ->
            WaitJob (S fuel) c job timeout w
            = Returns (Some ErrTimeout, job) (snd (time_Now w1)))
        /\ (forall (fuel2 : nat) (job2 : Job.t) (w2 : World),
              timeoutAt < fst (time_Now w2) ->
              WaitJob_loop (S fuel2) c job2 timeout timeoutAt w2
              = Returns (Some ErrTimeout, job2) (snd (time_Now w2))))
  /\ (forall (fuel : nat) (c : Client) (job j' : Job.t) (timeout : Z)
             (w w' : World) (e : option error) (evs : list Event),
        secret c = "" \/ entropy_works (env w) ->
        Job.Status job = StatusNotCompleted ->
        WaitJob fuel c job timeout w = Returns (e, j') w' ->
        log w' = log w ++ evs ->
        Forall poll_saw_not_completed evs ->
        e = Some ErrTimeout)
  /\ (forall (c : Client) (job : Job.t) (timeout : Z) (w : World),
        0 < timeout ->
        Job.mu job = Some Unlocked ->
        Job.Status job = StatusNotCompleted ->
        url_parses (responsesURL +:+ Job.Token job) = true ->
        always_not_completed (env w) ->
        secret c = "" \/ entropy_works (env w) ->
        exists fuel j' w', forall fuel', (fuel <= fuel')%nat ->
          WaitJob fuel' c job timeout w = Returns (Some ErrTimeout, j') w')
  /\ (forall (fuel : nat) (c : Client) (job : Job.t) (w : World),
        Job.mu job = Some Unlocked ->
        Job.Status job = StatusNotCompleted ->
        url_parses (responsesURL +:+ Job.Token job) = true ->
        always_not_completed (env w) ->
        secret c = "" \/ entropy_works (env w) ->
        exists w', WaitJob fuel c job 0 w = OutOfFuel w').
Proof.
  split; [| split; [| split; [| split; [| split]]]].
  - intros fuel c job j' w w' e. unfold WaitJob.
    destruct (WaitJob_quiet job 0 w) as [timeoutAt w1].
    intros H. apply WaitJob_loop_Returns in H
      as [(_ & ? & _) | [[-> ?] | [msg [-> | ->]]]]; [lia | | |].
    + split; [done | by left].
    + split; [done | right; eauto].
    + split; [done | right; eauto].
  - intros fuel c job j' timeout w w'. unfold WaitJob.
    destruct (WaitJob_quiet job timeout w) as [timeoutAt w1] eqn:Hq.
    apply WaitJob_quiet_steps in Hq as (-> & _ & Hs1).
    intros H. apply WaitJob_loop_Returns in H
      as [(_ & ? & ? & Hj & evs & Hs2 & Hf) | [[[=] _] | [msg [[=] | [=]]]]].
    split; [done |]. split; [simpl in *; lia |]. split; [done |].
    eexists. split.
    + destruct (steps_trans _ _ _ _ _ Hs1 Hs2) as (_ & _ & Hlog & _).
      exact Hlog.
    + apply Forall_app. split; [| done].
      destruct (decide _); repeat constructor.
  - intros fuel c job timeout w Hpos timeoutAt w1. subst timeoutAt w1.
    split; [apply WaitJob_deadline |]. split.
    + intros Hlate. rewrite WaitJob_deadline. by apply WaitJob_loop_late.
    + intros fuel2 job2 w2 Hlate. by apply WaitJob_loop_late.
  - intros fuel c job j' timeout w w' e evs Hc Hst. unfold WaitJob.
    destruct (WaitJob_quiet job timeout w) as [timeoutAt w1] eqn:Hq.
    apply WaitJob_quiet_steps in Hq as (_ & _ & (He & _ & Hl1 & _)).
    intros Hloop Hlog Hsaw.
    apply (WaitJob_loop_told_not_completed _ _ _ _ _ _ _ _ _
             ltac:(by rewrite He) Hst Hloop).
    intros evs2 Hlog2. rewrite Hl1, <- app_assoc in Hlog2.
    rewrite Hlog in Hlog2. apply app_inv_head in Hlog2. subst evs.
    by apply Forall_app in Hsaw as [_ Hsaw].
  - intros c job timeout w Hpos Hmu Hst Hurl Hnc Hc. unfold WaitJob.
    destruct (WaitJob_quiet job timeout w) as [timeoutAt w1] eqn:Hq.
    apply WaitJob_quiet_steps in Hq as (_ & _ & (He & _)).
    destruct (WaitJob_loop_times_out
                (Z.to_nat (Z.max 0 (timeoutAt - now w1 + 1)))
                c job timeout timeoutAt w1)
      as (fuel & j' & w' & _ & Hloop);
      [done | | done | done | done | by rewrite He | by rewrite He |].
    + pose proof Second_pos. unfold Second in *. lia.
    + exists fuel, j', w'. intros fuel' Hle.
      by apply (WaitJob_loop_more_fuel fuel).
  - intros fuel c job w Hmu Hst Hurl Hnc Hc. unfold WaitJob.
    destruct (WaitJob_quiet job 0 w) as [timeoutAt w1] eqn:Hq.
    apply WaitJob_quiet_steps in Hq as (_ & _ & (He & _)).
    apply WaitJob_loop_goes_on; [lia | done | done | done | by rewrite He |
                                 by rewrite He].
Qed.

(** C10, as the code has it.  [RemoteImageRequest], and [ImageRequest]
    when the image is read without error, called with a map of the caller:
    when the call is over, however it ends, the caller's map holds under
    ["image_request[locale]"] the value it held there before, or
    ["en-US"] if it held none; and a call on a map without the key is the
    call on that map with ["en-US"] already put there, so the default is in
    the map before anything is signed or sent. *)
Theorem default_locale_inserted :
  (forall (c : Client) (url : string) (l : loc) (m : gmap string string)
          (w : World),
      heap w !! l = Some m ->
      (exists m', heap (snd (RemoteImageRequest c url (Some l) w)) !! l
                  = Some m'
                  /\ m' !! locale_key
                     = Some (default DefaultLocale (m !! locale_key)))
      /\ (m !! locale_key = None ->
          RemoteImageRequest c url (Some l) w
          = RemoteImageRequest c url (Some l)
              (set_heap (<[l := <[locale_key := DefaultLocale]> m]> (heap w))
                        w)))
  /\ (forall (c : Client) (image : Reader) (filename : string) (l : loc)
             (m : gmap string string) (w : World),
        rd_err image = None ->
        heap w !! l = Some m ->
        (exists m', heap (snd (ImageRequest c image filename (Some l) w)) !! l
                    = Some m'
                    /\ m' !! locale_key
                       = Some (default DefaultLocale (m !! locale_key)))
        /\ (m !! locale_key = None ->
            ImageRequest c image filename (Some l) w
            = ImageRequest c image filename (Some l)
                (set_heap (<[l := <[locale_key := DefaultLocale]> m]> (heap w))
                          w))).
Proof.
  split.
  - intros c url l m w Hm. split.
    + pose proof (RemoteImageRequest_locale c url l w) as H.
      rewrite (map_of_Some _ _ _ Hm) in H.
      by apply map_of_lookup_Some in H.
    + intros Hnone. unfold RemoteImageRequest, bind.
      rewrite !or_new_Some, !default_locale_eq, map_of_insert.
      rewrite (map_of_Some _ _ _ Hm), Hnone, lookup_insert_eq. done.
  - intros c image filename l m w Hrd Hm. split.
    + pose proof (ImageRequest_locale c image filename l w Hrd) as H.
      rewrite (map_of_Some _ _ _ Hm) in H.
      by apply map_of_lookup_Some in H.
    + intros Hnone. unfold ImageRequest, bind. rewrite Hrd.
      rewrite !or_new_Some, !default_locale_eq, map_of_insert.
      rewrite (map_of_Some _ _ _ Hm), Hnone, lookup_insert_eq. done.
Qed.

End Properties.

(** * Further properties of the package *)

Section Further.
Context {P : Platform}.

(** ** The two constructors and the header they lead to *)

(** X1. [NewClientSimple] refuses the empty key with [ErrMissingKey]; the
    client it returns for any other key gets the header ["CloudSight " ++
    key] for every method, url and params, in the world as it was: nothing
    is read from the platform and no map is written. *)
Theorem NewClientSimple_static_header (key : string) :
  (key = "" -> NewClientSimple key = inl ErrMissingKey)
  /\ (key ≠ "" ->
      exists c, NewClientSimple key = inr c
                /\ forall method url params w,
                    getAuthHeader c method url params w
                    = (inr ("CloudSight " +:+ key), w)).
Proof.
  unfold NewClientSimple. split; intros Hk.
  - by rewrite decide_True.
  - rewrite decide_False by done. eexists. split; [reflexivity |].
    intros method url params w. unfold getAuthHeader. by simpl.
Qed.

(** X2. [NewClientOAuth] refuses an empty key with [ErrMissingKey], also
    when the secret is empty too, and an empty secret with
    [ErrMissingSecret]; the client it returns otherwise always signs:
    its header is the one [oauthSign] makes from the key and the secret. *)
Theorem NewClientOAuth_signs (key secret : string) :
  (key = "" -> NewClientOAuth key secret = inl ErrMissingKey)
  /\ (key ≠ "" -> secret = "" ->
      NewClientOAuth key secret = inl ErrMissingSecret)
  /\ (key ≠ "" -> secret ≠ "" ->
      exists c, NewClientOAuth key secret = inr c
                /\ forall method url params w,
                    getAuthHeader c method url params w
                    = oauthSign method url key secret params w).
Proof.
  unfold NewClientOAuth. split; [| split].
  - intros Hk. by rewrite decide_True.
  - intros Hk Hs. rewrite decide_False by done. by rewrite decide_True.
  - intros Hk Hs. rewrite !decide_False by done.
    eexists. split; [reflexivity |].
    intros method url params w. unfold getAuthHeader. simpl.
    by rewrite decide_False.
Qed.

(** X3. Making the header never touches the network or standard output:
    whatever the client, the log is as it was, the outside is the same and
    the clock has not gone back. *)
Theorem getAuthHeader_sends_nothing (c : Client) (method url : string)
    (params : Params) (w : World) :
  let w' := snd (getAuthHeader c method url params w) in
  log w' = log w /\ env w' = env w /\ now w <= now w'.
Proof.
  destruct (getAuthHeader c method url params w) as [r w'] eqn:H. simpl.
  apply getAuthHeader_steps in H as [(He & Hn & Hl & _) _].
  rewrite app_nil_r in Hl. done.
Qed.

(** ** [oauthSign] at its edges *)

Lemma fresh_loc_lookup (w : World) (l : loc) (m : gmap string string) :
  heap w !! l = Some m ->
  heap (snd (new_map w)) !! l = Some m.
Proof.
  intros Hm. unfold new_map. simpl. rewrite lookup_insert_ne; [done |].
  intros <-. apply (is_fresh (dom (heap w))). apply elem_of_dom. eauto.
Qed.

(** X4. When the random source fails, [oauthSign] returns its error and
    writes nothing: the log and every map of the store, the caller's
    included, are as they were. *)
Theorem oauthSign_entropy_failure (method url key secret : string)
    (params : Params) (w : World) (msg : string) :
  entropy (env w) (calls w) = inl msg ->
  let r := oauthSign method url key secret params w in
  fst r = inl (Foreign msg)
  /\ log (snd r) = log w
  /\ forall l m, heap w !! l = Some m -> heap (snd r) !! l = Some m.
Proof.
  intros He. unfold oauthSign, bind, or_new, rand_Read.
  destruct params as [l0 |]; simpl; rewrite He; simpl.
  - done.
  - repeat split. intros l m Hm. by apply (fresh_loc_lookup w).
Qed.

(** X5. Called with the nil map, [oauthSign] signs a map of its own:
    every map that was in the store is as it was, whether signing
    succeeds or not. *)
Theorem oauthSign_nil_params_frame (method url key secret : string)
    (w : World) (l : loc) (m : gmap string string) :
  heap w !! l = Some m ->
  heap (snd (oauthSign method url key secret None w)) !! l = Some m.
Proof.
  intros Hm. pose proof (fresh_loc_lookup w l m Hm) as Hfresh.
  assert (fresh (dom (heap w)) ≠ l) as Hne.
  { intros <-. apply (is_fresh (dom (heap w))). apply elem_of_dom. eauto. }
  unfold oauthSign, bind, or_new, rand_Read. simpl.
  destruct (entropy (env w) (calls w)) as [msg | bs]; simpl.
  - by rewrite lookup_insert_ne.
  - by rewrite !lookup_insert_ne.
Qed.

(** X6. The header [oauthSign] returns is made from the map as the caller
    finds it afterwards: the nonce and the timestamp in the header are the
    ones left in the map, and the signature is the HMAC, keyed with the
    escaped secret followed by ["&"], of a base string that encodes that
    whole map, the caller's own entries and the five oauth entries. *)
Theorem oauthSign_header_of_map (method url key secret : string) (l : loc)
    (m : gmap string string) (w w' : World) (hdr : string) :
  heap w !! l = Some m ->
  oauthSign method url key secret (Some l) w = (inr hdr, w') ->
  exists m' : gmap string string,
    heap w' !! l = Some m'
    /\ hdr = "OAuth " +:+ Join
        [ "oauth_consumer_key=" +:+ dq +:+ key +:+ dq;
          "oauth_nonce=" +:+ dq +:+ index m' "oauth_nonce" +:+ dq;
          "oauth_signature=" +:+ dq +:+
            base64_EncodeToString
              (hmac_sha1 (QueryEscape secret +:+ "&")
                 (Join [ToUpper method; QueryEscape url;
                        QueryEscape (Encode (values m'))] "&")) +:+ dq;
          "oauth_signature_method=" +:+ dq +:+ "HMAC-SHA1" +:+ dq;
          "oauth_timestamp=" +:+ dq +:+ index m' "oauth_timestamp" +:+ dq;
          "oauth_version=" +:+ dq +:+ "1.0" +:+ dq ] ", ".
Proof.
  intros Hm. unfold oauthSign, bind. rewrite or_new_Some.
  unfold rand_Read. simpl.
  destruct (entropy (env w) (calls w)) as [msg | bs]; [discriminate |].
  intros [= <- <-]. simpl. eexists. split; [apply lookup_insert_eq |].
  unfold map_of. simpl. rewrite !lookup_insert_eq. simpl.
  unfold index.
  match goal with
  | |- context [?M !! "oauth_consumer_key"] =>
    replace (M !! "oauth_consumer_key") with (Some key)
      by (by simplify_map_eq)
  end.
  reflexivity.
Qed.

(** ** [doImageRequest] *)

Lemma requests_app (evs1 evs2 : list Event) :
  requests (evs1 ++ evs2) = requests evs1 ++ requests evs2.
Proof.
  induction evs1 as [| [t d | t req res | line] evs1 IH]; simpl;
    by rewrite ?IH.
Qed.

(** X7. [doImageRequest] is lenient about the status code: an answer that
    decodes to a payload without error gives a job whatever the code, with
    the payload's status and token; the one thing a code other than 200
    changes is a line "status code <code>" on standard output. *)
Theorem doImageRequest_lenient_status (c : Client) (req : Request)
    (w : World) (resp : Response) (r : apiResponse.t) :
  transport (env w) (calls w) req = inr resp ->
  jsonDecode (RespBody resp) = inr r ->
  apiResponse.Error r = None ->
  exists (job : Job.t) (w' : World),
    doImageRequest c req w = (inr job, w')
    /\ Job.Status job = apiResponse.Status r
    /\ Job.Token job = apiResponse.Token r
    /\ log w' = log w ++ EvDo (now (tick w)) req (inr resp)
                 :: (if decide (StatusCode resp = StatusOK) then []
                     else [EvPrint ("status code "
                                    +:+ pretty (StatusCode resp))]).
Proof.
  intros Htr Hdec Herr. unfold doImageRequest, bind, http_Do. simpl.
  rewrite Htr, Hdec, Herr.
  destruct (decide (StatusCode resp ≠ StatusOK)) as [Hne | Heq].
  - rewrite decide_False by done. eexists _, _. split; [reflexivity |].
    simpl. by rewrite <- app_assoc.
  - apply dec_stable in Heq. rewrite decide_True by done.
    eexists _, _. split; [reflexivity |]. done.
Qed.

(** X8. The three ways [doImageRequest] fails.  A transport error and a
    decoding error come back as they are; a payload with its error field
    set gives "api error: <payload>, status code: <code>".  In each case
    one request has been sent, none is sent again, and no map is written. *)
Theorem doImageRequest_errors (c : Client) (req : Request) (w : World) :
  let res := transport (env w) (calls w) req in
  let out := doImageRequest c req w in
  (forall msg, res = inl msg -> fst out = inl (Foreign msg))
  /\ (forall resp msg, res = inr resp ->
        jsonDecode (RespBody resp) = inl msg -> fst out = inl (Foreign msg))
  /\ (forall resp r raw, res = inr resp ->
        jsonDecode (RespBody resp) = inr r ->
        apiResponse.Error r = Some raw ->
        fst out = inl (Errorf ("api error: " +:+ raw +:+ ", status code: "
                               +:+ pretty (StatusCode resp))))
  /\ (forall err, fst out = inl err ->
        log (snd out) = log w ++ [EvDo (now (tick w)) req res]
        /\ heap (snd out) = heap w).
Proof.
  intros res out. subst res out. split; [| split; [| split]].
  - intros msg Htr. unfold doImageRequest, bind, http_Do. simpl.
    by rewrite Htr.
  - intros resp msg Htr Hdec. unfold doImageRequest, bind, http_Do. simpl.
    by rewrite Htr, Hdec.
  - intros resp r raw Htr Hdec Herr.
    unfold doImageRequest, bind, http_Do. simpl.
    by rewrite Htr, Hdec, Herr.
  - intros err. unfold doImageRequest, bind, http_Do. simpl.
    destruct (transport (env w) (calls w) req) as [msg | resp]; [done |].
    destruct (jsonDecode (RespBody resp)) as [msg | r]; [done |].
    destruct (apiResponse.Error r); [done |].
    by destruct (decide (StatusCode resp ≠ StatusOK)).
Qed.

(** What [doImageRequest] logs: the request, then at most a printed line. *)
Lemma doImageRequest_log (c : Client) (req : Request) (w : World) :
  exists evs,
    log (snd (doImageRequest c req w)) = log w ++ evs
    /\ requests evs = [req]
    /\ poll_times evs = [now (tick w)]
    /\ now (tick w) <= now (snd (doImageRequest c req w)).
Proof.
  unfold doImageRequest, bind, http_Do. simpl.
  destruct (transport (env w) (calls w) req) as [msg | resp];
    [eexists; split; [reflexivity |]; simpl; repeat split; lia |].
  destruct (jsonDecode (RespBody resp)) as [msg | r];
    [eexists; split; [reflexivity |]; simpl; repeat split; lia |].
  destruct (apiResponse.Error r);
    [eexists; split; [reflexivity |]; simpl; repeat split; lia |].
  destruct (decide (StatusCode resp ≠ StatusOK)); simpl.
  - eexists. split; [by rewrite <- app_assoc |]. simpl. repeat split; lia.
  - eexists. split; [reflexivity |]. simpl. repeat split; lia.
Qed.

(** X9. A job that [doImageRequest] returns: its guard is allocated and
    free, it has no categories, name or skip reason yet, and its creation
    time is a clock reading taken after the request was sent.  Its token is
    the payload's, taken as it comes, so whether the job can be polled
    depends on it: [UpdateJob], for any client and in any world, returns
    when the job has left "not completed" or the url of the poll parses,
    and panics on the nil request, with nothing sent, when the job is
    "not completed" and the url does not parse. *)
Theorem submitted_job_pollable (c : Client) (req : Request) (w w' : World)
    (job : Job.t) :
  doImageRequest c req w = (inr job, w') ->
  Job.mu job = Some Unlocked
  /\ Job.Categories job = [] /\ Job.Name job = "" /\ Job.SkipReason job = ""
  /\ now (tick w) <= Job.createdAt job
  /\ (exists resp r,
        transport (env w) (calls w) req = inr resp
        /\ jsonDecode (RespBody resp) = inr r
        /\ Job.Token job = apiResponse.Token r)
  /\ forall c2 w2,
      (Job.Status job ≠ StatusNotCompleted ->
       UpdateJob c2 job w2 = Returns (None, job) w2)
      /\ (Job.Status job = StatusNotCompleted ->
          url_parses (responsesURL +:+ Job.Token job) = true ->
          exists r w3, UpdateJob c2 job w2 = Returns r w3)
      /\ (Job.Status job = StatusNotCompleted ->
          url_parses (responsesURL +:+ Job.Token job) = false ->
          UpdateJob c2 job w2 = Panics w2).
Proof.
  intros H. pose proof (doImageRequest_log c req w) as (evs & _ & _ & _ & Hn).
  rewrite H in Hn. cbn [snd] in Hn.
  apply doImageRequest_ok in H as (resp & r & Htr & Hdec & Herr & Hjob).
  assert (Job.mu job = Some Unlocked) as Hmu by (by rewrite Hjob).
  assert (Job.createdAt job = now w') as Hat by (by rewrite Hjob).
  assert (Job.Token job = apiResponse.Token r) as Htok by (by rewrite Hjob).
  split; [done |]. split; [by rewrite Hjob |]. split; [by rewrite Hjob |].
  split; [by rewrite Hjob |]. split; [by rewrite Hat |].
  split; [by exists resp, r |]. clear Hjob.
  intros c2 w2. split; [| split].
  - intros Hst. by apply UpdateJob_left_flight.
  - intros Hst Hurl. rewrite (UpdateJob_eq c2 job w2 Hmu), Hurl.
    rewrite decide_False by (by rewrite Hst; intros []).
    destruct (getAuthHeader c2 "GET" _ None w2) as [[err | auth] w3];
      by eexists _, _.
  - intros Hst Hurl. by apply UpdateJob_nil_request.
Qed.

(** No request of [WaitJob] before [createdAt + pollMinWait]. *)
Lemma WaitJob_polls_after (fuel : nat) (c : Client) (job : Job.t)
    (timeout : Z) (w : World) :
  exists evs,
    log (world_of (WaitJob fuel c job timeout w)) = log w ++ evs
    /\ Forall (fun t => Job.createdAt job + pollMinWait <= t) (poll_times evs).
Proof.
  unfold WaitJob.
  destruct (WaitJob_quiet job timeout w) as [timeoutAt w1] eqn:Hq.
  apply WaitJob_quiet_steps in Hq as (_ & Hnow & (_ & _ & Hl1 & _)).
  destruct (WaitJob_loop_schedule fuel c job timeout timeoutAt w1
              (Job.createdAt job + pollMinWait) Hnow)
    as (evs & (_ & _ & Hl2 & _) & Hsch).
  eexists. split; [by rewrite Hl2, Hl1, <- app_assoc |].
  apply loop_schedule_lower in Hsch.
  destruct (decide _); simpl; exact Hsch.
Qed.

(** X10. Submission followed by a wait: every request [WaitJob] sends for
    a job that [doImageRequest] returned is four seconds or more after the
    submission was sent, for any client, timeout and world of the wait. *)
Theorem submit_then_wait_spacing (c : Client) (req : Request) (w w' : World)
    (job : Job.t) :
  doImageRequest c req w = (inr job, w') ->
  forall fuel c2 timeout w2,
    exists evs,
      log (world_of (WaitJob fuel c2 job timeout w2)) = log w2 ++ evs
      /\ Forall (fun t => now (tick w) + 4 * Second <= t) (poll_times evs).
Proof.
  intros H fuel c2 timeout w2.
  pose proof (doImageRequest_log c req w) as (_ & _ & _ & _ & Hn).
  rewrite H in Hn. cbn [snd] in Hn.
  apply doImageRequest_ok in H as (resp & r & _ & _ & _ & Hjob).
  assert (now (tick w) <= Job.createdAt job) as Hcreated
    by (by rewrite Hjob).
  destruct (WaitJob_polls_after fuel c2 job timeout w2) as (evs & Hl & Hf).
  exists evs. split; [exact Hl |].
  eapply Forall_impl; [exact Hf |]. cbv beta. unfold pollMinWait. lia.
Qed.

(** ** The two submissions *)

Lemma set_heap_same (w : World) : set_heap (heap w) w = w.
Proof. by destruct w. Qed.

(** [RemoteImageRequest] on a map of the caller, step by step: the map
    gets the default locale and the url, the header is made, a line is
    printed and the request is sent. *)
Lemma RemoteImageRequest_steps (c : Client) (url : string) (l : loc)
    (m : gmap string string) (w : World) :
  heap w !! l = Some m ->
  let m1 := <[remote_key := url]> (with_locale m) in
  RemoteImageRequest c url (Some l) w
  = (let (auth, w3) := getAuthHeader c "POST" requestsURL (Some l)
                         (set_heap (<[l := m1]> (heap w)) w) in
     match auth with
     | inl err => (inl err, w3)
     | inr a =>
       doImageRequest c (remote_request a (Encode (values m1)))
                      (emit (EvPrint ("auth " +:+ a)) w3)
     end).
Proof.
  intros Hm m1. unfold RemoteImageRequest, bind.
  rewrite or_new_Some, default_locale_eq, (map_of_Some _ _ _ Hm).
  assert (forall w1 : World,
            heap w1 = <[l := with_locale m]> (heap w) ->
            env w1 = env w -> now w1 = now w -> calls w1 = calls w ->
            log w1 = log w ->
            snd (store l "image_request[remote_image_url]" url w1)
            = set_heap (<[l := m1]> (heap w)) w) as Hstore.
  { intros w1 Hh He Hn Hc Hl. unfold store, set_heap, map_of. simpl.
    rewrite Hh, lookup_insert_eq, insert_insert_eq, He, Hn, Hc, Hl.
    reflexivity. }
  assert (snd (store l "image_request[remote_image_url]" url
                 (match m !! locale_key with
                  | Some _ => w
                  | None => set_heap (<[l := <[locale_key := DefaultLocale]> m]>
                                        (heap w)) w
                  end))
          = set_heap (<[l := m1]> (heap w)) w) as Hw2.
  { unfold with_locale in Hstore. destruct (m !! locale_key).
    - apply Hstore; try done. by rewrite insert_id.
    - by apply Hstore. }
  destruct (store l _ url _) as [u w2]. simpl in Hw2. subst w2.
  unfold load at 1. rewrite map_of_insert.
  destruct (getAuthHeader c "POST" requestsURL (Some l) _) as [[err | a] w3];
    [done |].
  reflexivity.
Qed.

(** The same for [ImageRequest] when the image is read. *)
Lemma ImageRequest_steps (c : Client) (image : Reader) (filename : string)
    (l : loc) (m : gmap string string) (w : World) :
  rd_err image = None ->
  heap w !! l = Some m ->
  ImageRequest c image filename (Some l) w
  = (let (auth, w3) := getAuthHeader c "POST" requestsURL (Some l)
                         (set_heap (<[l := with_locale m]> (heap w)) w) in
     match auth with
     | inl err => (inl err, w3)
     | inr a =>
       doImageRequest c
         (upload_request a filename (rd_data image) (with_locale m)) w3
     end).
Proof.
  intros Hrd Hm. unfold ImageRequest, bind.
  rewrite Hrd, or_new_Some, default_locale_eq, (map_of_Some _ _ _ Hm).
  assert ((match m !! locale_key with
           | Some _ => w
           | None => set_heap (<[l := <[locale_key := DefaultLocale]> m]>
                                 (heap w)) w
           end)
          = set_heap (<[l := with_locale m]> (heap w)) w) as ->.
  { unfold with_locale. destruct (m !! locale_key); [| done].
    by rewrite insert_id, set_heap_same. }
  unfold load at 1. rewrite map_of_insert.
  destruct (getAuthHeader c "POST" requestsURL (Some l) _) as [[err | a] w3];
    done.
Qed.

Lemma getAuthHeader_static (c : Client) (method url : string)
    (params : Params) (w : World) :
  secret c = "" ->
  getAuthHeader c method url params w = (inr ("CloudSight " +:+ key c), w).
Proof. intros Hs. unfold getAuthHeader. by rewrite decide_True. Qed.

(** The caller's map after a header was made over it. *)
Lemma getAuthHeader_map (c : Client) (method url : string) (l : loc)
    (m1 : gmap string string) (w w3 : World) (r : error + string) :
  heap w !! l = Some m1 ->
  getAuthHeader c method url (Some l) w = (r, w3) ->
  exists m', heap w3 !! l = Some m'
             /\ (forall k, k ∉ oauth_keys -> m' !! k = m1 !! k)
             /\ (secret c = "" -> m' = m1).
Proof.
  intros Hm Hauth. unfold getAuthHeader in Hauth.
  destruct (decide (secret c = "")) as [Hs | Hs].
  - injection Hauth as _ <-. by exists m1.
  - destruct r as [err | hdr].
    + revert Hauth. unfold oauthSign, bind. rewrite or_new_Some.
      unfold rand_Read. simpl.
      destruct (entropy (env w) (calls w)); [| done].
      intros [= _ <-]. by exists m1.
    + apply oauthSign_world in Hauth as (nonceBuf & t & Hheap & _).
      rewrite (map_of_Some _ _ _ Hm) in Hheap. rewrite Hheap.
      eexists. split; [apply lookup_insert_eq |]. split; [| done].
      intros k Hk. apply not_oauth_key in Hk as (? & ? & ? & ? & ?).
      by rewrite !lookup_insert_ne.
Qed.

(** X11. What [RemoteImageRequest] leaves in the caller's map: the map as
    it was, with the default locale if it held none and with the url under
    ["image_request[remote_image_url]"] in place of any earlier one; only
    the five oauth keys may differ from that, and with a key-only client
    nothing does.  This holds however the call ends. *)
Theorem RemoteImageRequest_map_after (c : Client) (url : string) (l : loc)
    (m : gmap string string) (w : World) :
  heap w !! l = Some m ->
  exists m',
    heap (snd (RemoteImageRequest c url (Some l) w)) !! l = Some m'
    /\ m' !! remote_key = Some url
    /\ (forall k, k ∉ oauth_keys ->
                  m' !! k = <[remote_key := url]> (with_locale m) !! k)
    /\ (secret c = "" -> m' = <[remote_key := url]> (with_locale m)).
Proof.
  intros Hm. rewrite (RemoteImageRequest_steps c url l m w Hm). cbv zeta.
  destruct (getAuthHeader c "POST" requestsURL (Some l) _) as [r w3] eqn:Hauth.
  eapply getAuthHeader_map in Hauth as (m' & Hm' & Hkeep & Hstatic);
    [| apply lookup_insert_eq].
  exists m'. split; [| split; [| done]].
  - destruct r as [err | a]; [done |].
    by rewrite doImageRequest_heap.
  - rewrite Hkeep; [apply lookup_insert_eq |].
    unfold oauth_keys, remote_key. rewrite !not_elem_of_cons.
    repeat split; (discriminate || apply not_elem_of_nil).
Qed.

(** X12. What [ImageRequest] leaves in the caller's map when the image is
    read: the map as it was, with the default locale if it held none; only
    the five oauth keys may differ from that, and with a key-only client
    nothing does. *)
Theorem ImageRequest_map_after (c : Client) (image : Reader)
    (filename : string) (l : loc) (m : gmap string string) (w : World) :
  rd_err image = None ->
  heap w !! l = Some m ->
  exists m',
    heap (snd (ImageRequest c image filename (Some l) w)) !! l = Some m'
    /\ (forall k, k ∉ oauth_keys -> m' !! k = with_locale m !! k)
    /\ (secret c = "" -> m' = with_locale m).
Proof.
  intros Hrd Hm. rewrite (ImageRequest_steps c image filename l m w Hrd Hm).
  destruct (getAuthHeader c "POST" requestsURL (Some l) _) as [r w3] eqn:Hauth.
  eapply getAuthHeader_map in Hauth as (m' & Hm' & Hkeep & Hstatic);
    [| apply lookup_insert_eq].
  exists m'. split; [| done].
  destruct r as [err | a]; [done |]. by rewrite doImageRequest_heap.
Qed.

(** X13. What the two submissions send.  Each sends at most one request
    and none when making the header fails.  The request of
    [RemoteImageRequest] is a POST to the requests url whose body encodes
    the caller's parameters with the default locale and the url; the
    request of [ImageRequest] carries the file and the caller's parameters
    with the default locale.  Either body is made before the request is
    signed, so it holds none of the oauth entries this call adds. *)
Theorem submission_request (c : Client) (l : loc) (m : gmap string string)
    (w : World) :
  heap w !! l = Some m ->
  (forall url,
     let out := RemoteImageRequest c url (Some l) w in
     exists evs,
       log (snd out) = log w ++ evs
       /\ ((requests evs = [] /\ exists err, fst out = inl err)
           \/ exists auth,
               requests evs
               = [remote_request auth
                    (Encode (values (<[remote_key := url]> (with_locale m))))]))
  /\ (forall image filename,
        rd_err image = None ->
        let out := ImageRequest c image filename (Some l) w in
        exists evs,
          log (snd out) = log w ++ evs
          /\ ((requests evs = [] /\ exists err, fst out = inl err)
              \/ exists auth,
                  requests evs
                  = [upload_request auth filename (rd_data image)
                                    (with_locale m)])).
Proof.
  intros Hm. split.
  - intros url out. subst out.
    rewrite (RemoteImageRequest_steps c url l m w Hm). cbv zeta.
    destruct (getAuthHeader c "POST" requestsURL (Some l) _)
      as [[err | a] w3] eqn:Hauth;
      apply getAuthHeader_steps in Hauth as [(_ & _ & Hl3 & _) _];
      rewrite app_nil_r in Hl3; simpl in Hl3.
    + exists []. rewrite app_nil_r. split; [done |]. left. eauto.
    + destruct (doImageRequest_log c
                  (remote_request a
                     (Encode (values (<[remote_key := url]> (with_locale m)))))
                  (emit (EvPrint ("auth " +:+ a)) w3))
        as (evs & Hl & Hreq & _).
      exists (EvPrint ("auth " +:+ a) :: evs). split.
      * rewrite Hl. simpl. rewrite Hl3, <- app_assoc. done.
      * right. exists a. simpl. exact Hreq.
  - intros image filename Hrd out. subst out.
    rewrite (ImageRequest_steps c image filename l m w Hrd Hm).
    destruct (getAuthHeader c "POST" requestsURL (Some l) _)
      as [[err | a] w3] eqn:Hauth;
      apply getAuthHeader_steps in Hauth as [(_ & _ & Hl3 & _) _];
      rewrite app_nil_r in Hl3; simpl in Hl3.
    + exists []. rewrite app_nil_r. split; [done |]. left. eauto.
    + destruct (doImageRequest_log c
                  (upload_request a filename (rd_data image) (with_locale m))
                  w3) as (evs & Hl & Hreq & _).
      exists evs. split; [by rewrite Hl, Hl3 |]. right. by exists a.
Qed.

(** ** [UpdateJob] and [RepostJob] *)

Lemma UpdateJob_frame (c : Client) (job job' : Job.t) (w w' : World)
    (e : option error) :
  UpdateJob c job w = Returns (e, job') w' ->
  Job.Token job' = Job.Token job /\ Job.URL job' = Job.URL job
  /\ Job.createdAt job' = Job.createdAt job
  /\ Job.mu job' = Some Unlocked /\ Job.mu job = Some Unlocked.
Proof.
  intros H. apply UpdateJob_Returns in H as [Hmu [(_ & _ & -> & _) |
    [(_ & _ & -> & _) | (_ & auth & res & _ & Hres)]]]; [done | done |].
  pose proof (poll_result_frame job res) as Hf. rewrite <- Hres in Hf.
  simpl in Hf. destruct Hf as (? & ? & ? & Hm). rewrite Hm. done.
Qed.

(** X14. Terminal states are sticky: once a call of [UpdateJob] has
    returned a job whose status is not "not completed", every later call
    on that job, by any client and in any world, returns nil and the same
    job in the same world. *)
Theorem UpdateJob_sticky (c : Client) (job job' : Job.t) (w w' : World)
    (e : option error) :
  UpdateJob c job w = Returns (e, job') w' ->
  Job.Status job' ≠ StatusNotCompleted ->
  forall c2 w2, UpdateJob c2 job' w2 = Returns (None, job') w2.
Proof.
  intros H Hst c2 w2. apply UpdateJob_frame in H as (_ & _ & _ & Hmu & _).
  by apply UpdateJob_left_flight.
Qed.

Lemma new_map_keeps (w : World) (l : loc) (m : gmap string string) :
  heap w !! l = Some m -> fresh (dom (heap w)) ≠ l.
Proof.
  intros Hm <-. apply (is_fresh (dom (heap w))). apply elem_of_dom. eauto.
Qed.

(** Making a header for the nil map writes no map that was there. *)
Lemma getAuthHeader_nil_keeps (c : Client) (method url : string) (w : World)
    (l : loc) (m : gmap string string) :
  heap w !! l = Some m ->
  heap (snd (getAuthHeader c method url None w)) !! l = Some m.
Proof.
  intros Hm. pose proof (new_map_keeps w l m Hm) as Hne.
  unfold getAuthHeader. destruct (decide (secret c = "")); [done |].
  unfold oauthSign, bind, or_new, rand_Read. simpl.
  destruct (entropy (env w) (calls w)) as [msg | bs]; simpl.
  - by rewrite lookup_insert_ne.
  - by rewrite !lookup_insert_ne.
Qed.

(** X15. What a call of [UpdateJob] does to the world, however it ends: it
    sends no request or one, and the one is the GET of the job's token; the
    maps that were in the store are as they were. *)
Theorem UpdateJob_one_request (c : Client) (job : Job.t) (w : World) :
  let w' := world_of (UpdateJob c job w) in
  (exists evs,
     log w' = log w ++ evs
     /\ (requests evs = []
         \/ exists auth, requests evs = [poll_request job auth]))
  /\ forall l m, heap w !! l = Some m -> heap w' !! l = Some m.
Proof.
  destruct (Job.mu job) as [[|] |] eqn:Hmu.
  2, 3: (unfold UpdateJob; rewrite Hmu; simpl;
         split; [exists []; rewrite app_nil_r; split; [done | by left]
                | done]).
  rewrite (UpdateJob_eq c job w Hmu).
  destruct (decide (Job.Status job ≠ StatusNotCompleted)); simpl.
  { split; [exists []; rewrite app_nil_r; split; [done | by left] | done]. }
  destruct (url_parses _); simpl.
  2: { split; [exists []; rewrite app_nil_r; split; [done | by left] | done]. }
  pose proof (getAuthHeader_nil_keeps c "GET"
                (responsesURL +:+ Job.Token job) w) as Hkeep.
  destruct (getAuthHeader c "GET" (responsesURL +:+ Job.Token job) None w)
    as [[err | auth] w1] eqn:Hauth;
    apply getAuthHeader_steps in Hauth as [(_ & _ & Hl1 & _) _];
    rewrite app_nil_r in Hl1; simpl in *.
  - split; [| done].
    exists []. rewrite app_nil_r. split; [done | by left].
  - split; [| done].
    eexists. split; [by rewrite Hl1 |]. right. by exists auth.
Qed.

(** X16. A poll that fails below the payload.  For a job "not completed"
    whose guard is free, once the request is built (the url of the poll
    parses) and the header is made: when the transport fails, [UpdateJob]
    returns "HTTP error: <the transport's message>"; when the body does not
    decode, "JSON error: <the decoder's message>"; the job comes back as it
    was. *)
Theorem UpdateJob_transport_failure (c : Client) (job : Job.t) (w w1 : World)
    (auth : string) :
  Job.mu job = Some Unlocked ->
  Job.Status job = StatusNotCompleted ->
  url_parses (responsesURL +:+ Job.Token job) = true ->
  getAuthHeader c "GET" (responsesURL +:+ Job.Token job) None w
    = (inr auth, w1) ->
  let res := transport (env w1) (calls w1) (poll_request job auth) in
  let w2 := snd (http_Do (poll_request job auth) w1) in
  (forall msg, res = inl msg ->
     UpdateJob c job w
     = Returns (Some (Errorf ("HTTP error: " +:+ msg)), job) w2)
  /\ (forall resp msg, res = inr resp ->
        jsonDecode (RespBody resp) = inl msg ->
        UpdateJob c job w
        = Returns (Some (Errorf ("JSON error: " +:+ msg)), job) w2).
Proof.
  intros Hmu Hst Hurl Hauth res w2. subst res w2.
  rewrite (UpdateJob_eq c job w Hmu), Hurl, Hauth.
  rewrite decide_False by (by intros []).
  split.
  - by intros msg ->.
  - intros resp msg -> Hdec. unfold poll_result. by rewrite Hdec.
Qed.

(** X17. [RepostJob] never changes the job and never polls: whenever it
    returns, the job is the one passed in, and it has sent no request or
    one, the POST to the repost url of the job's token. *)
Theorem RepostJob_frame (c : Client) (job job' : Job.t) (w w' : World)
    (e : option error) :
  RepostJob c job w = Returns (e, job') w' ->
  job' = job
  /\ exists evs,
      log w' = log w ++ evs
      /\ (requests evs = []
          \/ exists auth, requests evs = [repost_request job auth]).
Proof.
  rewrite RepostJob_eq.
  destruct (decide (Job.Status job ≠ StatusTimeout)) as [Hne | Hst].
  { intros [= <- <- <-]. split; [done |]. exists []. rewrite app_nil_r.
    split; [done | by left]. }
  apply dec_stable in Hst.
  destruct (url_parses _); [| done].
  destruct (getAuthHeader c "POST" _ None w) as [[err | auth] w1] eqn:Hauth;
    apply getAuthHeader_steps in Hauth as [(_ & _ & Hl1 & _) _];
    rewrite app_nil_r in Hl1.
  { intros [= <- <- <-]. split; [done |]. exists []. rewrite app_nil_r.
    split; [done | by left]. }
  unfold http_Do. simpl.
  assert (exists evs,
            log (tick w1) ++ [EvDo (now (tick w1)) (repost_request job auth)
                                (transport (env w1) (calls w1)
                                   (repost_request job auth))]
            = log w ++ evs
            /\ (requests evs = []
                \/ exists auth0, requests evs = [repost_request job auth0]))
    as Hone.
  { eexists. split; [simpl; by rewrite Hl1 |]. right. by exists auth. }
  destruct (transport (env w1) (calls w1) (repost_request job auth))
    as [msg | resp].
  { by intros [= <- <- <-]. }
  destruct (decide (StatusCode resp ≠ StatusOK)).
  { by intros [= <- <- <-]. }
  intros Hu. apply UpdateJob_Returns in Hu as [_ [(_ & _ & -> & ->) |
    [(Hnc & _) | (Hnc & _)]]].
  - done.
  - rewrite Hst in Hnc. discriminate Hnc.
  - rewrite Hst in Hnc. discriminate Hnc.
Qed.

(** X18. A repost that does not go through.  For a job with status
    "timeout", once the request is built (the url of the repost parses) and
    the header is made: when the service answers with a code other than
    200, [RepostJob] returns "error reposting job: <body>, status: <code>";
    when the transport fails, "HTTP error: <message>".  When the url of the
    repost does not parse, [RepostJob] panics on the nil request before the
    header is made, with nothing sent.  The job is untouched and its guard
    is not taken, so all this holds whatever the guard. *)
Theorem RepostJob_refused (c : Client) (job : Job.t) (w : World) :
  Job.Status job = StatusTimeout ->
  let url := requestsURL +:+ "/" +:+ Job.Token job +:+ "/repost" in
  (url_parses url = true ->
   forall (auth : string) (w1 : World),
     getAuthHeader c "POST" url None w = (inr auth, w1) ->
     let res := transport (env w1) (calls w1) (repost_request job auth) in
     let w2 := snd (http_Do (repost_request job auth) w1) in
     (forall resp, res = inr resp -> StatusCode resp ≠ StatusOK ->
        RepostJob c job w
        = Returns (Some (Errorf ("error reposting job: " +:+ RespBody resp
                                 +:+ ", status: "
                                 +:+ pretty (StatusCode resp))),
                   job) w2)
     /\ (forall msg, res = inl msg ->
           RepostJob c job w
           = Returns (Some (Errorf ("HTTP error: " +:+ msg)), job) w2))
  /\ (url_parses url = false -> RepostJob c job w = Panics w).
Proof.
  intros Hst url. subst url. split.
  - intros Hurl auth w1 Hauth res w2. subst res w2.
    rewrite RepostJob_eq, Hurl.
    rewrite decide_False by (by intros []). rewrite Hauth.
    unfold http_Do. simpl. split.
    + intros resp -> Hcode. by rewrite decide_True.
    + by intros msg ->.
  - intros Hurl. rewrite RepostJob_eq, Hurl.
    by rewrite decide_False by (by intros []).
Qed.

(** ** [WaitJob] at its edges *)

Lemma WaitJob_quiet_requests (job : Job.t) (timeout : Z) (w : World) :
  let out := WaitJob_quiet job timeout w in
  exists evs, log (snd out) = log w ++ evs /\ requests evs = []
              /\ Job.createdAt job + pollMinWait <= now (snd out)
              /\ fst out = fst (time_Now w) + timeout
              /\ fst (time_Now w) <= now (snd out)
              /\ env (snd out) = env w.
Proof.
  unfold WaitJob_quiet, bind, time_Now, ret. cbv zeta.
  pose proof (tick_now (tick w)). pose proof (tick_now (tick (tick w))).
  destruct (decide (now (tick (tick w)) < Job.createdAt job + pollMinWait)).
  - eexists. split; [reflexivity |]. simpl in *. repeat split; lia.
  - exists []. rewrite app_nil_r. simpl in *. repeat split; lia.
Qed.

(** X19. A timeout shorter than what is left of the quiet period.  When
    the timeout is positive but ends before [createdAt + 4s], [WaitJob]
    still sleeps to [createdAt + 4s] and then returns [ErrTimeout] without
    having sent a request, whatever the job's status and guard. *)
Theorem WaitJob_short_timeout (fuel : nat) (c : Client) (job : Job.t)
    (timeout : Z) (w : World) :
  0 < timeout ->
  fst (time_Now w) + timeout < Job.createdAt job + 4 * Second ->
  exists w' evs,
    WaitJob (S fuel) c job timeout w = Returns (Some ErrTimeout, job) w'
    /\ log w' = log w ++ evs /\ requests evs = []
    /\ Job.createdAt job + 4 * Second <= now w'.
Proof.
  intros Hpos Hshort. unfold WaitJob.
  pose proof (WaitJob_quiet_requests job timeout w)
    as (evs & Hl & Hreq & Hnow & Hat & _).
  destruct (WaitJob_quiet job timeout w) as [timeoutAt w1]. simpl in *.
  subst timeoutAt. unfold WaitJob_turn, deadline_passed.
  rewrite decide_True by done. unfold bind, time_Now, ret.
  pose proof (tick_now w1). unfold pollMinWait in Hnow.
  rewrite bool_decide_eq_true_2 by lia.
  exists (tick w1), evs. repeat split; [done | done | lia].
Qed.

(** X20. A job that has left "not completed".  [WaitJob] sends no request
    for it, whatever the timeout, the fuel and the outcome; and with no
    positive timeout and a free guard it returns nil and the job as it
    was, after the quiet period. *)
Theorem WaitJob_terminal_job (c : Client) (job : Job.t) (w : World) :
  Job.Status job ≠ StatusNotCompleted ->
  (forall fuel timeout,
     exists evs,
       log (world_of (WaitJob fuel c job timeout w)) = log w ++ evs
       /\ requests evs = [])
  /\ (Job.mu job = Some Unlocked ->
      forall fuel timeout, timeout <= 0 ->
        exists w', WaitJob (S fuel) c job timeout w = Returns (None, job) w').
Proof.
  intros Hst. split.
  - intros fuel timeout. unfold WaitJob.
    pose proof (WaitJob_quiet_requests job timeout w)
      as (evs & Hl & Hreq & _).
    destruct (WaitJob_quiet job timeout w) as [timeoutAt w1]. simpl in *.
    exists evs. split; [| done].
    destruct fuel as [| fuel]; simpl; [done |].
    unfold WaitJob_turn.
    destruct (deadline_passed timeout timeoutAt w1) as [late w2] eqn:Hd.
    apply deadline_passed_steps in Hd as ((_ & _ & Hl2 & _) & _).
    rewrite app_nil_r in Hl2.
    destruct late; simpl; [by rewrite Hl2 |].
    pose proof (UpdateJob_left_flight_world c job w2 Hst) as Hw.
    destruct (UpdateJob c job w2) as [[[err |] j] w3 | w3 | w3 | w3] eqn:Hu;
      simpl in Hw; subst w3; simpl; try (by rewrite Hl2).
    apply UpdateJob_Returns in Hu as [_ [(_ & _ & -> & _) | [(Hnc & _) |
      (Hnc & _)]]]; [| done | done].
    rewrite decide_True by done. simpl. by rewrite Hl2.
  - intros Hmu fuel timeout Hz. unfold WaitJob.
    destruct (WaitJob_quiet job timeout w) as [timeoutAt w1]. simpl.
    unfold WaitJob_turn, deadline_passed.
    rewrite decide_False by lia. unfold ret.
    rewrite (UpdateJob_left_flight c job w1 Hmu Hst).
    rewrite decide_True by done. by eexists.
Qed.

Lemma UpdateJob_requests (c : Client) (job : Job.t) (w : World) :
  exists evs,
    steps_to w (world_of (UpdateJob c job w)) evs
    /\ (length (requests evs) <= 1)%nat.
Proof.
  destruct (UpdateJob_steps c job w) as (evs & Hs & [-> | (req & res & ->)]);
    eexists; (split; [exact Hs | simpl; lia]).
Qed.

(** One turn with a positive timeout: at most one request, sent only
    while the deadline has not passed, and a second or more goes by before
    the next turn. *)
Lemma WaitJob_turn_count (c : Client) (job : Job.t) (timeout timeoutAt : Z)
    (w : World) :
  0 < timeout ->
  let o := WaitJob_turn c job timeout timeoutAt w in
  exists evs,
    steps_to w (world_of o) evs
    /\ (length (requests evs) <= 1)%nat
    /\ (requests evs ≠ [] -> now w <= timeoutAt)
    /\ (forall job' w', o = Returns (Again job') w' ->
                        now w + Second <= now w').
Proof.
  intros Hpos. unfold WaitJob_turn.
  destruct (deadline_passed timeout timeoutAt w) as [late w1] eqn:Hd.
  apply deadline_passed_steps in Hd as (Hs1 & _ & Hnot).
  destruct late; cbn [world_of].
  { exists []. split; [exact Hs1 |]. simpl. repeat split; [lia | done ..]. }
  specialize (Hnot eq_refl Hpos).
  assert (now w <= timeoutAt) as Hle by (destruct Hs1 as (_ & ? & _); lia).
  destruct (UpdateJob_requests c job w1) as (evs & Hs2 & Hlen).
  destruct (UpdateJob c job w1) as [[[err |] job'] w2 | w2 | w2 | w2];
    cbn [world_of] in *;
    try (exists evs; split; [exact (steps_trans _ _ _ [] _ Hs1 Hs2) |];
         repeat split; done).
  destruct (decide (Job.Status job' ≠ StatusNotCompleted)).
  { exists evs. split; [exact (steps_trans _ _ _ [] _ Hs1 Hs2) |].
    repeat split; done. }
  destruct (time_Sleep (1 * Second) w2) as [u w3] eqn:Hsl. cbn [world_of].
  apply time_Sleep_steps in Hsl as (t & Hs3 & Ht).
  exists (evs ++ [EvSleep t (1 * Second)]). split; [| split; [| split]].
  - exact (steps_trans _ _ _ [] _ Hs1 (steps_trans _ _ _ _ _ Hs2 Hs3)).
  - rewrite requests_app. simpl. by rewrite app_nil_r.
  - done.
  - intros j w' [= <- <-].
    destruct Hs1 as (_ & ? & _), Hs2 as (_ & ? & _), Hs3 as (_ & _ & _ & Hf).
    apply Forall_cons in Hf as [Hspan _]. unfold in_span in Hspan.
    simpl in Hspan. pose proof Second_pos. lia.
Qed.

Lemma WaitJob_loop_count (fuel : nat) (c : Client) (job : Job.t)
    (timeout timeoutAt : Z) (w : World) :
  0 < timeout ->
  exists evs,
    log (world_of (WaitJob_loop fuel c job timeout timeoutAt w))
    = log w ++ evs
    /\ (requests evs = []
        \/ (Z.of_nat (length (requests evs)) - 1) * Second
           <= timeoutAt - now w).
Proof.
  intros Hpos. revert job w.
  induction fuel as [| fuel IH]; intros job w; simpl.
  { exists []. rewrite app_nil_r. split; [done | by left]. }
  destruct (WaitJob_turn_count c job timeout timeoutAt w Hpos)
    as (evs1 & (_ & _ & Hl1 & _) & Hlen1 & Hdue & Hagain).
  assert (requests evs1 = []
          \/ (Z.of_nat (length (requests evs1)) - 1) * Second
             <= timeoutAt - now w) as Hone.
  { destruct (requests evs1) as [| r1 rs] eqn:Hr; [by left |]. right.
    specialize (Hdue ltac:(done)). simpl in Hlen1.
    assert (rs = []) as -> by (destruct rs; [done | simpl in Hlen1; lia]).
    simpl. lia. }
  destruct (WaitJob_turn c job timeout timeoutAt w)
    as [[e job' | job'] w1 | w1 | w1 | w1]; cbn [world_of] in *; eauto.
  specialize (Hagain job' w1 eq_refl).
  destruct (IH job' w1) as (evs2 & Hl2 & Htwo).
  exists (evs1 ++ evs2). split; [by rewrite Hl2, Hl1, <- app_assoc |].
  rewrite requests_app, length_app.
  destruct (requests evs2) as [| r2 rs2] eqn:Hr2.
  - rewrite app_nil_r. simpl. rewrite Nat.add_0_r. exact Hone.
  - right. destruct Htwo as [Htwo | Htwo]; [done |].
    unfold Second in *. simpl length in *. lia.
Qed.

(** X21. How many requests a wait can send.  With a positive timeout the
    requests [WaitJob] has sent, at any fuel and however it ends, number
    at most one more than the seconds in the timeout: one less than their
    number, in seconds, fits in the timeout. *)
Theorem WaitJob_request_bound (fuel : nat) (c : Client) (job : Job.t)
    (timeout : Z) (w : World) :
  0 < timeout ->
  exists evs,
    log (world_of (WaitJob fuel c job timeout w)) = log w ++ evs
    /\ (Z.of_nat (length (requests evs)) - 1) * Second <= timeout.
Proof.
  intros Hpos. unfold WaitJob.
  pose proof (WaitJob_quiet_requests job timeout w)
    as (evs1 & Hl1 & Hreq1 & _ & Hat & Hn & _).
  destruct (WaitJob_quiet job timeout w) as [timeoutAt w1]. simpl in *.
  destruct (WaitJob_loop_count fuel c job timeout timeoutAt w1 Hpos)
    as (evs2 & Hl2 & Hcount).
  exists (evs1 ++ evs2). split; [by rewrite Hl2, Hl1, <- app_assoc |].
  rewrite requests_app, Hreq1. simpl.
  destruct Hcount as [-> | Hcount]; [simpl; unfold Second; lia |].
  lia.
Qed.

(** X22. What [WaitJob] keeps of the job: whenever it returns, the job it
    returns has the token, the url and the creation time of the job passed
    in, and its guard is free again. *)
Theorem WaitJob_frame (fuel : nat) (c : Client) (job j' : Job.t)
    (timeout : Z) (w w' : World) (e : option error) :
  WaitJob fuel c job timeout w = Returns (e, j') w' ->
  Job.Token j' = Job.Token job /\ Job.URL j' = Job.URL job
  /\ Job.createdAt j' = Job.createdAt job /\ Job.mu j' = Job.mu job.
Proof.
  unfold WaitJob. destruct (WaitJob_quiet job timeout w) as [timeoutAt w1].
  revert job w1. induction fuel as [| fuel IH]; intros job w1; simpl;
    [done |].
  unfold WaitJob_turn.
  destruct (deadline_passed timeout timeoutAt w1) as [late w2].
  destruct late; [by intros [= <- <- <-] |].
  destruct (UpdateJob c job w2) as [[e1 j1] w3 | w3 | w3 | w3] eqn:Hu;
    try done.
  apply UpdateJob_frame in Hu as (Ht & Hurl & Hc & Hm1 & Hm).
  assert (Job.mu j1 = Job.mu job) as Hmu by (by rewrite Hm1, Hm).
  destruct e1 as [err |]; [intros [= <- <- <-]; done |].
  destruct (decide (Job.Status j1 ≠ StatusNotCompleted));
    [intros [= <- <- <-]; done |].
  destruct (time_Sleep (1 * Second) w3) as [u w4].
  intros H. apply IH in H as (? & ? & ? & ?).
  repeat split; congruence.
Qed.

(** X23. The results of [WaitJob], for every timeout.  A nil return means
    the job has left "not completed"; [ErrTimeout] is returned only for a
    positive timeout, so a negative timeout waits without bound like 0; any
    other error is the error of a poll. *)
Theorem WaitJob_results (fuel : nat) (c : Client) (job j' : Job.t)
    (timeout : Z) (w w' : World) (e : option error) :
  WaitJob fuel c job timeout w = Returns (e, j') w' ->
  (e = None /\ Job.Status j' ≠ StatusNotCompleted)
  \/ (e = Some ErrTimeout /\ 0 < timeout)
  \/ (exists msg, e = Some (Foreign msg) \/ e = Some (Errorf msg)).
Proof.
  unfold WaitJob. destruct (WaitJob_quiet job timeout w) as [timeoutAt w1].
  intros H. apply WaitJob_loop_Returns in H
    as [(-> & ? & _) | [? | ?]]; [right; left | left | right; right]; done.
Qed.

End Further.

(** * Properties of the setters of [params.go] *)

Section Setters.
Context {P : Platform} {F : FloatFmt}.

Lemma assign_Some (l : loc) (k v : string) (m : gmap string string)
    (w : World) :
  heap w !! l = Some m ->
  assign (Some l) k v w
  = Returns tt (set_heap (<[l := <[k := v]> m]> (heap w)) w).
Proof.
  intros Hm. unfold assign, store, set_heap. simpl.
  by rewrite (map_of_Some _ _ _ Hm).
Qed.

Ltac run_assign Hm :=
  unfold assign, store, set_heap, map_of;
  repeat (progress (simpl; rewrite ?Hm, ?lookup_insert_eq, ?insert_insert_eq)).

(** X24. [SetPosition] is not all-or-nothing.  With a latitude in range
    and a longitude out of range it returns "invalid longitude: ..." and
    the latitude has already been written to the map; the altitude is not
    written. *)
Theorem SetPosition_partial (l : loc) (m : gmap string string) (w : World)
    (lat lon alt : float) :
  heap w !! l = Some m ->
  ((90 <? lat) || (lat <? -90))%float = false ->
  ((180 <? lon) || (lon <? -180))%float = true ->
  SetPosition (Some l) lat lon alt w
  = Returns (Some (Errorf ("invalid longitude: " +:+ Sprintf_f lon)))
            (set_heap (<[l := <["image_request[latitude]" := Sprint_float lat]>
                                m]> (heap w)) w).
Proof.
  intros Hm Hlat Hlon. unfold SetPosition, SetLatitude, SetLongitude.
  rewrite Hlat, (assign_Some _ _ _ _ _ Hm). simpl. by rewrite Hlon.
Qed.

(** X25. [SetPosition] checks the latitude first: out of range, it returns
    "invalid latitude: ..." with nothing written, on any map, the nil map
    too.  With latitude and longitude in range it writes the three
    entries, and nothing else changes in the map. *)
Theorem SetPosition_checks_then_writes (w : World) (lat lon alt : float) :
  (((90 <? lat) || (lat <? -90))%float = true ->
   forall p,
     SetPosition p lat lon alt w
     = Returns (Some (Errorf ("invalid latitude: " +:+ Sprintf_f lat))) w)
  /\ (((90 <? lat) || (lat <? -90))%float = false ->
      ((180 <? lon) || (lon <? -180))%float = false ->
      forall l m, heap w !! l = Some m ->
        SetPosition (Some l) lat lon alt w
        = Returns None
            (set_heap
               (<[l := <["image_request[altitude]" := Sprint_float alt]>
                       (<["image_request[longitude]" := Sprint_float lon]>
                       (<["image_request[latitude]" := Sprint_float lat]>
                          m))]> (heap w)) w)).
Proof.
  split.
  - intros Hlat p. unfold SetPosition, SetLatitude. by rewrite Hlat.
  - intros Hlat Hlon l m Hm.
    unfold SetPosition, SetLatitude, SetLongitude, SetAltitude.
    rewrite Hlat, (assign_Some _ _ _ _ _ Hm). simpl. rewrite Hlon.
    by run_assign Hm.
Qed.

(** X26. [SetFocusRelative] is all-or-nothing: whenever it returns an
    error the world is as it was, and with both coordinates in [0, 1] it
    writes ["focus[x]"] and ["focus[y]"].  The message for a bad [y] is
    formatted with [x]. *)
Theorem SetFocusRelative_all_or_nothing (w : World) (x y : float) :
  (forall p e w', SetFocusRelative p x y w = Returns (Some e) w' -> w' = w)
  /\ (((x <? 0) || (1 <? x))%float = false ->
      ((y <? 0) || (1 <? y))%float = true ->
      forall p,
        SetFocusRelative p x y w
        = Returns (Some (Errorf ("invalid focus Y parameter: "
                                 +:+ Sprintf_f x
                                 +:+ ", should be [0.0, 1.0]"))) w)
  /\ (((x <? 0) || (1 <? x))%float = false ->
      ((y <? 0) || (1 <? y))%float = false ->
      forall l m, heap w !! l = Some m ->
        SetFocusRelative (Some l) x y w
        = Returns None
            (set_heap (<[l := <["focus[y]" := Sprint_float y]>
                               (<["focus[x]" := Sprint_float x]> m)]>
                         (heap w)) w)).
Proof.
  split; [| split].
  - intros p e w'. unfold SetFocusRelative.
    destruct ((x <? 0) || (1 <? x))%float; [by intros [= _ <-] |].
    destruct ((y <? 0) || (1 <? y))%float; [by intros [= _ <-] |].
    destruct p as [l |]; simpl; discriminate.
  - intros Hx Hy p. unfold SetFocusRelative. by rewrite Hx, Hy.
  - intros Hx Hy l m Hm. unfold SetFocusRelative. rewrite Hx, Hy.
    rewrite (assign_Some _ _ _ _ _ Hm). by run_assign Hm.
Qed.

Lemma append_assoc (s1 s2 s3 : string) :
  (s1 +:+ s2) +:+ s3 = s1 +:+ (s2 +:+ s3).
Proof.
  induction s1 as [| a s1 IH]; [reflexivity |].
  change (String a ((s1 +:+ s2) +:+ s3) = String a (s1 +:+ (s2 +:+ s3))).
  by rewrite IH.
Qed.

(** X27. [SetFocusAbsolute] is all-or-nothing as well: a negative
    coordinate gives an error with the world as it was, and two
    coordinates that are not negative are written in decimal.  Both
    messages show [x], and show it as [%!f(int=<x>)], the verb [%f] being
    given an [int]. *)
Theorem SetFocusAbsolute_all_or_nothing (w : World) (x y : Z) :
  (forall p e w', SetFocusAbsolute p x y w = Returns (Some e) w' -> w' = w)
  /\ (x < 0 ->
      forall p,
        SetFocusAbsolute p x y w
        = Returns (Some (Errorf ("invalid focus X parameter: %!f(int="
                                 +:+ pretty x
                                 +:+ "), should be greater or equal to 0")))
                  w)
  /\ (0 <= x -> y < 0 ->
      forall p,
        SetFocusAbsolute p x y w
        = Returns (Some (Errorf ("invalid focus Y parameter: %!f(int="
                                 +:+ pretty x
                                 +:+ "), should be greater or equal to 0")))
                  w)
  /\ (0 <= x -> 0 <= y ->
      forall l m, heap w !! l = Some m ->
        SetFocusAbsolute (Some l) x y w
        = Returns None
            (set_heap (<[l := <["focus[y]" := pretty y]>
                               (<["focus[x]" := pretty x]> m)]>
                         (heap w)) w)).
Proof.
  split; [| split; [| split]].
  - intros p e w'. unfold SetFocusAbsolute.
    destruct (decide (x < 0)); [by intros [= _ <-] |].
    destruct (decide (y < 0)); [by intros [= _ <-] |].
    destruct p as [l |]; simpl; discriminate.
  - intros Hx p. unfold SetFocusAbsolute, bad_f_int.
    rewrite decide_True by done. do 3 f_equal.
    by rewrite !append_assoc.
  - intros Hx Hy p. unfold SetFocusAbsolute, bad_f_int.
    rewrite decide_False by lia. rewrite decide_True by done. do 3 f_equal.
    by rewrite !append_assoc.
  - intros Hx Hy l m Hm. unfold SetFocusAbsolute.
    rewrite !decide_False by lia.
    rewrite (assign_Some _ _ _ _ _ Hm). by run_assign Hm.
Qed.

(** X28. The two setters of the TTL write one key, so the later call
    decides.  [SetTTL] refuses a value that is not positive and writes
    nothing; after [SetMaxTTL] such a call leaves ["max"] in place, and a
    positive value replaces it; [SetMaxTTL] after [SetTTL] leaves
    ["max"], whether [SetTTL] succeeded or not. *)
Theorem SetTTL_SetMaxTTL (l : loc) (m : gmap string string) (w : World)
    (ttl : Z) :
  heap w !! l = Some m ->
  let max_set := set_heap (<[l := <["image_request[ttl]" := "max"]> m]>
                             (heap w)) w in
  (ttl <= 0 -> forall p w0, exists e, SetTTL p ttl w0 = Returns (Some e) w0)
  /\ (0 < ttl ->
      SetTTL (Some l) ttl w
      = Returns None
          (set_heap (<[l := <["image_request[ttl]" := pretty ttl]> m]>
                       (heap w)) w))
  /\ and_then (SetTTL (Some l) ttl w) (fun _ w1 => SetMaxTTL (Some l) w1)
     = Returns tt max_set
  /\ (ttl <= 0 ->
      exists e,
        and_then (SetMaxTTL (Some l) w) (fun _ w1 => SetTTL (Some l) ttl w1)
        = Returns (Some e) max_set)
  /\ (0 < ttl ->
      and_then (SetMaxTTL (Some l) w) (fun _ w1 => SetTTL (Some l) ttl w1)
      = Returns None
          (set_heap (<[l := <["image_request[ttl]" := pretty ttl]> m]>
                       (heap w)) w)).
Proof.
  intros Hm max_set. subst max_set. unfold SetTTL, SetMaxTTL.
  split; [| split; [| split; [| split]]].
  - intros Hle p w0. rewrite decide_True by done. by eexists.
  - intros Hpos. rewrite decide_False by lia.
    by rewrite (assign_Some _ _ _ _ _ Hm).
  - destruct (decide (ttl <= 0)); by run_assign Hm.
  - intros Hle. rewrite (assign_Some _ _ _ _ _ Hm).
    cbn [and_then]. rewrite decide_True by done. by eexists.
  - intros Hpos. rewrite (assign_Some _ _ _ _ _ Hm).
    cbn [and_then]. rewrite decide_False by lia. by run_assign Hm.
Qed.

(** X29. No setter succeeds on the nil map.  The setters without a check
    panic; the setters with a check return their error when the argument
    is refused and panic otherwise; none returns normally, and the world is
    left as it was. *)
Theorem setters_on_nil_map (w : World) :
  (forall s, SetLocale None s w = Panics w)
  /\ (forall s, SetLanguage None s w = Panics w)
  /\ (forall s, SetDeviceID None s w = Panics w)
  /\ (forall a, SetAltitude None a w = Panics w)
  /\ SetMaxTTL None w = Panics w
  /\ (forall lat w', SetLatitude None lat w ≠ Returns None w')
  /\ (forall lon w', SetLongitude None lon w ≠ Returns None w')
  /\ (forall lat lon alt w', SetPosition None lat lon alt w ≠ Returns None w')
  /\ (forall ttl w', SetTTL None ttl w ≠ Returns None w')
  /\ (forall x y w', SetFocusRelative None x y w ≠ Returns None w')
  /\ (forall x y w', SetFocusAbsolute None x y w ≠ Returns None w')
  /\ (forall lat lon alt,
        world_of (SetPosition None lat lon alt w) = w).
Proof.
  repeat split; try done.
  - intros lat w'. unfold SetLatitude. by destruct (_ || _).
  - intros lon w'. unfold SetLongitude. by destruct (_ || _).
  - intros lat lon alt w'. unfold SetPosition, SetLatitude.
    by destruct (_ || _).
  - intros ttl w'. unfold SetTTL. by destruct (decide _).
  - intros x y w'. unfold SetFocusRelative.
    destruct (_ || _); [done |]. by destruct (_ || _).
  - intros x y w'. unfold SetFocusAbsolute.
    destruct (decide _); [done |]. by destruct (decide _).
  - intros lat lon alt. unfold SetPosition, SetLatitude.
    by destruct (_ || _).
Qed.

Lemma setter_key_not_oauth (k : string) :
  k ∈ setter_keys -> k ∉ oauth_keys.
Proof.
  unfold setter_keys, oauth_keys. intros Hk.
  rewrite !elem_of_cons, elem_of_nil in Hk. rewrite !not_elem_of_cons.
  destruct Hk as [-> | [-> | [-> | [-> | [-> | [-> | [-> | [-> | [-> | []]]]]]]]]];
    repeat split; (discriminate || apply not_elem_of_nil).
Qed.

(** X30. Signing leaves what the setters wrote.  Whatever the client and
    however making the header ends, every entry of the caller's map under
    one of the keys the setters of [params.go] write is afterwards as it
    was before. *)
Theorem setter_entries_survive_signing (c : Client) (method url : string)
    (l : loc) (w : World) (k : string) :
  k ∈ setter_keys ->
  map_of (snd (getAuthHeader c method url (Some l) w)) l !! k
  = map_of w l !! k.
Proof.
  intros Hk.
  destruct (getAuthHeader c method url (Some l) w) as [r w'] eqn:Hauth.
  simpl. apply (getAuthHeader_keeps _ _ _ _ _ _ _ k) in Hauth; [done |].
  by apply setter_key_not_oauth.
Qed.

End Setters.

(** * Closed examples *)

Local Existing Instance Demo.platform.

(** A completed job is handed back untouched. *)
Lemma UpdateJob_terminal_noop_witness :
  UpdateJob Demo.simple (Demo.job StatusCompleted)
            (Demo.start (Demo.answering 200 Demo.body_not_completed))
  = Returns (None, Demo.job StatusCompleted)
            (Demo.start (Demo.answering 200 Demo.body_not_completed)).
Proof.
  apply UpdateJob_terminal_noop; [discriminate | reflexivity].
Defined.

(** A completed job cannot be reposted. *)
Lemma RepostJob_rejects_non_timeout_witness :
  RepostJob Demo.simple (Demo.job StatusCompleted)
            (Demo.start Demo.reposting)
  = Returns (Some ErrInvalidRepostStatus, Demo.job StatusCompleted)
            (Demo.start Demo.reposting).
Proof.
  apply RepostJob_rejects_non_timeout. simpl. repeat constructor.
Defined.

(** C5, at a concrete input.  A job with status "timeout" is reposted and
    the service accepts the repost with 200; a poll would be told
    "not completed".  [RepostJob] returns nil, the log holds the POST and
    nothing else, and the job comes back as it was, status "timeout". *)
Theorem RepostJob_leaves_timeout :
  exists w',
    RepostJob Demo.simple (Demo.job StatusTimeout) (Demo.start Demo.reposting)
    = Returns (None, Demo.job StatusTimeout) w'
    /\ log w'
       = [EvDo 1000000
               (repost_request (Demo.job StatusTimeout) "CloudSight api-key")
               (inr {| StatusCode := 200; RespBody := "" |})]
    /\ transport Demo.reposting 1
         (poll_request (Demo.job StatusTimeout) "CloudSight api-key")
       = inr {| StatusCode := 200; RespBody := Demo.body_not_completed |}.
Proof.
  eexists. split; [| split].
  - eapply (RepostJob_accepted Demo.simple (Demo.job StatusTimeout));
      reflexivity.
  - reflexivity.
  - reflexivity.
Qed.

(** A poll answered with [{"error":"bad token"}] and status 401, and a
    poll answered with a completed payload. *)
Lemma UpdateJob_error_payload_witness :
  (exists w',
     UpdateJob Demo.simple (Demo.job StatusNotCompleted)
               (Demo.start (Demo.answering 401 Demo.body_error))
     = Returns (Some (Errorf ("api error: " +:+ Demo.q "bad token"
                              +:+ ", status code: 401")),
                Demo.job StatusNotCompleted) w')
  /\ (exists w',
        updateJobFromRequest (Demo.job StatusNotCompleted) Demo.get
          (Demo.start (Demo.answering 401 Demo.body_error))
        = (Some (Errorf ("api error: " +:+ Demo.q "bad token"
                         +:+ ", status code: 401")),
           Demo.job StatusNotCompleted, w'))
  /\ (exists job' w',
        UpdateJob Demo.simple (Demo.job StatusNotCompleted)
                  (Demo.start (Demo.answering 200 Demo.body_completed))
        = Returns (None, job') w'
        /\ Job.Status job' = StatusCompleted
        /\ Job.Token job' = "abc").
Proof.
  assert (exists w',
     UpdateJob Demo.simple (Demo.job StatusNotCompleted)
               (Demo.start (Demo.answering 401 Demo.body_error))
     = Returns (Some (Errorf ("api error: " +:+ Demo.q "bad token"
                              +:+ ", status code: 401")),
                Demo.job StatusNotCompleted) w') as Herr.
  { eexists.
    apply (proj1 (proj2 UpdateJob_error_payload) Demo.simple
             (Demo.job StatusNotCompleted)
             (Demo.start (Demo.answering 401 Demo.body_error))
             (Demo.start (Demo.answering 401 Demo.body_error))
             "CloudSight api-key"
             {| StatusCode := 401; RespBody := Demo.body_error |}
             Demo.decoded_error (Demo.q "bad token"));
      reflexivity. }
  split; [exact Herr |]. split.
  { eexists.
    apply (proj1 UpdateJob_error_payload (Demo.job StatusNotCompleted)
             Demo.get (Demo.start (Demo.answering 401 Demo.body_error))
             {| StatusCode := 401; RespBody := Demo.body_error |}
             Demo.decoded_error (Demo.q "bad token"));
      reflexivity. }
  destruct Herr as [w0 Herr].
  pose proof (proj1 (proj2 (proj2 UpdateJob_error_payload)) _ _ _ _ _ _ Herr)
    as _.
  destruct (UpdateJob Demo.simple (Demo.job StatusNotCompleted)
              (Demo.start (Demo.answering 200 Demo.body_completed)))
    as [[[err |] job'] w' | w' | w' | w'] eqn:Hu;
    try (vm_compute in Hu; discriminate Hu).
  destruct (proj2 (proj2 (proj2 UpdateJob_error_payload)) _ _ _ _ _ Hu)
    as (Htok & _).
  exists job', w'. split; [reflexivity |]. split; [| exact Htok].
  vm_compute in Hu. by injection Hu as <- _.
Defined.

(** Signing a request whose map holds a locale. *)
Lemma oauthSign_mutates_params_witness :
  exists m' : gmap string string,
    heap (snd (oauthSign "POST" requestsURL "api-key" "api-secret"
                 (Some 1%positive)
                 (Demo.holding (Demo.answering 200 Demo.body_not_completed)
                               {[ locale_key := "pl" ]})))
      !! 1%positive = Some m'
    /\ m' !! locale_key = Some "pl"
    /\ m' !! "oauth_consumer_key" = Some "api-key"
    /\ m' !! "oauth_version" = Some "1.0".
Proof.
  destruct (oauthSign "POST" requestsURL "api-key" "api-secret"
              (Some 1%positive)
              (Demo.holding (Demo.answering 200 Demo.body_not_completed)
                            {[ locale_key := "pl" ]}))
    as [[err | hdr] w'] eqn:Hs; [vm_compute in Hs; discriminate Hs |].
  destruct (oauthSign_mutates_params "POST" requestsURL "api-key"
              "api-secret" 1%positive {[ locale_key := "pl" ]}
              (Demo.holding (Demo.answering 200 Demo.body_not_completed)
                            {[ locale_key := "pl" ]}) w' hdr eq_refl Hs)
    as (m' & Hm' & Hkeep & _ & _ & Hkey & _ & _ & Hver & _).
  exists m'. split; [exact Hm' |]. split; [| by split].
  rewrite Hkeep; [reflexivity | apply locale_not_oauth].
Defined.

(** A submission answered with a protocol-relative url, through
    [doImageRequest] and through the two submissions. *)
Lemma submission_url_normalized_witness :
  (exists (job : Job.t) (w' : World),
     doImageRequest Demo.simple Demo.post
       (Demo.start (Demo.answering 200 Demo.body_relative)) = (inr job, w')
     /\ Job.URL job = "https://img.example/abc.jpg")
  /\ (exists (job : Job.t) (req : Request) (w1 : World),
        fst (ImageRequest Demo.simple Demo.jpeg "some-file.jpg" None
               (Demo.start (Demo.answering 200 Demo.body_relative)))
        = inr job
        /\ fst (doImageRequest Demo.simple req w1) = inr job)
  /\ (exists (job : Job.t) (req : Request) (w1 : World),
        fst (RemoteImageRequest Demo.signed
               "http://www.example.com/some-image.jpg" None
               (Demo.start (Demo.answering 200 Demo.body_relative)))
        = inr job
        /\ fst (doImageRequest Demo.signed req w1) = inr job).
Proof.
  split; [| split].
  - destruct (proj1 submission_url_normalized Demo.simple Demo.post
                (Demo.start (Demo.answering 200 Demo.body_relative))
                {| StatusCode := 200; RespBody := Demo.body_relative |}
                Demo.decoded_relative)
      as (job & w' & Heq & Hrel & _);
      [reflexivity | reflexivity | reflexivity |].
    exists job, w'. split; [exact Heq |].
    exact (Hrel "img.example/abc.jpg" eq_refl).
  - destruct (ImageRequest Demo.simple Demo.jpeg "some-file.jpg" None
                (Demo.start (Demo.answering 200 Demo.body_relative)))
      as [[err | job] w'] eqn:Hi; [vm_compute in Hi; discriminate Hi |].
    destruct (proj1 (proj2 submission_url_normalized) _ _ _ _ _ _ _ Hi)
      as (req & w1 & Hd).
    exists job, req, w1. split; [reflexivity |]. by rewrite Hd.
  - destruct (RemoteImageRequest Demo.signed
                "http://www.example.com/some-image.jpg" None
                (Demo.start (Demo.answering 200 Demo.body_relative)))
      as [[err | job] w'] eqn:Hr; [vm_compute in Hr; discriminate Hr |].
    destruct (proj2 (proj2 submission_url_normalized) _ _ _ _ _ _ Hr)
      as (req & w1 & Hd).
    exists job, req, w1. split; [reflexivity |]. by rewrite Hd.
Defined.

(** C9, a service that answers [{"status":"queued","token":"abc"}]: the
    job a submission returns, and the job a poll refreshes, have the status
    "queued", which is none of the five declared values. *)
Lemma status_not_closed :
  ~ (forall (P : Platform) (c : Client) (req : Request) (w w' : World)
            (job : Job.t),
        doImageRequest c req w = (inr job, w') ->
        Job.Status job ∈ declared_statuses)
  /\ ~ (forall (P : Platform) (job job' : Job.t) (req : Request)
               (w w' : World),
          updateJobFromRequest job req w = (None, job', w') ->
          Job.Status job' ∈ declared_statuses).
Proof.
  split; intros H.
  - destruct (doImageRequest Demo.simple Demo.post
                (Demo.start (Demo.answering 200 Demo.body_queued)))
      as [[err | job] w'] eqn:Hd; [vm_compute in Hd; discriminate Hd |].
    specialize (H Demo.platform _ _ _ _ _ Hd).
    vm_compute in Hd. injection Hd as <- _.
    revert H. apply (bool_decide_unpack _). by vm_compute.
  - destruct (updateJobFromRequest (Demo.job StatusNotCompleted) Demo.get
                (Demo.start (Demo.answering 200 Demo.body_queued)))
      as [[[err |] job'] w'] eqn:Hu; [vm_compute in Hu; discriminate Hu |].
    specialize (H Demo.platform _ _ _ _ _ Hu).
    vm_compute in Hu. injection Hu as <- _.
    revert H. apply (bool_decide_unpack _). by vm_compute.
Qed.

(** The status of those two jobs is the payload's. *)
Lemma status_is_payload_status_witness :
  (exists (job : Job.t) (r : apiResponse.t),
     fst (doImageRequest Demo.simple Demo.post
            (Demo.start (Demo.answering 200 Demo.body_queued))) = inr job
     /\ jsonDecode Demo.body_queued = inr r
     /\ Job.Status job = apiResponse.Status r)
  /\ (exists (job' : Job.t) (r : apiResponse.t),
        fst (updateJobFromRequest (Demo.job StatusNotCompleted) Demo.get
               (Demo.start (Demo.answering 200 Demo.body_queued)))
        = (None, job')
        /\ jsonDecode Demo.body_queued = inr r
        /\ Job.Status job' = apiResponse.Status r).
Proof.
  split.
  - destruct (doImageRequest Demo.simple Demo.post
                (Demo.start (Demo.answering 200 Demo.body_queued)))
      as [[err | job] w'] eqn:Hd; [vm_compute in Hd; discriminate Hd |].
    destruct (proj1 status_is_payload_status Demo.simple Demo.post
                (Demo.start (Demo.answering 200 Demo.body_queued)) w' job Hd)
      as (resp & r & Htr & Hdec & Hst & _).
    exists job, r. split; [reflexivity |].
    injection Htr as <-. by split.
  - destruct (updateJobFromRequest (Demo.job StatusNotCompleted) Demo.get
                (Demo.start (Demo.answering 200 Demo.body_queued)))
      as [[[err |] job'] w'] eqn:Hu; [vm_compute in Hu; discriminate Hu |].
    destruct (proj2 status_is_payload_status _ _ _ _ _ Hu)
      as (resp & r & Htr & Hdec & Hst & _).
    exists job', r. split; [reflexivity |].
    injection Htr as <-. by split.
Defined.

(** C10, an image that cannot be read: [ImageRequest] returns the reader's
    error and the caller's map, which held no locale, still holds none. *)
Lemma ImageRequest_unread_image_no_locale :
  ~ (forall (P : Platform) (c : Client) (image : Reader) (filename : string)
            (l : loc) (m : gmap string string) (w : World),
        heap w !! l = Some m ->
        m !! locale_key = None ->
        exists m', heap (snd (ImageRequest c image filename (Some l) w)) !! l
                   = Some m'
                   /\ m' !! locale_key = Some DefaultLocale).
Proof.
  intros H.
  destruct (H Demo.platform Demo.simple Demo.closed_file "some-file.jpg"
              1%positive ∅
              (Demo.holding (Demo.answering 200 Demo.body_not_completed) ∅))
    as (m' & Hm' & Hloc); [reflexivity | reflexivity |].
  vm_compute in Hm'. injection Hm' as <-. discriminate Hloc.
Qed.

(** A remote submission with a map that holds no locale, and an upload of
    an image that is read. *)
Lemma default_locale_inserted_witness :
  (exists m', heap (snd (RemoteImageRequest Demo.signed
                           "http://www.example.com/some-image.jpg"
                           (Some 1%positive)
                           (Demo.holding
                              (Demo.answering 200 Demo.body_not_completed) ∅)))
                !! 1%positive = Some m'
              /\ m' !! locale_key = Some "en-US")
  /\ (exists m', heap (snd (ImageRequest Demo.simple Demo.jpeg "some-file.jpg"
                             (Some 1%positive)
                             (Demo.holding
                                (Demo.answering 200 Demo.body_not_completed)
                                {[ locale_key := "pl" ]})))
                  !! 1%positive = Some m'
                /\ m' !! locale_key = Some "pl").
Proof.
  split.
  - exact (proj1 (proj1 default_locale_inserted Demo.signed
                    "http://www.example.com/some-image.jpg" 1%positive ∅
                    (Demo.holding
                       (Demo.answering 200 Demo.body_not_completed) ∅)
                    eq_refl)).
  - refine (proj1 (proj2 default_locale_inserted Demo.simple Demo.jpeg
                     "some-file.jpg" 1%positive {[ locale_key := "pl" ]}
                     (Demo.holding
                        (Demo.answering 200 Demo.body_not_completed)
                        {[ locale_key := "pl" ]})
                     _ _)); reflexivity.
Defined.

(** Five waits on a job made at clock reading 0, a millisecond passing
    around every platform call.
    - No timeout, a service that says "completed": the wait returns nil.
    - Six seconds, a service that never completes: after polls at 4.003s
      and 5.006s the wait returns [ErrTimeout] at 6.008s.
    - One second, a service that says "completed": the first clock reading
      of the loop, after the quiet period, is past the deadline, and the
      wait returns [ErrTimeout] without a poll.
    - Two seconds, a service that never completes: [ErrTimeout] for enough
      fuel.
    - No timeout, the same service: the wait is still looping after seven
      turns. *)
Lemma WaitJob_ErrTimeout_witness :
  (exists j' w',
     WaitJob 3 Demo.simple (Demo.job StatusNotCompleted) 0
             (Demo.start (Demo.answering 200 Demo.body_completed))
     = Returns (None, j') w'
     /\ Job.Status j' ≠ StatusNotCompleted)
  /\ (exists j' w',
        WaitJob 10 Demo.simple (Demo.job StatusNotCompleted) (6 * Second)
                (Demo.start (Demo.answering 200 Demo.body_not_completed))
        = Returns (Some ErrTimeout, j') w'
        /\ 6 * Second < now w' - 1000000
        /\ poll_times (log w') = [4003000000; 5006000000])
  /\ (exists w',
        WaitJob 1 Demo.simple (Demo.job StatusNotCompleted) (1 * Second)
                (Demo.start (Demo.answering 200 Demo.body_completed))
        = Returns (Some ErrTimeout, Demo.job StatusNotCompleted) w'
        /\ poll_times (log w') = [])
  /\ (exists fuel j' w',
        WaitJob fuel Demo.simple (Demo.job StatusNotCompleted) (2 * Second)
                (Demo.start (Demo.answering 200 Demo.body_not_completed))
        = Returns (Some ErrTimeout, j') w')
  /\ (exists w',
        WaitJob 7 Demo.simple (Demo.job StatusNotCompleted) 0
                (Demo.start (Demo.answering 200 Demo.body_not_completed))
        = OutOfFuel w').
Proof.
  assert (always_not_completed
            (Demo.answering 200 Demo.body_not_completed)) as Hnc.
  { intros k req. by vm_compute. }
  split; [| split; [| split; [| split]]].
  - destruct (WaitJob 3 Demo.simple (Demo.job StatusNotCompleted) 0
                (Demo.start (Demo.answering 200 Demo.body_completed)))
      as [[e j'] w' | w' | w' | w'] eqn:Hw;
      try (vm_compute in Hw; discriminate Hw).
    destruct (proj1 WaitJob_ErrTimeout _ _ _ _ _ _ _ Hw)
      as [_ [[-> Hst] | [msg Hmsg]]].
    + by exists j', w'.
    + vm_compute in Hw. injection Hw as <- _ _.
      destruct Hmsg as [Hmsg | Hmsg]; discriminate Hmsg.
  - destruct (WaitJob 10 Demo.simple (Demo.job StatusNotCompleted)
                (6 * Second)
                (Demo.start (Demo.answering 200 Demo.body_not_completed)))
      as [[e j'] w' | w' | w' | w'] eqn:Hw;
      try (vm_compute in Hw; discriminate Hw).
    assert (e = Some ErrTimeout
            /\ poll_times (log w') = [4003000000; 5006000000])
      as [-> Hpolls].
    { vm_compute in Hw. by injection Hw as <- _ <-. }
    destruct (proj1 (proj2 WaitJob_ErrTimeout) _ _ _ _ _ _ _ Hw)
      as (_ & Hlate & _ & evs & Hlog & Hsaw).
    assert (Some ErrTimeout = Some ErrTimeout) as _.
    { apply (proj1 (proj2 (proj2 (proj2 WaitJob_ErrTimeout))) 10%nat
               Demo.simple (Demo.job StatusNotCompleted) j' (6 * Second)
               (Demo.start (Demo.answering 200 Demo.body_not_completed))
               w' (Some ErrTimeout) evs);
        [by left | reflexivity | exact Hw | exact Hlog | exact Hsaw]. }
    by exists j', w'.
  - pose proof (proj1 (proj2 (proj2 WaitJob_ErrTimeout)) 0%nat Demo.simple
                  (Demo.job StatusNotCompleted) (1 * Second)
                  (Demo.start (Demo.answering 200 Demo.body_completed))
                  eq_refl) as H.
    cbv zeta in H. destruct H as (_ & Hlate & _).
    eexists. split; [apply Hlate; reflexivity | reflexivity].
  - destruct (proj1 (proj2 (proj2 (proj2 (proj2 WaitJob_ErrTimeout))))
                Demo.simple (Demo.job StatusNotCompleted) (2 * Second)
                (Demo.start (Demo.answering 200 Demo.body_not_completed)))
      as (fuel & j' & w' & H);
      [reflexivity | reflexivity | reflexivity | reflexivity | exact Hnc
      | by left |].
    exists fuel, j', w'. by apply H.
  - apply (proj2 (proj2 (proj2 (proj2 (proj2 WaitJob_ErrTimeout)))));
      [reflexivity | reflexivity | reflexivity | exact Hnc | by left].
Defined.

(** The scenario of a submission followed by a wait.  The service answers
    the submission with [{"token":"abc","status":"not completed","ttl":0}];
    the job is "not completed" with token ["abc"]. *)
Example submit_not_completed :
  exists job w',
    RemoteImageRequest Demo.simple "http://www.example.com/some-image.jpg"
      None (Demo.start (Demo.answering 200 Demo.body_not_completed))
    = (inr job, w')
    /\ Job.Status job = StatusNotCompleted
    /\ Job.Token job = "abc"
    /\ Job.mu job = Some Unlocked.
Proof.
  destruct (RemoteImageRequest Demo.simple
              "http://www.example.com/some-image.jpg" None
              (Demo.start (Demo.answering 200 Demo.body_not_completed)))
    as [[err | job] w'] eqn:Hr; [vm_compute in Hr; discriminate Hr |].
  exists job, w'. split; [reflexivity |].
  vm_compute in Hr. by injection Hr as <- _.
Qed.

(** The service then answers the poll with a completed payload: the wait
    sleeps to 4s, sends one request, and returns nil with the job
    "completed", named "a cat", in the categories "cat" and "animal". *)
Example wait_completed :
  exists job' w',
    WaitJob 10 Demo.simple (Demo.job StatusNotCompleted) (30 * Second)
            (Demo.start (Demo.answering 200 Demo.body_completed))
    = Returns (None, job') w'
    /\ Job.Status job' = StatusCompleted
    /\ Job.Name job' = "a cat"
    /\ Job.Categories job' = ["cat"; "animal"]
    /\ poll_times (log w') = [4003000000].
Proof.
  destruct (WaitJob 10 Demo.simple (Demo.job StatusNotCompleted)
              (30 * Second)
              (Demo.start (Demo.answering 200 Demo.body_completed)))
    as [[e job'] w' | w' | w' | w'] eqn:Hw;
    try (vm_compute in Hw; discriminate Hw).
  exists job', w'. vm_compute in Hw. by injection Hw as <- <- <-.
Qed.

(** ** Closed examples of the further properties *)

Local Existing Instance DemoFmt.fmt.

(** The empty key, and the key ["api-key"]. *)
Lemma NewClientSimple_static_header_witness :
  NewClientSimple "" = inl ErrMissingKey
  /\ exists c,
      NewClientSimple "api-key" = inr c
      /\ getAuthHeader c "GET" (responsesURL +:+ "abc") None
           (Demo.start Demo.offline)
         = (inr "CloudSight api-key", Demo.start Demo.offline).
Proof.
  split.
  - exact (proj1 (NewClientSimple_static_header "") eq_refl).
  - destruct (proj2 (NewClientSimple_static_header "api-key")
                ltac:(discriminate)) as (c & Hc & Hh).
    exists c. split; [exact Hc | apply Hh].
Defined.

(** No key and no secret, a key and no secret, a key and a secret. *)
Lemma NewClientOAuth_signs_witness :
  NewClientOAuth "" "" = inl ErrMissingKey
  /\ NewClientOAuth "api-key" "" = inl ErrMissingSecret
  /\ exists c,
      NewClientOAuth "api-key" "api-secret" = inr c
      /\ getAuthHeader c "GET" (responsesURL +:+ "abc") None
           (Demo.start Demo.offline)
         = oauthSign "GET" (responsesURL +:+ "abc") "api-key" "api-secret"
             None (Demo.start Demo.offline).
Proof.
  split; [| split].
  - exact (proj1 (NewClientOAuth_signs "" "") eq_refl).
  - exact (proj1 (proj2 (NewClientOAuth_signs "api-key" ""))
             ltac:(discriminate) eq_refl).
  - destruct (proj2 (proj2 (NewClientOAuth_signs "api-key" "api-secret"))
                ltac:(discriminate) ltac:(discriminate)) as (c & Hc & Hh).
    exists c. split; [exact Hc | apply Hh].
Defined.

(** Signing the caller's map when the random source fails. *)
Lemma oauthSign_entropy_failure_witness :
  fst (oauthSign "POST" requestsURL "api-key" "api-secret" (Some 1%positive)
         (Demo.holding Demo.no_entropy Demo.polish))
  = inl (Foreign "unexpected EOF")
  /\ heap (snd (oauthSign "POST" requestsURL "api-key" "api-secret"
                  (Some 1%positive)
                  (Demo.holding Demo.no_entropy Demo.polish)))
       !! 1%positive = Some Demo.polish.
Proof.
  pose proof (oauthSign_entropy_failure "POST" requestsURL "api-key"
                "api-secret" (Some 1%positive)
                (Demo.holding Demo.no_entropy Demo.polish)
                "unexpected EOF" eq_refl) as H.
  cbv zeta in H. destruct H as (Hr & _ & Hh).
  split; [exact Hr | apply Hh; reflexivity].
Defined.

(** Signing with the nil map while the caller holds a map. *)
Lemma oauthSign_nil_params_frame_witness :
  heap (snd (oauthSign "GET" (responsesURL +:+ "abc") "api-key" "api-secret"
               None
               (Demo.holding (Demo.answering 200 Demo.body_completed)
                             Demo.polish)))
    !! 1%positive = Some Demo.polish.
Proof.
  apply oauthSign_nil_params_frame. reflexivity.
Defined.

(** The header of a signed POST over the caller's map. *)
Lemma oauthSign_header_of_map_witness :
  exists (hdr : string) (m' : gmap string string),
    fst (oauthSign "POST" requestsURL "api-key" "api-secret"
           (Some 1%positive)
           (Demo.holding (Demo.answering 200 Demo.body_completed)
                         Demo.polish)) = inr hdr
    /\ heap (snd (oauthSign "POST" requestsURL "api-key" "api-secret"
                    (Some 1%positive)
                    (Demo.holding (Demo.answering 200 Demo.body_completed)
                                  Demo.polish)))
         !! 1%positive = Some m'
    /\ hdr = "OAuth " +:+ Join
        [ "oauth_consumer_key=" +:+ dq +:+ "api-key" +:+ dq;
          "oauth_nonce=" +:+ dq +:+ index m' "oauth_nonce" +:+ dq;
          "oauth_signature=" +:+ dq +:+
            base64_EncodeToString
              (hmac_sha1 (QueryEscape "api-secret" +:+ "&")
                 (Join [ToUpper "POST"; QueryEscape requestsURL;
                        QueryEscape (Encode (values m'))] "&")) +:+ dq;
          "oauth_signature_method=" +:+ dq +:+ "HMAC-SHA1" +:+ dq;
          "oauth_timestamp=" +:+ dq +:+ index m' "oauth_timestamp" +:+ dq;
          "oauth_version=" +:+ dq +:+ "1.0" +:+ dq ] ", ".
Proof.
  destruct (oauthSign "POST" requestsURL "api-key" "api-secret"
              (Some 1%positive)
              (Demo.holding (Demo.answering 200 Demo.body_completed)
                            Demo.polish))
    as [[err | hdr] w'] eqn:Hs; [vm_compute in Hs; discriminate Hs |].
  destruct (oauthSign_header_of_map "POST" requestsURL "api-key" "api-secret"
              1%positive Demo.polish
              (Demo.holding (Demo.answering 200 Demo.body_completed)
                            Demo.polish) w' hdr eq_refl Hs)
    as (m' & Hm' & Hhdr).
  exists hdr, m'. split; [reflexivity |]. split; [exact Hm' | exact Hhdr].
Defined.

(** A submission answered with status 500 and a payload that decodes. *)
Lemma doImageRequest_lenient_status_witness :
  exists (job : Job.t) (w' : World),
    doImageRequest Demo.simple Demo.post
      (Demo.start (Demo.answering 500 Demo.body_not_completed))
    = (inr job, w')
    /\ Job.Status job = StatusNotCompleted
    /\ Job.Token job = "abc"
    /\ log w'
       = [EvDo 1000000 Demo.post
               (inr {| StatusCode := 500;
                       RespBody := Demo.body_not_completed |});
          EvPrint "status code 500"].
Proof.
  destruct (doImageRequest_lenient_status Demo.simple Demo.post
              (Demo.start (Demo.answering 500 Demo.body_not_completed))
              {| StatusCode := 500; RespBody := Demo.body_not_completed |}
              Demo.decoded_not_completed)
    as (job & w' & Heq & Hst & Htok & Hlog);
    [reflexivity | reflexivity | reflexivity |].
  exists job, w'. split; [exact Heq |]. split; [exact Hst |].
  split; [exact Htok |]. rewrite Hlog. reflexivity.
Defined.

(** A submission while the network is down, one answered with a body
    that does not decode, and one answered with [{"error":"bad token"}]
    and status 401. *)
Lemma doImageRequest_errors_witness :
  fst (doImageRequest Demo.simple Demo.post (Demo.start Demo.offline))
  = inl (Foreign "dial tcp: connection refused")
  /\ (exists msg,
        fst (doImageRequest Demo.simple Demo.post
               (Demo.start (Demo.answering 200 "<html>")))
        = inl (Foreign msg))
  /\ fst (doImageRequest Demo.simple Demo.post
            (Demo.start (Demo.answering 401 Demo.body_error)))
     = inl (Errorf ("api error: " +:+ Demo.q "bad token"
                    +:+ ", status code: 401"))
  /\ heap (snd (doImageRequest Demo.simple Demo.post
                  (Demo.start Demo.offline)))
     = ∅.
Proof.
  pose proof (doImageRequest_errors Demo.simple Demo.post
                (Demo.start Demo.offline)) as H1.
  pose proof (doImageRequest_errors Demo.simple Demo.post
                (Demo.start (Demo.answering 200 "<html>"))) as H2.
  pose proof (doImageRequest_errors Demo.simple Demo.post
                (Demo.start (Demo.answering 401 Demo.body_error))) as H3.
  cbv zeta in H1, H2, H3.
  destruct H1 as (H1 & _ & _ & H1'), H2 as (_ & H2 & _), H3 as (_ & _ & H3 & _).
  split; [exact (H1 _ eq_refl) |]. split; [| split].
  - eexists. exact (H2 _ _ eq_refl eq_refl).
  - exact (H3 _ Demo.decoded_error _ eq_refl eq_refl eq_refl).
  - exact (proj2 (H1' _ (H1 _ eq_refl))).
Defined.

(** The job of a submission answered with the token ["abc"], polled by
    another client in another world; and the job of a submission answered
    with the token ["%"], whose poll panics. *)
Lemma submitted_job_pollable_witness :
  (exists (job : Job.t) (w' : World),
     doImageRequest Demo.simple Demo.post
       (Demo.start (Demo.answering 200 Demo.body_not_completed))
     = (inr job, w')
     /\ Job.mu job = Some Unlocked
     /\ 1000000 <= Job.createdAt job
     /\ exists r w3,
         UpdateJob Demo.signed job
           (Demo.start (Demo.answering 200 Demo.body_completed))
         = Returns r w3)
  /\ (exists (job : Job.t) (w' : World),
        doImageRequest Demo.simple Demo.post
          (Demo.start (Demo.answering 200 Demo.body_bad_token))
        = (inr job, w')
        /\ Job.Token job = "%"
        /\ UpdateJob Demo.signed job
             (Demo.start (Demo.answering 200 Demo.body_completed))
           = Panics (Demo.start (Demo.answering 200 Demo.body_completed))).
Proof.
  split.
  - destruct (doImageRequest Demo.simple Demo.post
                (Demo.start (Demo.answering 200 Demo.body_not_completed)))
      as [[err | job] w'] eqn:Hd; [vm_compute in Hd; discriminate Hd |].
    destruct (submitted_job_pollable _ _ _ _ _ Hd)
      as (Hmu & _ & _ & _ & Hat & _ & Hpoll).
    exists job, w'. split; [reflexivity |]. split; [exact Hmu |].
    split; [exact Hat |].
    apply (Hpoll Demo.signed
             (Demo.start (Demo.answering 200 Demo.body_completed)));
      vm_compute in Hd; by injection Hd as <- _.
  - destruct (doImageRequest Demo.simple Demo.post
                (Demo.start (Demo.answering 200 Demo.body_bad_token)))
      as [[err | job] w'] eqn:Hd; [vm_compute in Hd; discriminate Hd |].
    destruct (submitted_job_pollable _ _ _ _ _ Hd)
      as (_ & _ & _ & _ & _ & _ & Hpoll).
    exists job, w'. split; [reflexivity |].
    assert (Job.Token job = "%" /\ Job.Status job = StatusNotCompleted)
      as [Htok Hst].
    { vm_compute in Hd. by injection Hd as <- _. }
    split; [exact Htok |].
    apply (Hpoll Demo.signed
             (Demo.start (Demo.answering 200 Demo.body_completed)));
      [exact Hst | by rewrite Htok].
Defined.

(** A submission sent at 1ms, then a wait of six seconds on its job. *)
Lemma submit_then_wait_spacing_witness :
  exists (job : Job.t) (w' : World) (evs : list Event),
    doImageRequest Demo.simple Demo.post
      (Demo.start (Demo.answering 200 Demo.body_not_completed))
    = (inr job, w')
    /\ log (world_of (WaitJob 10 Demo.simple job (6 * Second) w'))
       = log w' ++ evs
    /\ Forall (fun t => 1000000 + 4 * Second <= t) (poll_times evs).
Proof.
  destruct (doImageRequest Demo.simple Demo.post
              (Demo.start (Demo.answering 200 Demo.body_not_completed)))
    as [[err | job] w'] eqn:Hd; [vm_compute in Hd; discriminate Hd |].
  destruct (submit_then_wait_spacing _ _ _ _ _ Hd 10%nat Demo.simple
              (6 * Second) w') as (evs & Hl & Hf).
  exists job, w', evs. split; [reflexivity |]. split; [exact Hl | exact Hf].
Defined.

(** A remote submission by a key-only client over a map that holds a
    language. *)
Lemma RemoteImageRequest_map_after_witness :
  exists m',
    heap (snd (RemoteImageRequest Demo.simple
                 "http://www.example.com/some-image.jpg" (Some 1%positive)
                 (Demo.holding (Demo.answering 200 Demo.body_not_completed)
                               Demo.polish)))
      !! 1%positive = Some m'
    /\ m' !! remote_key = Some "http://www.example.com/some-image.jpg"
    /\ m' = <[remote_key := "http://www.example.com/some-image.jpg"]>
              (with_locale Demo.polish).
Proof.
  destruct (RemoteImageRequest_map_after Demo.simple
              "http://www.example.com/some-image.jpg" 1%positive Demo.polish
              (Demo.holding (Demo.answering 200 Demo.body_not_completed)
                            Demo.polish) eq_refl)
    as (m' & Hm' & Hurl & _ & Hstatic).
  exists m'. split; [exact Hm' |]. split; [exact Hurl | exact (Hstatic eq_refl)].
Defined.

(** An upload by a signing client over a map that holds a language. *)
Lemma ImageRequest_map_after_witness :
  exists m',
    heap (snd (ImageRequest Demo.signed Demo.jpeg "some-file.jpg"
                 (Some 1%positive)
                 (Demo.holding (Demo.answering 200 Demo.body_not_completed)
                               Demo.polish)))
      !! 1%positive = Some m'
    /\ m' !! locale_key = Some "en-US"
    /\ m' !! "image_request[language]" = Some "pl".
Proof.
  destruct (ImageRequest_map_after Demo.signed Demo.jpeg "some-file.jpg"
              1%positive Demo.polish
              (Demo.holding (Demo.answering 200 Demo.body_not_completed)
                            Demo.polish) eq_refl eq_refl)
    as (m' & Hm' & Hkeep & _).
  exists m'. split; [exact Hm' |]. split.
  - rewrite Hkeep; [reflexivity | apply locale_not_oauth].
  - rewrite Hkeep; [reflexivity |].
    apply (bool_decide_unpack _). by vm_compute.
Defined.

(** The requests of the two submissions of a key-only client. *)
Lemma submission_request_witness :
  (exists evs auth,
     log (snd (RemoteImageRequest Demo.simple
                 "http://www.example.com/some-image.jpg" (Some 1%positive)
                 (Demo.holding (Demo.answering 200 Demo.body_not_completed)
                               Demo.polish)))
     = evs
     /\ requests evs
        = [remote_request auth
             (Encode (values (<[remote_key :=
                                  "http://www.example.com/some-image.jpg"]>
                                (with_locale Demo.polish))))])
  /\ (exists evs auth,
        log (snd (ImageRequest Demo.simple Demo.jpeg "some-file.jpg"
                    (Some 1%positive)
                    (Demo.holding (Demo.answering 200 Demo.body_not_completed)
                                  Demo.polish)))
        = evs
        /\ requests evs
           = [upload_request auth "some-file.jpg" (rd_data Demo.jpeg)
                             (with_locale Demo.polish)]).
Proof.
  destruct (submission_request Demo.simple 1%positive Demo.polish
              (Demo.holding (Demo.answering 200 Demo.body_not_completed)
                            Demo.polish) eq_refl) as [Hremote Hupload].
  split.
  - pose proof (Hremote "http://www.example.com/some-image.jpg") as H.
    cbv zeta in H.
    destruct H as (evs & Hl & [[_ [err Herr]] | [auth Hreq]]);
      [vm_compute in Herr; discriminate Herr |].
    exists evs, auth. split; [exact Hl | exact Hreq].
  - pose proof (Hupload Demo.jpeg "some-file.jpg" eq_refl) as H.
    cbv zeta in H.
    destruct H as (evs & Hl & [[_ [err Herr]] | [auth Hreq]]);
      [vm_compute in Herr; discriminate Herr |].
    exists evs, auth. split; [exact Hl | exact Hreq].
Defined.

(** A poll that finds the job completed, then a poll of the result by
    another client against a service that would say "not completed". *)
Lemma UpdateJob_sticky_witness :
  exists job' w',
    UpdateJob Demo.simple (Demo.job StatusNotCompleted)
              (Demo.start (Demo.answering 200 Demo.body_completed))
    = Returns (None, job') w'
    /\ UpdateJob Demo.signed job'
                 (Demo.start (Demo.answering 200 Demo.body_not_completed))
       = Returns (None, job')
                 (Demo.start (Demo.answering 200 Demo.body_not_completed)).
Proof.
  destruct (UpdateJob Demo.simple (Demo.job StatusNotCompleted)
              (Demo.start (Demo.answering 200 Demo.body_completed)))
    as [[[err |] job'] w' | w' | w' | w'] eqn:Hu;
    try (vm_compute in Hu; discriminate Hu).
  assert (Job.Status job' ≠ StatusNotCompleted) as Hst.
  { vm_compute in Hu. injection Hu as <- _. discriminate. }
  exists job', w'. split; [reflexivity |].
  exact (UpdateJob_sticky _ _ _ _ _ _ Hu Hst Demo.signed _).
Defined.

(** A poll while the caller holds a map. *)
Lemma UpdateJob_one_request_witness :
  (exists evs,
     log (world_of (UpdateJob Demo.signed (Demo.job StatusNotCompleted)
                      (Demo.holding (Demo.answering 200 Demo.body_completed)
                                    Demo.polish)))
     = evs
     /\ (requests evs = []
         \/ exists auth,
             requests evs
             = [poll_request (Demo.job StatusNotCompleted) auth]))
  /\ heap (world_of (UpdateJob Demo.signed (Demo.job StatusNotCompleted)
                       (Demo.holding (Demo.answering 200 Demo.body_completed)
                                     Demo.polish)))
       !! 1%positive = Some Demo.polish.
Proof.
  pose proof (UpdateJob_one_request Demo.signed (Demo.job StatusNotCompleted)
                (Demo.holding (Demo.answering 200 Demo.body_completed)
                              Demo.polish)) as H.
  cbv zeta in H. destruct H as [Hreq Hkeep].
  split; [exact Hreq | apply Hkeep; reflexivity].
Defined.

(** A poll while the network is down, and a poll answered with a body
    that does not decode. *)
Lemma UpdateJob_transport_failure_witness :
  (exists w2,
     UpdateJob Demo.simple (Demo.job StatusNotCompleted)
               (Demo.start Demo.offline)
     = Returns (Some (Errorf "HTTP error: dial tcp: connection refused"),
                Demo.job StatusNotCompleted) w2)
  /\ (exists msg w2,
        UpdateJob Demo.simple (Demo.job StatusNotCompleted)
                  (Demo.start (Demo.answering 200 "<html>"))
        = Returns (Some (Errorf ("JSON error: " +:+ msg)),
                   Demo.job StatusNotCompleted) w2).
Proof.
  pose proof (UpdateJob_transport_failure Demo.simple
                (Demo.job StatusNotCompleted) (Demo.start Demo.offline)
                (Demo.start Demo.offline) "CloudSight api-key"
                eq_refl eq_refl eq_refl eq_refl) as H1.
  pose proof (UpdateJob_transport_failure Demo.simple
                (Demo.job StatusNotCompleted)
                (Demo.start (Demo.answering 200 "<html>"))
                (Demo.start (Demo.answering 200 "<html>"))
                "CloudSight api-key" eq_refl eq_refl eq_refl eq_refl) as H2.
  cbv zeta in H1, H2. destruct H1 as [H1 _], H2 as [_ H2]. split.
  - eexists. exact (H1 _ eq_refl).
  - eexists _, _. exact (H2 _ _ eq_refl eq_refl).
Defined.

(** A repost that the service accepts. *)
Lemma RepostJob_frame_witness :
  exists e w' evs,
    RepostJob Demo.simple (Demo.job StatusTimeout) (Demo.start Demo.reposting)
    = Returns (e, Demo.job StatusTimeout) w'
    /\ log w' = evs
    /\ (requests evs = []
        \/ exists auth,
            requests evs = [repost_request (Demo.job StatusTimeout) auth]).
Proof.
  destruct (RepostJob Demo.simple (Demo.job StatusTimeout)
              (Demo.start Demo.reposting))
    as [[e job'] w' | w' | w' | w'] eqn:Hr;
    try (vm_compute in Hr; discriminate Hr).
  destruct (RepostJob_frame _ _ _ _ _ _ Hr) as (-> & evs & Hl & Hreq).
  exists e, w', evs. split; [reflexivity |]. split; [exact Hl | exact Hreq].
Defined.

(** A repost answered with status 503, a repost while the network is
    down, and the repost of a job whose token is ["%"]. *)
Lemma RepostJob_refused_witness :
  (exists w2,
     RepostJob Demo.simple (Demo.job StatusTimeout)
               (Demo.start (Demo.answering 503 "busy"))
     = Returns (Some (Errorf "error reposting job: busy, status: 503"),
                Demo.job StatusTimeout) w2)
  /\ (exists w2,
        RepostJob Demo.simple (Demo.job StatusTimeout)
                  (Demo.start Demo.offline)
        = Returns (Some (Errorf "HTTP error: dial tcp: connection refused"),
                   Demo.job StatusTimeout) w2)
  /\ RepostJob Demo.simple (Demo.stray StatusTimeout)
               (Demo.start Demo.reposting)
     = Panics (Demo.start Demo.reposting).
Proof.
  pose proof (RepostJob_refused Demo.simple (Demo.job StatusTimeout)
                (Demo.start (Demo.answering 503 "busy")) eq_refl) as H1.
  pose proof (RepostJob_refused Demo.simple (Demo.job StatusTimeout)
                (Demo.start Demo.offline) eq_refl) as H2.
  pose proof (RepostJob_refused Demo.simple (Demo.stray StatusTimeout)
                (Demo.start Demo.reposting) eq_refl) as H3.
  cbv zeta in H1, H2, H3.
  destruct H1 as [H1 _], H2 as [H2 _], H3 as [_ H3].
  specialize (H1 eq_refl "CloudSight api-key" _ eq_refl).
  specialize (H2 eq_refl "CloudSight api-key" _ eq_refl).
  destruct H1 as [H1 _], H2 as [_ H2].
  split; [| split].
  - eexists. apply (H1 _ eq_refl). discriminate.
  - eexists. exact (H2 _ eq_refl).
  - exact (H3 eq_refl).
Defined.

(** A wait of one second on a job made at clock reading 0. *)
Lemma WaitJob_short_timeout_witness :
  exists w' evs,
    WaitJob 1 Demo.simple (Demo.job StatusNotCompleted) (1 * Second)
            (Demo.start (Demo.answering 200 Demo.body_completed))
    = Returns (Some ErrTimeout, Demo.job StatusNotCompleted) w'
    /\ log w' = evs /\ requests evs = []
    /\ 4 * Second <= now w'.
Proof.
  destruct (WaitJob_short_timeout 0 Demo.simple (Demo.job StatusNotCompleted)
              (1 * Second)
              (Demo.start (Demo.answering 200 Demo.body_completed)))
    as (w' & evs & Hw & Hl & Hreq & Hnow); [reflexivity | reflexivity |].
  exists w', evs. split; [exact Hw |]. split; [exact Hl |].
  split; [exact Hreq | exact Hnow].
Defined.

(** Waits on a completed job. *)
Lemma WaitJob_terminal_job_witness :
  (exists evs,
     log (world_of (WaitJob 5 Demo.simple (Demo.job StatusCompleted)
                      (6 * Second)
                      (Demo.start (Demo.answering 200 Demo.body_completed))))
     = evs
     /\ requests evs = [])
  /\ (exists w',
        WaitJob 1 Demo.simple (Demo.job StatusCompleted) 0
                (Demo.start (Demo.answering 200 Demo.body_completed))
        = Returns (None, Demo.job StatusCompleted) w').
Proof.
  destruct (WaitJob_terminal_job Demo.simple (Demo.job StatusCompleted)
              (Demo.start (Demo.answering 200 Demo.body_completed)))
    as [Hquiet Hnil]; [discriminate |].
  split; [exact (Hquiet 5%nat (6 * Second)) |].
  apply (Hnil eq_refl 0%nat 0). reflexivity.
Defined.

(** A wait of six seconds against a service that never completes. *)
Lemma WaitJob_request_bound_witness :
  exists evs,
    log (world_of (WaitJob 10 Demo.simple (Demo.job StatusNotCompleted)
                     (6 * Second)
                     (Demo.start
                        (Demo.answering 200 Demo.body_not_completed))))
    = evs
    /\ (Z.of_nat (length (requests evs)) - 1) * Second <= 6 * Second.
Proof.
  apply (WaitJob_request_bound 10 Demo.simple (Demo.job StatusNotCompleted)
           (6 * Second)
           (Demo.start (Demo.answering 200 Demo.body_not_completed))).
  reflexivity.
Defined.

(** The job of a wait that ends with a completed payload. *)
Lemma WaitJob_frame_witness :
  exists e j' w',
    WaitJob 10 Demo.simple (Demo.job StatusNotCompleted) (30 * Second)
            (Demo.start (Demo.answering 200 Demo.body_completed))
    = Returns (e, j') w'
    /\ Job.Token j' = "abc" /\ Job.createdAt j' = 0
    /\ Job.mu j' = Some Unlocked.
Proof.
  destruct (WaitJob 10 Demo.simple (Demo.job StatusNotCompleted)
              (30 * Second)
              (Demo.start (Demo.answering 200 Demo.body_completed)))
    as [[e j'] w' | w' | w' | w'] eqn:Hw;
    try (vm_compute in Hw; discriminate Hw).
  destruct (WaitJob_frame _ _ _ _ _ _ _ _ Hw) as (Htok & _ & Hat & Hmu).
  exists e, j', w'. split; [reflexivity |]. split; [exact Htok |].
  split; [exact Hat | exact Hmu].
Defined.

(** A wait with a negative timeout against a service that completes. *)
Lemma WaitJob_results_witness :
  exists e j' w',
    WaitJob 3 Demo.simple (Demo.job StatusNotCompleted) (- Second)
            (Demo.start (Demo.answering 200 Demo.body_completed))
    = Returns (e, j') w'
    /\ e = None /\ Job.Status j' ≠ StatusNotCompleted.
Proof.
  destruct (WaitJob 3 Demo.simple (Demo.job StatusNotCompleted) (- Second)
              (Demo.start (Demo.answering 200 Demo.body_completed)))
    as [[e j'] w' | w' | w' | w'] eqn:Hw;
    try (vm_compute in Hw; discriminate Hw).
  exists e, j', w'. split; [reflexivity |].
  destruct (WaitJob_results _ _ _ _ _ _ _ _ Hw)
    as [Hnil | [[_ Hpos] | [msg Hmsg]]].
  - exact Hnil.
  - discriminate Hpos.
  - vm_compute in Hw. injection Hw as <- _ _.
    destruct Hmsg as [Hmsg | Hmsg]; discriminate Hmsg.
Defined.

(** Latitude 50, longitude 200, altitude 0.5, on an empty map. *)
Lemma SetPosition_partial_witness :
  exists w',
    SetPosition (Some 1%positive) 50 200 0.5
      (Demo.holding Demo.offline ∅)
    = Returns (Some (Errorf "invalid longitude: 200.000000")) w'
    /\ heap w' !! 1%positive
       = Some (<["image_request[latitude]" := "50"]> ∅).
Proof.
  pose proof (SetPosition_partial 1%positive ∅ (Demo.holding Demo.offline ∅)
                50 200 0.5 eq_refl eq_refl eq_refl) as H.
  eexists (set_heap _ _). split; [exact H | reflexivity].
Defined.

(** Latitude 200 on the nil map; latitude 50, longitude 19, altitude 0.5
    on an empty map. *)
Lemma SetPosition_checks_then_writes_witness :
  SetPosition None 200 19 0.5 (Demo.start Demo.offline)
  = Returns (Some (Errorf "invalid latitude: 200.000000"))
            (Demo.start Demo.offline)
  /\ exists w',
      SetPosition (Some 1%positive) 50 19 0.5 (Demo.holding Demo.offline ∅)
      = Returns None w'
      /\ heap w' !! 1%positive
         = Some (<["image_request[altitude]" := "0.5"]>
                 (<["image_request[longitude]" := "19"]>
                 (<["image_request[latitude]" := "50"]> ∅))).
Proof.
  split.
  - exact (proj1 (SetPosition_checks_then_writes (Demo.start Demo.offline)
                    200 19 0.5) eq_refl None).
  - eexists. split.
    + apply (proj2 (SetPosition_checks_then_writes
                      (Demo.holding Demo.offline ∅) 50 19 0.5));
        reflexivity.
    + reflexivity.
Defined.

(** Focus (0.5, 2) and focus (0.5, 0.5). *)
Lemma SetFocusRelative_all_or_nothing_witness :
  SetFocusRelative (Some 1%positive) 0.5 2 (Demo.holding Demo.offline ∅)
  = Returns (Some (Errorf ("invalid focus Y parameter: 0.500000"
                           +:+ ", should be [0.0, 1.0]")))
            (Demo.holding Demo.offline ∅)
  /\ exists w',
      SetFocusRelative (Some 1%positive) 0.5 0.5
        (Demo.holding Demo.offline ∅)
      = Returns None w'
      /\ heap w' !! 1%positive
         = Some (<["focus[y]" := "0.5"]> (<["focus[x]" := "0.5"]> ∅)).
Proof.
  split.
  - exact (proj1 (proj2 (SetFocusRelative_all_or_nothing
                           (Demo.holding Demo.offline ∅) 0.5 2))
             eq_refl eq_refl (Some 1%positive)).
  - eexists. split.
    + apply (proj2 (proj2 (SetFocusRelative_all_or_nothing
                             (Demo.holding Demo.offline ∅) 0.5 0.5)));
        reflexivity.
    + reflexivity.
Defined.

(** Focus (-3, 5), focus (3, -5) and focus (3, 5). *)
Lemma SetFocusAbsolute_all_or_nothing_witness :
  SetFocusAbsolute (Some 1%positive) (-3) 5 (Demo.holding Demo.offline ∅)
  = Returns (Some (Errorf ("invalid focus X parameter: %!f(int=-3)"
                           +:+ ", should be greater or equal to 0")))
            (Demo.holding Demo.offline ∅)
  /\ SetFocusAbsolute (Some 1%positive) 3 (-5) (Demo.holding Demo.offline ∅)
     = Returns (Some (Errorf ("invalid focus Y parameter: %!f(int=3)"
                              +:+ ", should be greater or equal to 0")))
               (Demo.holding Demo.offline ∅)
  /\ exists w',
      SetFocusAbsolute (Some 1%positive) 3 5 (Demo.holding Demo.offline ∅)
      = Returns None w'
      /\ heap w' !! 1%positive
         = Some (<["focus[y]" := "5"]> (<["focus[x]" := "3"]> ∅)).
Proof.
  split; [| split].
  - exact (proj1 (proj2 (SetFocusAbsolute_all_or_nothing
                           (Demo.holding Demo.offline ∅) (-3) 5))
             eq_refl (Some 1%positive)).
  - refine (proj1 (proj2 (proj2 (SetFocusAbsolute_all_or_nothing
                                   (Demo.holding Demo.offline ∅) 3 (-5))))
              _ eq_refl (Some 1%positive)). discriminate.
  - eexists. split.
    + apply (proj2 (proj2 (proj2 (SetFocusAbsolute_all_or_nothing
                                    (Demo.holding Demo.offline ∅) 3 5))));
        [discriminate | discriminate | reflexivity].
    + reflexivity.
Defined.

(** A TTL of 0 after [SetMaxTTL], and [SetMaxTTL] after a TTL of 30. *)
Lemma SetTTL_SetMaxTTL_witness :
  (exists e w',
     and_then (SetMaxTTL (Some 1%positive) (Demo.holding Demo.offline ∅))
              (fun _ w1 => SetTTL (Some 1%positive) 0 w1)
     = Returns (Some e) w'
     /\ heap w' !! 1%positive = Some (<["image_request[ttl]" := "max"]> ∅))
  /\ (exists w',
        and_then (SetTTL (Some 1%positive) 30 (Demo.holding Demo.offline ∅))
                 (fun _ w1 => SetMaxTTL (Some 1%positive) w1)
        = Returns tt w'
        /\ heap w' !! 1%positive
           = Some (<["image_request[ttl]" := "max"]> ∅)).
Proof.
  pose proof (SetTTL_SetMaxTTL 1%positive ∅ (Demo.holding Demo.offline ∅) 0
                eq_refl) as H0.
  pose proof (SetTTL_SetMaxTTL 1%positive ∅ (Demo.holding Demo.offline ∅) 30
                eq_refl) as H30.
  cbv zeta in H0, H30.
  destruct H0 as (_ & _ & _ & H0 & _), H30 as (_ & _ & H30 & _). split.
  - destruct H0 as [e H0]; [discriminate |].
    eexists e, _. split; [exact H0 | reflexivity].
  - eexists. split; [exact H30 | reflexivity].
Defined.

(** The language of the caller's map after a signed header was made. *)
Lemma setter_entries_survive_signing_witness :
  map_of (snd (getAuthHeader Demo.signed "POST" requestsURL (Some 1%positive)
                 (Demo.holding (Demo.answering 200 Demo.body_completed)
                               Demo.polish)))
         1%positive
    !! "image_request[language]"
  = Some "pl".
Proof.
  rewrite (setter_entries_survive_signing Demo.signed "POST" requestsURL
             1%positive
             (Demo.holding (Demo.answering 200 Demo.body_completed)
                           Demo.polish)
             "image_request[language]");
    [reflexivity | repeat constructor].
Defined.
